(** * MixLaboratory / AudioAnalyzerBridge: FFT_Processor and BPM_Detector

    A shallow embedding of the signal-processing core
    ([FFT_Processor.cpp], [BPM_Detector.cpp]) and the properties the
    specification states about it.

    - C++ [float] is IEEE-754 binary32 and [double] is binary64, both taken
      from the Standard Library's [SpecFloat] (round to nearest, ties to
      even), so every definition below computes.
    - [size_t] is a 64-bit unsigned integer: a [Z] with the wrap-around
      written out ([szadd], [szsub], [szmul]); [int] is 32 bits.
    - [std::vector<T>] is [list T]; [operator[]] is bounds-checked and an
      access out of range is the error [OutOfBounds] (undefined behaviour in
      the source).
    - Exceptions and undefined behaviour are the [Err] results of a small
      error monad. *)

From Stdlib Require Import ZArith List Lia Bool Permutation Reals Lra.
From Stdlib Require Import Floats.SpecFloat.
From Stdlib Require Import Sorting.Sorted.
Import ListNotations.
Local Open Scope Z_scope.


(* ===================================================================== *)
(** * Part I: definitions                                                  *)
(* ===================================================================== *)

(** ** Errors and the error monad *)

Inductive error : Type :=
| InvalidArgument   (* std::invalid_argument thrown by the source *)
| OutOfBounds       (* operator[] outside [0, size()) *)
| SignedOverflow    (* overflow of an [int] addition *)
| CastOutOfRange    (* float-to-integer conversion of an unrepresentable value *)
| DivisionByZero    (* integer division by zero *)
| NonTermination    (* a loop that never exits *)
| PreconditionViolated.  (* a standard library function called outside its precondition *)

Inductive result (A : Type) : Type :=
| Ok (a : A)
| Err (e : error).

Arguments Ok {A} a.
Arguments Err {A} e.

Definition bind {A B : Type} (m : result A) (k : A -> result B) : result B :=
  match m with
  | Ok a => k a
  | Err e => Err e
  end.

Notation "x <- m ;; k" := (bind m (fun x => k))
  (at level 61, m at next level, right associativity).
Notation "' p <- m ;; k" := (bind m (fun x => match x with p => k end))
  (at level 61, p pattern, m at next level, right associativity).

(** ** Machine integers *)

Definition size_max : Z := 2 ^ 64.
Definition szadd (a b : Z) : Z := (a + b) mod size_max.
Definition szsub (a b : Z) : Z := (a - b) mod size_max.
Definition szmul (a b : Z) : Z := (a * b) mod size_max.

Definition int_min : Z := - 2 ^ 31.
Definition int_max : Z := 2 ^ 31 - 1.

(** [static_cast<int>(n)] of an unsigned value: reduction modulo 2^32. *)
Definition to_int (n : Z) : Z := (n + 2 ^ 31) mod 2 ^ 32 - 2 ^ 31.

(** [a + b] on [int]: overflow is undefined. *)
Definition int_add (a b : Z) : result Z :=
  let c := a + b in
  if (int_min <=? c) && (c <=? int_max) then Ok c else Err SignedOverflow.

(** ** Vectors *)

Definition vsize {A : Type} (v : list A) : Z := Z.of_nat (length v).

Definition vget {A : Type} (v : list A) (i : Z) : result A :=
  if (0 <=? i) && (i <? vsize v) then
    match nth_error v (Z.to_nat i) with
    | Some a => Ok a
    | None => Err OutOfBounds
    end
  else Err OutOfBounds.

Fixpoint list_update {A : Type} (v : list A) (n : nat) (a : A) : list A :=
  match v, n with
  | [], _ => []
  | _ :: t, O => a :: t
  | h :: t, S n' => h :: list_update t n' a
  end.

Definition vset {A : Type} (v : list A) (i : Z) (a : A) : result (list A) :=
  if (0 <=? i) && (i <? vsize v) then Ok (list_update v (Z.to_nat i) a)
  else Err OutOfBounds.

(** [std::vector<T> v(n, a)]. *)
Definition vmake {A : Type} (n : Z) (a : A) : list A := repeat a (Z.to_nat n).

(** ** Loops

    [for (i = lo; i < hi; i++) body] threads a state through the body and
    stops at the first error.  [for_loop] is the reference semantics (a
    count of iterations); [for_range] computes the same result by binary
    recursion on the count, so that a range of 2^64 indices whose first
    iteration fails still evaluates. *)

Fixpoint for_loop {St : Type} (body : Z -> St -> result St) (n : nat) (i : Z) (s : St)
  : result St :=
  match n with
  | O => Ok s
  | S n' => s' <- body i s ;; for_loop body n' (i + 1) s'
  end.

Fixpoint loop_pos {St : Type} (body : Z -> St -> result St) (p : positive) (i : Z) (s : St)
  : result (Z * St) :=
  match p with
  | xH => s' <- body i s ;; Ok (i + 1, s')
  | xO p' =>
      '(i1, s1) <- loop_pos body p' i s ;;
      loop_pos body p' i1 s1
  | xI p' =>
      s0 <- body i s ;;
      '(i1, s1) <- loop_pos body p' (i + 1) s0 ;;
      loop_pos body p' i1 s1
  end.

Definition for_range {St : Type} (lo hi : Z) (body : Z -> St -> result St) (s : St)
  : result St :=
  match hi - lo with
  | Zpos p => '(_, s') <- loop_pos body p lo s ;; Ok s'
  | _ => Ok s
  end.

(** The indices [lo, lo+1, ..., hi-1]. *)
Definition zrange (lo hi : Z) : list Z :=
  map (fun k => lo + Z.of_nat k) (seq 0 (Z.to_nat (hi - lo))).

(** [for (i = lo; i < hi; i += step) body], for a positive [step]. *)
Definition for_step {St : Type} (lo hi step : Z) (body : Z -> St -> result St) (s : St)
  : result St :=
  for_range 0 ((hi - lo + step - 1) / step) (fun k => body (lo + k * step)) s.

(** [std::round] of a float of precision [prec]: the nearest integer,
    halfway cases away from zero. *)
Definition sf_round (prec emax : Z) (x : spec_float) : spec_float :=
  match x with
  | S754_finite s m e =>
      if 0 <=? e then x
      else
        let d := 2 ^ (- e) in
        let q := Zpos m / d in
        let r := Zpos m mod d in
        let q' := if d <=? 2 * r then q + 1 else q in
        if q' =? 0 then S754_zero s
        else binary_normalize prec emax (cond_Zopp s q') 0 s
  | _ => x
  end.

(** ** IEEE-754 binary32 ([float]) *)

Module F32.
Definition prec : Z := 24.
Definition emax : Z := 128.
Definition t : Type := spec_float.

Definition zero : t := S754_zero false.
Definition nan : t := S754_nan.
Definition add : t -> t -> t := SFadd prec emax.
Definition sub : t -> t -> t := SFsub prec emax.
Definition mul : t -> t -> t := SFmul prec emax.
Definition div : t -> t -> t := SFdiv prec emax.
Definition sqrt : t -> t := SFsqrt prec emax.
Definition abs : t -> t := SFabs.
Definition opp : t -> t := SFopp.
Definition ltb : t -> t -> bool := SFltb.
Definition leb : t -> t -> bool := SFleb.
Definition gtb (x y : t) : bool := SFltb y x.
Definition geb (x y : t) : bool := SFleb y x.
Definition is_nan (x : t) : bool :=
  match x with S754_nan => true | _ => false end.
Definition is_inf (x : t) : bool :=
  match x with S754_infinity _ => true | _ => false end.
(** [std::isfinite]: neither a NaN nor an infinity. *)
Definition is_finite (x : t) : bool :=
  match x with S754_zero _ | S754_finite _ _ _ => true | _ => false end.
Definition infinity : t := S754_infinity false.

(** Conversion of an integer ([int], [unsigned], [size_t]) to [float]. *)
Definition of_Z (z : Z) : t := binary_normalize prec emax z 0 false.

(** A decimal literal [n/d] with [n] and [d] below 2^24: the correctly
    rounded quotient of two exact values is the nearest float, which is
    what the compiler stores for the literal. *)
Definition lit (n d : Z) : t := div (of_Z n) (of_Z d).

(** Truncation toward zero of a finite value. *)
Definition trunc (x : t) : option Z :=
  match x with
  | S754_zero _ => Some 0
  | S754_finite s m e => Some (cond_Zopp s (Z.shiftl (Zpos m) e))
  | _ => None
  end.

(** [static_cast<int>(x)] and [static_cast<size_t>(x)]: undefined when the
    truncated value is not representable. *)
Definition to_int (x : t) : result Z :=
  match trunc x with
  | Some z => if (int_min <=? z) && (z <=? int_max) then Ok z else Err CastOutOfRange
  | None => Err CastOutOfRange
  end.

Definition to_size (x : t) : result Z :=
  match trunc x with
  | Some z => if (0 <=? z) && (z <? size_max) then Ok z else Err CastOutOfRange
  | None => Err CastOutOfRange
  end.

(** [static_cast<unsigned int>(x)]. *)
Definition to_u32 (x : t) : result Z :=
  match trunc x with
  | Some z => if (0 <=? z) && (z <? 2 ^ 32) then Ok z else Err CastOutOfRange
  | None => Err CastOutOfRange
  end.

Definition round : t -> t := sf_round prec emax.

(** [std::min] and [std::max] as the standard library defines them. *)
Definition min (a b : t) : t := if ltb b a then b else a.
Definition max (a b : t) : t := if ltb a b then b else a.
End F32.

Declare Scope f32_scope.
Delimit Scope f32_scope with f32.
Bind Scope f32_scope with F32.t.
Infix "+" := F32.add : f32_scope.
Infix "-" := F32.sub : f32_scope.
Infix "*" := F32.mul : f32_scope.
Infix "/" := F32.div : f32_scope.
Infix "<?" := F32.ltb : f32_scope.
Infix "<=?" := F32.leb : f32_scope.
Infix ">?" := F32.gtb : f32_scope.
Infix ">=?" := F32.geb : f32_scope.

(** ** IEEE-754 binary64 ([double]) *)

Module F64.
Definition prec : Z := 53.
Definition emax : Z := 1024.
Definition t : Type := spec_float.

Definition add : t -> t -> t := SFadd prec emax.
Definition sub : t -> t -> t := SFsub prec emax.
Definition mul : t -> t -> t := SFmul prec emax.
Definition div : t -> t -> t := SFdiv prec emax.
Definition round : t -> t := sf_round prec emax.
Definition of_Z (z : Z) : t := binary_normalize prec emax z 0 false.

(** [M_PI] = 0x400921FB54442D18. *)
Definition pi : t := S754_finite false 7074237752028440 (-51).

(** The implicit conversion [float -> double] (exact). *)
Definition of_f32 (x : F32.t) : t :=
  match x with
  | S754_finite s m e => binary_round prec emax s m e
  | _ => x
  end.

(** The conversion [double -> float] (rounds to nearest). *)
Definition to_f32 (x : t) : F32.t :=
  match x with
  | S754_finite s m e => binary_round F32.prec F32.emax s m e
  | _ => x
  end.
End F64.

Declare Scope f64_scope.
Delimit Scope f64_scope with f64.
Bind Scope f64_scope with F64.t.
Infix "+" := F64.add : f64_scope.
Infix "-" := F64.sub : f64_scope.
Infix "*" := F64.mul : f64_scope.
Infix "/" := F64.div : f64_scope.

(** ** The math library

    The transcendental functions of <cmath> are not part of the repository
    and IEEE-754 does not fix their results: they are an interface. *)

Class Libm : Type := {
  cosf : F32.t -> F32.t;              (* std::cos(float) *)
  sinf : F32.t -> F32.t;              (* std::sin(float) *)
  cos : F64.t -> F64.t;               (* std::cos(double) *)
  atan2f : F32.t -> F32.t -> F32.t;   (* std::atan2(float, float) *)
  hypotf : F32.t -> F32.t -> F32.t    (* std::hypot(float, float) *)
}.

(** ** [std::complex<float>] *)

Record complex : Type := mkC { re : F32.t; im : F32.t }.

Module C32.
Definition zero : complex := mkC F32.zero F32.zero.
Definition add (a b : complex) : complex :=
  mkC (re a + re b)%f32 (im a + im b)%f32.
Definition sub (a b : complex) : complex :=
  mkC (re a - re b)%f32 (im a - im b)%f32.

(** [copysign(isinf(v) ? 1 : 0, v)] and [if (isnan(v)) v = copysign(0, v)].
    A NaN of [spec_float] carries no sign; the zero it is replaced with is
    only ever multiplied by finite values and added to other products
    before the multiplication by infinity, so its sign does not reach the
    result. *)
Definition box (v : F32.t) : F32.t :=
  match v with
  | S754_infinity s => S754_finite s (2 ^ 23) (- 23)
  | S754_zero s => S754_zero s
  | S754_finite s _ _ => S754_zero s
  | S754_nan => F32.zero
  end.
Definition nan_to_zero (v : F32.t) : F32.t :=
  match v with S754_nan => F32.zero | _ => v end.

(** [operator*] on two [std::complex<float>]: the product formula, and,
    when both parts come out as NaN, the recovery of infinities of C99
    Annex G that the compiler's complex multiplication performs. *)
Definition mul (z w : complex) : complex :=
  let a := re z in
  let b := im z in
  let c := re w in
  let d := im w in
  let ac := (a * c)%f32 in
  let bd := (b * d)%f32 in
  let ad := (a * d)%f32 in
  let bc := (b * c)%f32 in
  let x := (ac - bd)%f32 in
  let y := (ad + bc)%f32 in
  if F32.is_nan x && F32.is_nan y then
    let '(a, b, c, d, recalc) :=
      if F32.is_inf a || F32.is_inf b
      then (box a, box b, nan_to_zero c, nan_to_zero d, true)
      else (a, b, c, d, false) in
    let '(a, b, c, d, recalc) :=
      if F32.is_inf c || F32.is_inf d
      then (nan_to_zero a, nan_to_zero b, box c, box d, true)
      else (a, b, c, d, recalc) in
    let '(a, b, c, d, recalc) :=
      if negb recalc
         && (F32.is_inf ac || F32.is_inf bd || F32.is_inf ad || F32.is_inf bc)
      then (nan_to_zero a, nan_to_zero b, nan_to_zero c, nan_to_zero d, true)
      else (a, b, c, d, recalc) in
    if recalc then
      mkC (F32.infinity * (a * c - b * d))%f32 (F32.infinity * (a * d + b * c))%f32
    else mkC x y
  else mkC x y.
Definition conj (a : complex) : complex := mkC (re a) (F32.opp (im a)).
(** [complex * float]. *)
Definition scale (a : complex) (k : F32.t) : complex :=
  mkC (re a * k)%f32 (im a * k)%f32.

Section WithLibm.
Context {L : Libm}.
Definition abs (a : complex) : F32.t := hypotf (re a) (im a).
Definition arg (a : complex) : F32.t := atan2f (im a) (re a).
(** [std::polar(rho, theta)]; the standard requires [rho] non-negative and
    not a NaN and [theta] finite, and leaves the call undefined otherwise
    (the library asserts [rho >= 0]). *)
Definition polar (rho theta : F32.t) : result complex :=
  if (rho >=? F32.zero)%f32 && F32.is_finite theta then
    Ok (mkC (rho * cosf theta)%f32 (rho * sinf theta)%f32)
  else Err PreconditionViolated.
End WithLibm.
End C32.

(** ** FFT_Processor *)

(** The arithmetic the transform is written over.  The source instantiates
    it with [std::complex<float>] ([c32_arith] below). *)
Class FFTArith (C : Type) : Type := {
  fa_zero : C;
  fa_add : C -> C -> C;
  fa_sub : C -> C -> C;
  fa_mul : C -> C -> C;
  fa_conj : C -> C;
  fa_unscale : Z -> C -> C;   (* v * (1.0f / N) *)
  fa_twiddle : Z -> Z -> C    (* the i-th twiddle factor of a transform of size N *)
}.

Module FFT_Processor.

Section Transform.
Context {C : Type} {A : FFTArith C}.

(** [while (j >= bit) { j -= bit; bit >>= 1; }].  Once [bit] is 0 the
    loop never exits; 65 iterations are enough to get there. *)
Fixpoint bitrev_while (fuel : nat) (j bit : Z) : result (Z * Z) :=
  match fuel with
  | O => Err NonTermination
  | S fuel' =>
      if bit <=? j then bitrev_while fuel' (j - bit) (Z.shiftr bit 1)
      else Ok (j, bit)
  end.

Definition vswap (x : list C) (i j : Z) : result (list C) :=
  a <- vget x i ;;
  b <- vget x j ;;
  x <- vset x i b ;;
  vset x j a.

Definition bit_reverse (N : Z) (x : list C) : result (list C) :=
  '(_, x) <- for_range 1 N
    (fun i '(j, x) =>
       '(j, bit) <- bitrev_while 65 j (Z.shiftr N 1) ;;
       let j := j + bit in
       if i <? j then x <- vswap x i j ;; Ok (j, x) else Ok (j, x))
    (0, x) ;;
  Ok x.

Definition make_twiddles (N : Z) : result (list C) :=
  for_range 0 (N / 2)
    (fun i twiddles => vset twiddles i (fa_twiddle N i))
    (vmake (N / 2) fa_zero).

Definition butterfly (twiddles : list C) (step half_len i j : Z) (x : list C)
  : result (list C) :=
  let index := szmul j step in
  twiddle <- vget twiddles index ;;
  a <- vget x (i + j + half_len) ;;
  let temp := fa_mul a twiddle in
  b <- vget x (i + j) ;;
  x <- vset x (i + j + half_len) (fa_sub b temp) ;;
  b <- vget x (i + j) ;;
  vset x (i + j) (fa_add b temp).

Definition stage (N : Z) (twiddles : list C) (len : Z) (x : list C)
  : result (list C) :=
  if len =? 0 then Err DivisionByZero
  else
    let half_len := len / 2 in
    let step := N / len in
    for_step 0 N len
      (fun i x => for_range 0 half_len (butterfly twiddles step half_len i) x) x.

(** [for (len = 2; len <= N; len *= 2)]. *)
Fixpoint stages (fuel : nat) (N : Z) (twiddles : list C) (len : Z) (x : list C)
  : result (list C) :=
  match fuel with
  | O => Err NonTermination
  | S fuel' =>
      if len <=? N then
        x <- stage N twiddles len x ;;
        stages fuel' N twiddles (szmul len 2) x
      else Ok x
  end.

Definition FFT (x : list C) : result (list C) :=
  let N := vsize x in
  if N <=? 1 then Ok x
  else if negb (Z.land N (N - 1) =? 0) then Err InvalidArgument
  else
    x <- bit_reverse N x ;;
    twiddles <- make_twiddles N ;;
    stages 65 N twiddles 2 x.

Definition IFFT (x : list C) : result (list C) :=
  let N := vsize x in
  if N <=? 1 then Ok x
  else if negb (Z.land N (N - 1) =? 0) then Err InvalidArgument
  else
    let x := map fa_conj x in
    x <- FFT x ;;
    Ok (map (fun v => fa_unscale N (fa_conj v)) x).
End Transform.

Section WithLibm.
Context {L : Libm}.

(** [std::complex<float>] arithmetic; the twiddle factor is
    [(cos(angle), sin(angle))] with
    [float angle = -2.0f * M_PI * i / N] evaluated in double. *)
#[export] Instance c32_arith : FFTArith complex := {|
  fa_zero := C32.zero;
  fa_add := C32.add;
  fa_sub := C32.sub;
  fa_mul := C32.mul;
  fa_conj := C32.conj;
  fa_unscale := fun N v => C32.scale v (F32.of_Z 1 / F32.of_Z N)%f32;
  fa_twiddle := fun N i =>
    let angle :=
      F64.to_f32 (F64.of_f32 (F32.opp (F32.of_Z 2)) * F64.pi
                  * F64.of_Z i / F64.of_Z N)%f64 in
    mkC (cosf angle) (sinf angle)
|}.

Definition hanningWindow (size : Z) : result (list F32.t) :=
  for_range 0 size
    (fun i window =>
       let x := (F64.of_f32 (F32.of_Z 2) * F64.pi * F64.of_Z i
                 / F64.of_Z ((size - 1) mod 2 ^ 32))%f64 in
       vset window i
         (F64.to_f32 (F64.of_f32 (F32.lit 5 10)
                      * (F64.of_f32 (F32.of_Z 1) - cos x))%f64))
    (vmake size F32.zero).

Definition applyHannWindow (buffer : list F32.t) : result (list F32.t) :=
  let N := vsize buffer in
  let norm := F64.to_f32 (F64.of_Z 2 * F64.pi / F64.of_Z (szsub N 1))%f64 in
  for_range 0 (to_int N)
    (fun i buffer =>
       b <- vget buffer i ;;
       vset buffer i
         (b * (F32.lit 5 10 * (F32.of_Z 1 - cosf (F32.of_Z i * norm))))%f32)
    buffer.

(** The transient test of [applyPhaseVocoder]; [true] is the [break]. *)
Fixpoint transient_scan (spectrum : list complex) (previousMagnitude : list F32.t)
  (bins : list Z) (magnitudeRatio : F32.t) : result bool :=
  match bins with
  | [] => Ok false
  | i :: rest =>
      c <- vget spectrum i ;;
      let currentMag := C32.abs c in
      pm <- vget previousMagnitude i ;;
      if (pm >? F32.zero)%f32 then
        pm <- vget previousMagnitude i ;;
        let ratio := (currentMag / pm)%f32 in
        let magnitudeRatio := (magnitudeRatio + ratio)%f32 in
        if (ratio >? F32.of_Z 3)%f32 then Ok true
        else transient_scan spectrum previousMagnitude rest magnitudeRatio
      else transient_scan spectrum previousMagnitude rest magnitudeRatio
  end.

Definition vocoder_bin (spectrum : list complex) (stretchFactor frameDelta omega : F32.t)
  (numBins : Z) (isTransient : bool) (i : Z)
  (st : list complex * list F32.t * list F32.t)
  : result (list complex * list F32.t * list F32.t) :=
  let '(modifiedSpectrum, previousPhase, previousMagnitude) := st in
  c <- vget spectrum i ;;
  let magnitude := C32.abs c in
  c <- vget spectrum i ;;
  let phase := C32.arg c in
  '(newPhase, magnitude) <-
    (if (0 <? i) && (i <? numBins - 1) then
       if isTransient && (magnitude >? F32.lit 1 100)%f32 then Ok (phase, magnitude)
       else
         let expectedPhaseAdvance := (omega * F32.of_Z i * frameDelta)%f32 in
         pp <- vget previousPhase i ;;
         let phaseDiff := (phase - pp)%f32 in
         let two_pi := (F64.of_f32 (F32.of_Z 2) * F64.pi)%f64 in
         let phaseDiff :=
           F64.to_f32
             (F64.of_f32 phaseDiff
              - two_pi * F64.round (F64.of_f32 phaseDiff / two_pi))%f64 in
         let instFreq := (expectedPhaseAdvance + phaseDiff / frameDelta)%f32 in
         pp <- vget previousPhase i ;;
         Ok ((pp + instFreq * frameDelta * stretchFactor)%f32, magnitude)
     else
       c <- vget spectrum i ;;
       Ok (F32.zero, C32.abs c)) ;;
  value <- C32.polar magnitude newPhase ;;
  modifiedSpectrum <- vset modifiedSpectrum i value ;;
  previousPhase <- vset previousPhase i newPhase ;;
  previousMagnitude <- vset previousMagnitude i magnitude ;;
  Ok (modifiedSpectrum, previousPhase, previousMagnitude).

(** The two vectors passed by reference are returned with the spectrum. *)
Definition applyPhaseVocoder (spectrum : list complex) (stretchFactor : F32.t)
  (previousPhase previousMagnitude : list F32.t) (frameDelta : F32.t)
  : result (list complex * list F32.t * list F32.t) :=
  let N := vsize spectrum in
  let modifiedSpectrum := vmake N C32.zero in
  let numBins := szadd (N / 2) 1 in
  let omega := F64.to_f32 (F64.of_f32 (F32.of_Z 2) * F64.pi / F64.of_Z N)%f64 in
  isTransient <- transient_scan spectrum previousMagnitude
                   (zrange 1 (szsub numBins 1)) F32.zero ;;
  '(modifiedSpectrum, previousPhase, previousMagnitude) <-
    for_range 0 numBins
      (vocoder_bin spectrum stretchFactor frameDelta omega numBins isTransient)
      (modifiedSpectrum, previousPhase, previousMagnitude) ;;
  modifiedSpectrum <-
    for_range 1 (N / 2)
      (fun i ms => c <- vget ms i ;; vset ms (N - i) (C32.conj c))
      modifiedSpectrum ;;
  c <- vget modifiedSpectrum 0 ;;
  modifiedSpectrum <- vset modifiedSpectrum 0 (mkC (re c) F32.zero) ;;
  modifiedSpectrum <-
    (if N mod 2 =? 0 then
       c <- vget modifiedSpectrum (N / 2) ;;
       vset modifiedSpectrum (N / 2) (mkC (re c) F32.zero)
     else Ok modifiedSpectrum) ;;
  Ok (modifiedSpectrum, previousPhase, previousMagnitude).

(** *** timeStretch *)

Definition ts_windowSize : Z := 4096.
Definition analysisHop : Z := ts_windowSize / 4.

(** The analysis window: a Hann window scaled by
    [1 / sqrt(sum of its squares at stride analysisHop)]. *)
Definition analysis_window : result (list F32.t) :=
  analysisWindow <- hanningWindow ts_windowSize ;;
  analysisWindowSum <-
    for_step 0 ts_windowSize analysisHop
      (fun i sum =>
         if i <? ts_windowSize then
           a <- vget analysisWindow i ;;
           b <- vget analysisWindow i ;;
           Ok (sum + a * b)%f32
         else Ok sum)
      F32.zero ;;
  if (analysisWindowSum >? F32.zero)%f32 then
    let analysisNorm := (F32.of_Z 1 / F32.sqrt analysisWindowSum)%f32 in
    Ok (map (fun w => (w * analysisNorm)%f32) analysisWindow)
  else Ok analysisWindow.

Definition synthesis_window : result (list F32.t) :=
  synthesisWindow <- hanningWindow ts_windowSize ;;
  let synthesisNorm := F32.of_Z 1 in
  Ok (map (fun w => (w * synthesisNorm)%f32) synthesisWindow).

(** State of the frame loop. *)
Record ts_state : Type := mkTs {
  ts_output : list F32.t;
  ts_overlap : list F32.t;
  ts_phase : list F32.t;
  ts_magnitude : list F32.t;
  ts_frame : list complex;
  ts_outputPos : Z
}.

Definition overlap_add (processedFrame : list complex) (synthesisWindow : list F32.t)
  (outputPos : Z) (out : list F32.t * list F32.t)
  : result (list F32.t * list F32.t) :=
  for_range 0 ts_windowSize
    (fun i '(output, overlapCompensation) =>
       c <- vget processedFrame i ;;
       w <- vget synthesisWindow i ;;
       let windowedSample := (re c * w)%f32 in
       o <- vget output (szadd outputPos i) ;;
       output <- vset output (szadd outputPos i) (o + windowedSample)%f32 ;;
       w1 <- vget synthesisWindow i ;;
       w2 <- vget synthesisWindow i ;;
       oc <- vget overlapCompensation (szadd outputPos i) ;;
       overlapCompensation <-
         vset overlapCompensation (szadd outputPos i) (oc + w1 * w2)%f32 ;;
       Ok (output, overlapCompensation))
    out.

Definition ts_frame_step (paddedInput analysisWindow synthesisWindow : list F32.t)
  (stretchFactor : F32.t) (synthesisHop : Z) (pos : Z) (st : ts_state)
  : result ts_state :=
  frame <- for_range 0 ts_windowSize
             (fun i frame =>
                p <- vget paddedInput (szadd pos i) ;;
                w <- vget analysisWindow i ;;
                vset frame i (mkC (p * w)%f32 F32.zero))
             (ts_frame st) ;;
  frame <- FFT frame ;;
  let frameDelta := (F32.of_Z analysisHop / F32.of_Z 44100)%f32 in
  '(processedFrame, previousPhase, previousMagnitude) <-
    applyPhaseVocoder frame stretchFactor (ts_phase st) (ts_magnitude st) frameDelta ;;
  processedFrame <- IFFT processedFrame ;;
  '(output, overlapCompensation) <-
    (if szadd (ts_outputPos st) ts_windowSize <=? vsize (ts_output st) then
       overlap_add processedFrame synthesisWindow (ts_outputPos st)
         (ts_output st, ts_overlap st)
     else Ok (ts_output st, ts_overlap st)) ;;
  Ok (mkTs output overlapCompensation previousPhase previousMagnitude frame
        (szadd (ts_outputPos st) synthesisHop)).

Definition sum_squares (v : list F32.t) : F32.t :=
  fold_left (fun acc sample => (acc + sample * sample)%f32) v F32.zero.

(** The part of [timeStretch] after the guard clauses. *)
Definition stretch (input : list F32.t) (stretchFactor : F32.t)
  : result (list F32.t) :=
  let windowSize := ts_windowSize in
  synthesisHop <- F32.to_u32 (F32.of_Z analysisHop * stretchFactor)%f32 ;;
  analysisWindow <- analysis_window ;;
  synthesisWindow <- synthesis_window ;;
  outputLength <-
    F32.to_size (F32.of_Z (vsize input) * stretchFactor + F32.of_Z windowSize)%f32 ;;
  let output := vmake outputLength F32.zero in
  let paddedInput :=
    vmake windowSize F32.zero ++ input ++ vmake windowSize F32.zero in
  let previousPhase := vmake (windowSize / 2 + 1) F32.zero in
  let previousMagnitude := vmake (windowSize / 2 + 1) F32.zero in
  let overlapCompensation := vmake outputLength F32.zero in
  let frame := vmake windowSize C32.zero in
  st <- for_step 0 (vsize paddedInput - windowSize + 1) analysisHop
          (ts_frame_step paddedInput analysisWindow synthesisWindow
             stretchFactor synthesisHop)
          (mkTs output overlapCompensation previousPhase previousMagnitude frame 0) ;;
  output <- for_range 0 (vsize (ts_output st))
              (fun i output =>
                 oc <- vget (ts_overlap st) i ;;
                 if (oc >? F32.lit 1 100)%f32 then
                   o <- vget output i ;;
                   oc <- vget (ts_overlap st) i ;;
                   vset output i (o / F32.sqrt oc)%f32
                 else Ok output)
              (ts_output st) ;;
  expectedLength <- F32.to_size (F32.of_Z (vsize input) * stretchFactor)%f32 ;;
  let output :=
    if expectedLength <? vsize output then firstn (Z.to_nat expectedLength) output
    else output in
  let inputRMS := F32.sqrt (sum_squares input / F32.of_Z (vsize input))%f32 in
  let outputRMS := F32.sqrt (sum_squares output / F32.of_Z (vsize output))%f32 in
  let output :=
    if (outputRMS >? F32.zero)%f32 && (inputRMS >? F32.zero)%f32 then
      let amplitudeCorrection := (inputRMS / outputRMS)%f32 in
      let amplitudeCorrection := F32.min amplitudeCorrection (F32.of_Z 3) in
      map (fun sample => (sample * amplitudeCorrection)%f32) output
    else output in
  Ok (map (fun sample =>
             F32.max (F32.opp (F32.lit 95 100)) (F32.min (F32.lit 95 100) sample))
          output).

(** The caller's [windowSize] is overwritten with 4096 before any use
    and does not appear here. *)
Definition timeStretch (input : list F32.t) (stretchFactor : F32.t)
  : result (list F32.t) :=
  if (vsize input =? 0) || (stretchFactor <=? F32.zero)%f32 then Ok input
  else if (F32.abs (stretchFactor - F32.of_Z 1) <? F32.lit 1 1000)%f32 then Ok input
  else if (stretchFactor <? F32.lit 25 100)%f32
          || (stretchFactor >? F32.of_Z 4)%f32 then Ok input
  else stretch input stretchFactor.
End WithLibm.

End FFT_Processor.

(** ** BPM_Detector: beat picking and tempo estimation *)

Module BPM_Detector.

(** *** detectOnsets *)

Definition hopSize : Z := 512.
Definition medianSize : Z := 11.

(** [(samples.size() - windowSizes[0]) / hopSize + 1] in [size_t]. *)
Definition numFrames_of (n : Z) : Z := szadd (szsub n 1024 / hopSize) 1.

(** [*std::max_element(first, last)]: the first largest element;
    dereferencing the end iterator of an empty range is undefined. *)
Definition max_element (v : list F32.t) : result F32.t :=
  match v with
  | [] => Err OutOfBounds
  | x :: rest => Ok (fold_left (fun best y => if (best <? y)%f32 then y else best) rest x)
  end.

(** Sorting by [operator<]; [std::nth_element] leaves at position [n] the
    element a sort would put there. *)
Fixpoint insert_sorted (x : F32.t) (l : list F32.t) : list F32.t :=
  match l with
  | [] => [x]
  | h :: t => if (x <? h)%f32 then x :: l else h :: insert_sorted x t
  end.

Definition sort_floats (l : list F32.t) : list F32.t :=
  fold_right insert_sorted [] l.

Section WithLibm.
Context {L : Libm}.
Import FFT_Processor.

(** [buffer[i] = (sampleIdx < samples.size()) ? samples[sampleIdx] : 0.0f]. *)
Definition fill_buffer (samples : list F32.t) (frame windowSize : Z)
  (buffer : list F32.t) : result (list F32.t) :=
  for_range 0 windowSize
    (fun i buffer =>
       let sampleIdx := szadd (szmul frame hopSize) i in
       v <- (if sampleIdx <? vsize samples then vget samples sampleIdx
             else Ok F32.zero) ;;
       vset buffer i v)
    buffer.

(** The flux of one frame and the magnitudes kept for the next one. *)
Definition frame_flux (sampleRate windowSize : Z) (fftBuffer : list complex)
  (prevMagnitudes : list F32.t) : result (F32.t * list F32.t) :=
  for_range 1 (windowSize / 2 + 1)
    (fun i '(flux, prevMagnitudes) =>
       let freq := (F32.of_Z i * F32.of_Z sampleRate / F32.of_Z windowSize)%f32 in
       let freqWeight :=
         if (freq >? F32.of_Z 100)%f32 && (freq <? F32.of_Z 8000)%f32
         then F32.of_Z 1 else F32.lit 5 10 in
       c <- vget fftBuffer i ;;
       let mag := C32.abs c in
       p <- vget prevMagnitudes i ;;
       let diff := (mag - p)%f32 in
       let flux := if (diff >? F32.zero)%f32 then (flux + diff * freqWeight)%f32
                   else flux in
       prevMagnitudes <- vset prevMagnitudes i mag ;;
       Ok (flux, prevMagnitudes))
    (F32.zero, prevMagnitudes).

Definition flux_step (samples : list F32.t) (sampleRate windowSize : Z) (frame : Z)
  (st : list F32.t * list F32.t * list complex * list F32.t)
  : result (list F32.t * list F32.t * list complex * list F32.t) :=
  let '(spectralFlux, buffer, fftBuffer, prevMagnitudes) := st in
  buffer <- fill_buffer samples frame windowSize buffer ;;
  buffer <- applyHannWindow buffer ;;
  fftBuffer <- for_range 0 windowSize
                 (fun i fftBuffer =>
                    b <- vget buffer i ;;
                    vset fftBuffer i (mkC b F32.zero))
                 fftBuffer ;;
  fftBuffer <- FFT fftBuffer ;;
  '(flux, prevMagnitudes) <- frame_flux sampleRate windowSize fftBuffer prevMagnitudes ;;
  spectralFlux <- vset spectralFlux frame flux ;;
  Ok (spectralFlux, buffer, fftBuffer, prevMagnitudes).

Definition spectral_flux (samples : list F32.t) (sampleRate numFrames windowSize : Z)
  : result (list F32.t) :=
  '(spectralFlux, _, _, _) <-
    for_range 0 numFrames (flux_step samples sampleRate windowSize)
      (vmake numFrames F32.zero, vmake windowSize F32.zero,
       vmake windowSize C32.zero, vmake (windowSize / 2 + 1) F32.zero) ;;
  Ok spectralFlux.

Definition add_normalized (numFrames : Z) (spectralFlux onsetStrength : list F32.t)
  : result (list F32.t) :=
  maxFlux <- max_element spectralFlux ;;
  if (maxFlux >? F32.zero)%f32 then
    for_range 0 numFrames
      (fun i onsetStrength =>
         o <- vget onsetStrength i ;;
         f <- vget spectralFlux i ;;
         vset onsetStrength i (o + f / maxFlux)%f32)
      onsetStrength
  else Ok onsetStrength.

Definition median_window (onsetStrength : list F32.t) (i : Z) (window : list F32.t)
  : result (list F32.t) :=
  for_range 0 medianSize
    (fun j window =>
       idx <- int_add (to_int i) j ;;
       idx <- int_add idx (- (medianSize / 2)) ;;
       if (idx <? 0) || (idx >=? to_int (vsize onsetStrength)) then
         vset window j F32.zero
       else
         v <- vget onsetStrength idx ;;
         vset window j v)
    window.

Definition median_filter (onsetStrength : list F32.t) : result (list F32.t) :=
  '(medianFiltered, _) <-
    for_range 0 (vsize onsetStrength)
      (fun i '(medianFiltered, window) =>
         window <- median_window onsetStrength i window ;;
         let window := sort_floats window in
         median <- vget window (medianSize / 2) ;;
         o <- vget onsetStrength i ;;
         let diff := (o - median)%f32 in
         medianFiltered <-
           vset medianFiltered i (if (diff >? F32.zero)%f32 then diff else F32.zero) ;;
         Ok (medianFiltered, window))
      (vmake (vsize onsetStrength) F32.zero, vmake medianSize F32.zero) ;;
  Ok medianFiltered.

Definition detectOnsets (samples : list F32.t) (sampleRate : Z)
  : result (list F32.t) :=
  let numFrames := numFrames_of (vsize samples) in
  let onsetStrength := vmake numFrames F32.zero in
  spectralFlux <- spectral_flux samples sampleRate numFrames 1024 ;;
  onsetStrength <- add_normalized numFrames spectralFlux onsetStrength ;;
  spectralFlux <- spectral_flux samples sampleRate numFrames 2048 ;;
  onsetStrength <- add_normalized numFrames spectralFlux onsetStrength ;;
  let onsetStrength := map (fun val => (val / F32.of_Z 2)%f32) onsetStrength in
  median_filter onsetStrength.
End WithLibm.

(** *** findBeats *)

Definition windowSize : Z := 9.
Definition statsWindow : Z := 30.

(** Sum, sum of squares and count over the statistics window of frame [i]. *)
Definition local_stats (onsetFunction : list F32.t) (length i : Z)
  : result (F32.t * F32.t * Z) :=
  let lo := if statsWindow / 2 <? i then szsub i (statsWindow / 2) else 0 in
  let hi := if szadd i (statsWindow / 2) <? length
            then szadd i (statsWindow / 2) else length in
  for_range lo hi
    (fun j '(sum, sumSq, count) =>
       x <- vget onsetFunction j ;;
       Ok ((sum + x)%f32, (sumSq + x * x)%f32, count + 1))
    (F32.zero, F32.zero, 0).

Definition threshold_of (thresholdFactor : F32.t) (stats : F32.t * F32.t * Z) : F32.t :=
  let '(sum, sumSq, count) := stats in
  let mean := (sum / F32.of_Z count)%f32 in
  let variance := (sumSq / F32.of_Z count - mean * mean)%f32 in
  (mean + thresholdFactor * F32.sqrt variance)%f32.

Definition adaptive_threshold (onsetFunction : list F32.t) (thresholdFactor : F32.t)
  : result (list F32.t) :=
  let length := vsize onsetFunction in
  for_range 0 length
    (fun i threshold =>
       stats <- local_stats onsetFunction length i ;;
       vset threshold i (threshold_of thresholdFactor stats))
    (vmake length F32.zero).

(** The neighbourhood scan of one candidate; [false] is the [break]. *)
Fixpoint is_local_max (onsetFunction : list F32.t) (length i : Z) (js : list Z)
  : result bool :=
  match js with
  | [] => Ok true
  | j :: js' =>
      if j =? 0 then is_local_max onsetFunction length i js'
      else
        idx <- int_add (to_int i) j ;;
        if (0 <=? idx) && (idx <? to_int length) then
          a <- vget onsetFunction idx ;;
          b <- vget onsetFunction i ;;
          if (a >? b)%f32 then Ok false
          else is_local_max onsetFunction length i js'
        else is_local_max onsetFunction length i js'
  end.

Definition peak_step (onsetFunction threshold : list F32.t) (length : Z)
  (i : Z) (peaks : list Z) : result (list Z) :=
  a <- vget onsetFunction i ;;
  th <- vget threshold i ;;
  if (a <=? th)%f32 then Ok peaks
  else
    isPeak <- is_local_max onsetFunction length i
                (zrange (- windowSize) (windowSize + 1)) ;;
    if isPeak then Ok (peaks ++ [i]) else Ok peaks.

Definition findBeats (onsetFunction : list F32.t) (thresholdFactor : F32.t)
  : result (list Z) :=
  let length := vsize onsetFunction in
  threshold <- adaptive_threshold onsetFunction thresholdFactor ;;
  for_range windowSize (szsub length windowSize)
    (peak_step onsetFunction threshold length) [].

(** *** estimateTempo *)

(** [std::unordered_map<int, float>]: an association list with unique
    keys.  [operator[]] inserts a zero for a missing key. *)
Fixpoint hist_find (h : list (Z * F32.t)) (k : Z) : option F32.t :=
  match h with
  | [] => None
  | (k', v) :: h' => if k' =? k then Some v else hist_find h' k
  end.

Fixpoint hist_add (h : list (Z * F32.t)) (k : Z) (w : F32.t) : list (Z * F32.t) :=
  match h with
  | [] => [(k, (F32.zero + w)%f32)]
  | (k', v) :: h' =>
      if k' =? k then (k', (v + w)%f32) :: h' else (k', v) :: hist_add h' k w
  end.

Definition beat_time (sampleRate hopSize beat : Z) : F32.t :=
  (F32.of_Z (szmul beat hopSize) / F32.of_Z sampleRate)%f32.

Definition ibi_ok (ibi : F32.t) : bool :=
  (ibi >=? F32.lit 2 10)%f32 && (ibi <=? F32.of_Z 2)%f32.

Definition collect_intervals (beatTimes : list F32.t) : result (list F32.t) :=
  for_range 1 (vsize beatTimes)
    (fun i intervals =>
       t1 <- vget beatTimes i ;;
       t0 <- vget beatTimes (i - 1) ;;   (* i >= 1: the subtraction cannot wrap *)
       let ibi := (t1 - t0)%f32 in
       if ibi_ok ibi then Ok (intervals ++ [ibi]) else Ok intervals)
    [].

(** The five (tempo, vote) pairs cast for one interval. *)
Definition tempos_of (primaryBPM : F32.t) : list (F32.t * F32.t) :=
  [ (primaryBPM, F32.of_Z 1);
    ((primaryBPM * F32.of_Z 2)%f32, F32.lit 9 10);
    ((primaryBPM / F32.of_Z 2)%f32, F32.lit 8 10);
    ((primaryBPM * F32.of_Z 3)%f32, F32.lit 5 10);
    ((primaryBPM / F32.of_Z 3)%f32, F32.lit 5 10) ].

Fixpoint cast_votes (weight : F32.t) (tempos : list (F32.t * F32.t))
  (h : list (Z * F32.t)) : result (list (Z * F32.t)) :=
  match tempos with
  | [] => Ok h
  | (bpm, vote) :: rest =>
      if (bpm >=? F32.of_Z 50)%f32 && (bpm <=? F32.of_Z 220)%f32 then
        bpmKey <- F32.to_int (bpm * F32.of_Z 2)%f32 ;;
        cast_votes weight rest (hist_add h bpmKey (weight * vote)%f32)
      else cast_votes weight rest h
  end.

Definition build_histogram (intervals : list F32.t) : result (list (Z * F32.t)) :=
  for_range 0 (vsize intervals)
    (fun i h =>
       let weight :=
         (F32.lit 5 10 + F32.lit 5 10 * (F32.of_Z i / F32.of_Z (vsize intervals)))%f32 in
       ibi <- vget intervals i ;;
       let primaryBPM := (F32.of_Z 60 / ibi)%f32 in
       cast_votes weight (tempos_of primaryBPM) h)
    [].

(** The strongest bucket, visiting the entries in the order given. *)
Fixpoint strongest (entries : list (Z * F32.t)) (bestBPMKey : Z) (maxScore : F32.t)
  : Z * F32.t :=
  match entries with
  | [] => (bestBPMKey, maxScore)
  | (k, v) :: rest =>
      if (v >? maxScore)%f32 then strongest rest k v
      else strongest rest bestBPMKey maxScore
  end.

(** The refinement loop over the offsets; it stops at the first hit. *)
Fixpoint refine (h : list (Z * F32.t)) (bestBPMKey : Z) (maxScore : F32.t)
  (offsets : list Z) : result Z :=
  match offsets with
  | [] => Ok bestBPMKey
  | offset :: rest =>
      nearbyKey <- int_add bestBPMKey offset ;;
      match hist_find h nearbyKey with
      | Some w =>
          if (w >? F32.lit 92 100 * maxScore)%f32 then
            F32.to_int
              ((F32.of_Z bestBPMKey * maxScore + F32.of_Z nearbyKey * w)
               / (maxScore + w))%f32
          else refine h bestBPMKey maxScore rest
      | None => refine h bestBPMKey maxScore rest
      end
  end.

Definition fold_octave (bestBPMKey : Z) : result Z :=
  let exactBPM := (F32.of_Z bestBPMKey / F32.of_Z 2)%f32 in
  let exactBPM :=
    if (exactBPM <? F32.of_Z 60)%f32 then (exactBPM * F32.of_Z 2)%f32
    else if (exactBPM >? F32.of_Z 180)%f32 then (exactBPM / F32.of_Z 2)%f32
    else exactBPM in
  F32.to_int (F32.round exactBPM).

Section Tempo.
(** The iteration order of the hash map is unspecified: it is a
    parameter of the model. *)
Variable bucket_order : list (Z * F32.t) -> list (Z * F32.t).

Definition estimateTempo (beats : list Z) (sampleRate hopSize : Z) : result Z :=
  if vsize beats <? 4 then Ok 0
  else
    let beatTimes := map (beat_time sampleRate hopSize) beats in
    intervals <- collect_intervals beatTimes ;;
    if vsize intervals =? 0 then Ok 0
    else
      tempoHistogram <- build_histogram intervals ;;
      let '(bestBPMKey, maxScore) :=
        strongest (bucket_order tempoHistogram) 0 F32.zero in
      bestBPMKey <- refine tempoHistogram bestBPMKey maxScore (zrange (-3) 4) ;;
      fold_octave bestBPMKey.
End Tempo.

(** The refinement as the specification words it: only the neighbour
    buckets of the winner (offsets -3..+3 other than 0) are candidates
    for the weighted average.  Used to compare with [refine] on the
    offsets the source scans. *)
Definition refine_neighbours_spec (h : list (Z * F32.t)) (bestBPMKey : Z)
  (maxScore : F32.t) : result Z :=
  refine h bestBPMKey maxScore [-3; -2; -1; 1; 2; 3].

(** The interval between beat [i-1] and beat [i], as [estimateTempo]
    computes it, and the test "outside [0.2 s, 2.0 s]". *)
Definition interval_at (sampleRate hopSize : Z) (beats : list Z) (i : Z) : F32.t :=
  (beat_time sampleRate hopSize (nth (Z.to_nat i) beats 0)
   - beat_time sampleRate hopSize (nth (Z.to_nat (i - 1)) beats 0))%f32.

Definition ibi_outside (ibi : F32.t) : bool :=
  negb ((F32.lit 2 10 <=? ibi)%f32 && (ibi <=? F32.of_Z 2)%f32).

(** The inter-beat interval of the specification, in exact arithmetic:
    [(beats[i] - beats[i-1]) * hopSize / sampleRate] seconds lies outside
    [0.2, 2.0].  For a positive [sampleRate], [d / sampleRate < 1/5] is
    [5 * d < sampleRate] and [d / sampleRate > 2] is [2 * sampleRate < d]. *)
Definition exact_interval_outside (sampleRate hopSize : Z) (beats : list Z) (i : Z) : bool :=
  let d := (nth (Z.to_nat i) beats 0 - nth (Z.to_nat (i - 1)) beats 0) * hopSize in
  (5 * d <? sampleRate) || (2 * sampleRate <? d).

End BPM_Detector.

(** ** LoadAudioFunction: the samples handed to the analysis *)

Module LoadAudioFunction.

Definition TARGET_RATE : Z := 22050.

(** [loadAudio] from the point where [decodeToMono] has returned the mono
    samples [audio] and the rate of the file [originalRate] (an
    [unsigned int]); the decoders (dr_wav, dr_flac, minimp3) are outside the
    model.  The result is the vector returned and the value stored in
    [sampleRate]. *)
Definition loadAudio (audio : list F32.t) (originalRate : Z)
  : result (list F32.t * Z) :=
  if TARGET_RATE <? originalRate then
    let factor := to_int (originalRate / TARGET_RATE) in
    if 1 <? factor then
      let n := vsize audio / factor in
      downsampled <-
        for_range 0 n
          (fun i downsampled =>
             sum <- for_range 0 factor
                      (fun j sum =>
                         a <- vget audio (szadd (szmul i factor) j) ;;
                         Ok (sum + a)%f32)
                      F32.zero ;;
             vset downsampled i (sum / F32.of_Z factor)%f32)
          (vmake n F32.zero) ;;
      Ok (downsampled, originalRate / factor)
    else Ok (audio, originalRate)
  else Ok (audio, originalRate).

End LoadAudioFunction.

(** ** AudioAnalyzerBridge: the exported functions

    A pointer argument is an [option]: [None] is the null pointer, [Some v]
    points to an array whose extent is the list [v]; reading or writing
    past the extent is [OutOfBounds]. *)

(** [std::log10(float)] and [std::pow(float, float)], used by the
    spectrogram scaling only. *)
Class LibmSpectrogram : Type := {
  log10f : F32.t -> F32.t;
  powf : F32.t -> F32.t -> F32.t
}.

Module AudioAnalyzerBridge.

(** The three components and the two result globals.  The path and tempo
    globals of [ChangeTempoWithFFT] are not used by the functions below. *)
Record bridge_state : Type := mkBridge {
  g_bpmDetector : bool;
  g_loadAudio : bool;
  g_fftProcessor : bool;
  g_lastDetectedBeats : list Z;
  g_lastBPM : Z
}.

(** What a [catch] clause sees: a thrown exception.  An access out of
    bounds, a signed overflow and an out-of-range conversion are undefined
    behaviour; no handler runs for them. *)
Definition thrown (e : error) : bool :=
  match e with InvalidArgument => true | _ => false end.

(** [try { body } catch (...) { return fallback; }] *)
Definition try_catch {A : Type} (body : result A) (fallback : A) : result A :=
  match body with
  | Ok a => Ok a
  | Err e => if thrown e then Ok fallback else Err e
  end.

(** [static_cast<int16_t>(value)] of an [int]: reduction modulo 2^16. *)
Definition to_int16 (v : Z) : Z := (v + 2 ^ 15) mod 2 ^ 16 - 2 ^ 15.

(** The conversion loop of [saveAudioToFile]: the 16-bit samples handed to
    the WAV writer.  Opening the file and writing the frames (dr_wav) are
    outside the model.  [pcm_sample] is the body of the loop. *)
Definition pcm_sample (s : F32.t) : result Z :=
  let s :=
    if (s >? F32.of_Z 1)%f32 then F32.of_Z 1
    else if (s <? F32.opp (F32.of_Z 1))%f32 then F32.opp (F32.of_Z 1)
    else s in
  value <- F32.to_int (s * F32.of_Z 32767)%f32 ;;
  Ok (to_int16 value).

Definition saveAudioToFile_pcm (audio : list F32.t) : result (list Z) :=
  let totalSamples := vsize audio in
  for_range 0 totalSamples
    (fun i pcm =>
       s <- vget audio i ;;
       v <- pcm_sample s ;;
       vset pcm i v)
    (vmake totalSamples 0).

Section WithLibm.
Context {L : Libm}.
Import FFT_Processor BPM_Detector.

(** The iteration order of the tempo histogram, as in [estimateTempo]. *)
Variable bucket_order : list (Z * F32.t) -> list (Z * F32.t).

(** [AnalyzeFileBPM]; [decoded] is what [decodeToMono] produces for the
    file, [None] when it throws.  The result is the value returned and the
    globals after the call. *)
Definition AnalyzeFileBPM (st : bridge_state) (decoded : option (list F32.t * Z))
  : result (Z * bridge_state) :=
  if negb (g_bpmDetector st) || negb (g_loadAudio st) then Ok (0, st)
  else
    match decoded with
    | None => Ok (0, st)
    | Some (audio, originalRate) =>
        try_catch
          ('(samples, sampleRate) <- LoadAudioFunction.loadAudio audio originalRate ;;
           let hopSize := 512 in
           onsetFunction <- detectOnsets samples sampleRate ;;
           beats <- findBeats onsetFunction (F32.lit 13 10) ;;
           let st := mkBridge (g_bpmDetector st) (g_loadAudio st) (g_fftProcessor st)
                       beats (g_lastBPM st) in
           if vsize beats =? 0 then Ok (0, st)
           else
             bpm <- estimateTempo bucket_order beats sampleRate hopSize ;;
             Ok (bpm, mkBridge (g_bpmDetector st) (g_loadAudio st) (g_fftProcessor st)
                        beats bpm))
          (0, st)
    end.

(** [PerformFFTWithMagnitudes]; [length] is an [unsigned int].  The result
    is the value returned and the contents of [magnitudes] after the call.
    The only exception of the body is thrown by [FFT], before anything is
    written. *)
Definition PerformFFTWithMagnitudes (st : bridge_state) (audioData : option (list F32.t))
  (length : Z) (magnitudes : option (list F32.t))
  : result (bool * option (list F32.t)) :=
  match audioData, magnitudes with
  | Some audio, Some mags =>
      if negb (g_fftProcessor st) || (length =? 0) then Ok (false, magnitudes)
      else if negb (Z.land length (length - 1) =? 0) then Ok (false, magnitudes)
      else
        try_catch
          (complexData <-
             for_range 0 length
               (fun i complexData =>
                  a <- vget audio i ;;
                  vset complexData i (mkC a F32.zero))
               (vmake length C32.zero) ;;
           complexData <- FFT complexData ;;
           let numMagnitudes := length / 2 + 1 in
           mags <-
             for_range 0 numMagnitudes
               (fun i mags =>
                  c <- vget complexData i ;;
                  vset mags i (C32.abs c))
               mags ;;
           Ok (true, Some mags))
          (false, magnitudes)
  | _, _ => Ok (false, magnitudes)
  end.

End WithLibm.

Section Spectrogram.
Context {M : LibmSpectrogram}.

(** [std::sort] on floats.  On data without a NaN it returns the sorted
    permutation; with a NaN [operator<] is not a strict weak order and the
    result is unspecified.  It is a parameter of the model. *)
Variable std_sort : list F32.t -> list F32.t.

(** [ProcessSpectrogram]; [width] and [height] are [unsigned int], and so
    is their product.  The result is the value returned and the contents
    of [processedData] after the call.  Nothing in the body throws. *)
Definition ProcessSpectrogram (spectrogramData : option (list F32.t)) (width height : Z)
  (processedData : option (list F32.t)) (dynamicRangeDb gamma : F32.t)
  : result (bool * option (list F32.t)) :=
  match spectrogramData, processedData with
  | Some src, Some dst =>
      if (width =? 0) || (height =? 0) then Ok (false, processedData)
      else
        let totalElements := (width * height) mod 2 ^ 32 in
        (* Step 1: logarithmic scaling; 1e-10f is 1/10^10, and 10^10 is a float *)
        dst <- for_range 0 totalElements
                 (fun i dst =>
                    s <- vget src i ;;
                    vset dst i
                      (log10f (s + F32.div (F32.of_Z 1) (F32.of_Z 10000000000))%f32))
                 dst ;;
        (* Step 2: percentiles *)
        let sortedData := std_sort (firstn (Z.to_nat totalElements) dst) in
        p1Index <- F32.to_u32 (F32.of_Z totalElements * F32.lit 1 100)%f32 ;;
        p99Index <- F32.to_u32 (F32.of_Z totalElements * F32.lit 99 100)%f32 ;;
        p1 <- vget sortedData p1Index ;;
        p99 <- vget sortedData p99Index ;;
        (* Step 3: dynamic range compression *)
        let rangeMin := (p99 - dynamicRangeDb / F32.of_Z 10)%f32 in
        let rangeMax := p99 in
        let range := (rangeMax - rangeMin)%f32 in
        let range :=
          if (range <? F32.lit 1 1000000)%f32 then F32.lit 1 1000000 else range in
        dst <- for_range 0 totalElements
                 (fun i dst =>
                    x <- vget dst i ;;
                    let clipped := F32.max rangeMin (F32.min x rangeMax) in
                    vset dst i ((clipped - rangeMin) / range)%f32)
                 dst ;;
        (* Step 4: gamma correction *)
        dst <- for_range 0 totalElements
                 (fun i dst =>
                    x <- vget dst i ;;
                    vset dst i (powf x gamma))
                 dst ;;
        (* Step 5: scale to 0..255 *)
        dst <- for_range 0 totalElements
                 (fun i dst =>
                    x <- vget dst i ;;
                    vset dst i
                      (F32.max F32.zero (F32.min (F32.of_Z 255) (x * F32.of_Z 255)%f32)))
                 dst ;;
        Ok (true, Some dst)
  | _, _ => Ok (false, processedData)
  end.

End Spectrogram.

End AudioAnalyzerBridge.

(** ** Inputs used in the closed examples *)

(** A math library for closed examples: the values the C standard (Annex F)
    fixes at zero, and NaN everywhere else.  Every theorem below is proved
    for an arbitrary [Libm]; this one only instantiates examples. *)
Definition libm_at_zero : Libm := {|
  cosf := fun x => match x with S754_zero _ => F32.of_Z 1 | _ => F32.nan end;
  sinf := fun x => match x with S754_zero _ => x | _ => F32.nan end;
  cos := fun x => match x with S754_zero _ => F64.of_Z 1 | _ => S754_nan end;
  atan2f := fun y x =>
    match y, x with
    | S754_zero _, S754_finite false _ _ => y
    | _, _ => F32.nan
    end;
  hypotf := fun x y => match y with S754_zero _ => F32.abs x | _ => F32.nan end
|}.

(** A math library whose cosine is 1 and whose sine is +0 everywhere: its
    values lie between -1 and 1, and [hypotf] of two zeros is +0. *)
Definition libm_unit : Libm := {|
  cosf := fun _ => F32.of_Z 1;
  sinf := fun _ => F32.zero;
  cos := fun _ => F64.of_Z 1;
  atan2f := fun y _ => y;
  hypotf := fun x y => match y with S754_zero _ => F32.abs x | _ => F32.nan end
|}.

(** The same for the spectrogram scaling: [log10f(1) = +0] and
    [powf(x, 0) = 1], NaN everywhere else. *)
Definition libm_spectrogram_example : LibmSpectrogram := {|
  log10f := fun x =>
    match SFcompare x (F32.of_Z 1) with Some Eq => F32.zero | _ => F32.nan end;
  powf := fun x y => match y with S754_zero _ => F32.of_Z 1 | _ => F32.nan end
|}.

(** The shape of a vector: its elements forgotten. *)
Definition unit_arith : FFTArith unit := {|
  fa_zero := tt;
  fa_add := fun _ _ => tt;
  fa_sub := fun _ _ => tt;
  fa_mul := fun _ _ => tt;
  fa_conj := fun _ => tt;
  fa_unscale := fun _ _ => tt;
  fa_twiddle := fun _ _ => tt
|}.

(** Six beats at 1 kHz frame rate: three intervals of 0.5 s (120 BPM, bucket
    240) followed by two of 0.493 s (121.7 BPM, bucket 243). *)
Definition tempo_beats : list Z := [0; 500; 1000; 1500; 1993; 2486].

(** A flat onset envelope: 40 frames, all 0.3f. *)
Definition flat_envelope : list F32.t := repeat (F32.lit 3 10) 40.

(** Four beats 500 s into a recording, at 44.1 kHz with a hop of one
    sample: consecutive beats are 8819 samples (0.19998 s) apart. *)
Definition late_beats : list Z := [22050000; 22058819; 22067638; 22076457].

(* ===================================================================== *)
(** * Part II: lemmas and theorems                                         *)
(* ===================================================================== *)

(** ** The error monad and loops *)

Lemma bind_ok {A B : Type} (m : result A) (k : A -> result B) (b : B) :
  bind m k = Ok b -> exists a, m = Ok a /\ k a = Ok b.
Proof.
  destruct m as [a|e]; simpl; intros H; [exists a; auto | discriminate].
Qed.

Lemma for_loop_app {St : Type} (body : Z -> St -> result St) (n m : nat) (i : Z) (s : St) :
  for_loop body (n + m) i s =
  (s' <- for_loop body n i s ;; for_loop body m (i + Z.of_nat n) s').
Proof.
  revert i s; induction n as [|n IH]; intros i s.
  - simpl. now rewrite Z.add_0_r.
  - cbn [Nat.add for_loop]. destruct (body i s) as [s0|e]; simpl; [|reflexivity].
    rewrite IH. replace (i + 1 + Z.of_nat n) with (i + Z.of_nat (S n)) by lia.
    reflexivity.
Qed.

Lemma loop_pos_for_loop {St : Type} (body : Z -> St -> result St) (p : positive) (i : Z) (s : St) :
  loop_pos body p i s =
  (s' <- for_loop body (Pos.to_nat p) i s ;; Ok (i + Zpos p, s')).
Proof.
  revert i s; induction p as [p IH|p IH|]; intros i s.
  - cbn [loop_pos].
    replace (Pos.to_nat p~1) with (1 + (Pos.to_nat p + Pos.to_nat p))%nat by lia.
    cbn [Nat.add for_loop]. destruct (body i s) as [s0|e]; simpl; [|reflexivity].
    rewrite for_loop_app, IH.
    destruct (for_loop body (Pos.to_nat p) (i + 1) s0) as [s1|e]; simpl; [|reflexivity].
    rewrite IH. rewrite positive_nat_Z.
    destruct (for_loop body (Pos.to_nat p) (i + 1 + Z.pos p) s1); simpl; [|reflexivity].
    f_equal. f_equal. lia.
  - cbn [loop_pos].
    replace (Pos.to_nat p~0) with (Pos.to_nat p + Pos.to_nat p)%nat by lia.
    rewrite for_loop_app, IH.
    destruct (for_loop body (Pos.to_nat p) i s) as [s1|e]; simpl; [|reflexivity].
    rewrite IH. rewrite positive_nat_Z.
    destruct (for_loop body (Pos.to_nat p) (i + Z.pos p) s1); simpl; [|reflexivity].
    f_equal. f_equal. lia.
  - change (Pos.to_nat 1) with 1%nat. cbn [loop_pos for_loop].
    destruct (body i s); reflexivity.
Qed.

(** [for_range] is the counted loop. *)
Lemma for_range_for_loop {St : Type} (lo hi : Z) (body : Z -> St -> result St) (s : St) :
  for_range lo hi body s = for_loop body (Z.to_nat (hi - lo)) lo s.
Proof.
  unfold for_range. destruct (hi - lo) as [|p|p]; try reflexivity.
  rewrite loop_pos_for_loop. cbn [Z.to_nat].
  destruct (for_loop body (Pos.to_nat p) lo s); reflexivity.
Qed.

(** The invariant rule: [P] holds of the state before iteration [k]; an
    iteration either keeps it or fails with an error in [E]. *)
Lemma for_loop_rule {St : Type} (P : Z -> St -> Prop) (E : error -> Prop)
  (body : Z -> St -> result St) (n : nat) (i : Z) (s : St) :
  P i s ->
  (forall k st, i <= k < i + Z.of_nat n -> P k st ->
     match body k st with Ok st' => P (k + 1) st' | Err e => E e end) ->
  match for_loop body n i s with
  | Ok s' => P (i + Z.of_nat n) s'
  | Err e => E e
  end.
Proof.
  revert i s; induction n as [|n IH]; intros i s HP Hbody.
  - simpl. now rewrite Z.add_0_r.
  - cbn [for_loop]. pose proof (Hbody i s ltac:(lia) HP) as H0.
    destruct (body i s) as [s0|e]; cbn [bind]; [|exact H0].
    replace (i + Z.of_nat (S n)) with (i + 1 + Z.of_nat n) by lia.
    apply IH; [exact H0|]. intros k st Hk. apply Hbody. lia.
Qed.

Lemma for_range_rule {St : Type} (P : Z -> St -> Prop) (E : error -> Prop)
  (lo hi : Z) (body : Z -> St -> result St) (s : St) :
  lo <= hi ->
  P lo s ->
  (forall k st, lo <= k < hi -> P k st ->
     match body k st with Ok st' => P (k + 1) st' | Err e => E e end) ->
  match for_range lo hi body s with
  | Ok s' => P hi s'
  | Err e => E e
  end.
Proof.
  intros Hle HP Hbody. rewrite for_range_for_loop.
  pose proof (for_loop_rule P E body (Z.to_nat (hi - lo)) lo s HP) as H.
  replace (lo + Z.of_nat (Z.to_nat (hi - lo))) with hi in H by lia.
  apply H. intros k st Hk. apply Hbody. lia.
Qed.

(** ** Vectors *)

Lemma vget_ok {A : Type} (v : list A) (i : Z) :
  0 <= i < vsize v -> exists a, vget v i = Ok a /\ nth_error v (Z.to_nat i) = Some a.
Proof.
  intros Hi. unfold vget.
  replace ((0 <=? i) && (i <? vsize v)) with true by (symmetry; apply andb_true_iff; lia).
  destruct (nth_error v (Z.to_nat i)) as [a|] eqn:E; [exists a; auto|].
  apply nth_error_None in E. unfold vsize in Hi. lia.
Qed.

Lemma vget_oob {A : Type} (v : list A) (i : Z) :
  vsize v <= i -> vget v i = Err OutOfBounds.
Proof.
  intros Hi. unfold vget.
  replace (i <? vsize v) with false by (symmetry; apply Z.ltb_ge; lia).
  now rewrite andb_false_r.
Qed.

Lemma vget_cases {A : Type} (v : list A) (i : Z) :
  (exists a, vget v i = Ok a) \/ vget v i = Err OutOfBounds.
Proof.
  unfold vget. destruct ((0 <=? i) && (i <? vsize v)); [|now right].
  destruct (nth_error v (Z.to_nat i)) as [a|]; [left; now exists a | now right].
Qed.

Lemma list_update_length {A : Type} (v : list A) (n : nat) (a : A) :
  length (list_update v n a) = length v.
Proof.
  revert n; induction v as [|h t IH]; intros [|n]; simpl; auto.
Qed.

Lemma vset_ok {A : Type} (v : list A) (i : Z) (a : A) :
  0 <= i < vsize v -> exists v', vset v i a = Ok v' /\ vsize v' = vsize v.
Proof.
  intros Hi. unfold vset.
  replace ((0 <=? i) && (i <? vsize v)) with true by (symmetry; apply andb_true_iff; lia).
  eexists; split; [reflexivity|]. unfold vsize. now rewrite list_update_length.
Qed.

Lemma vmake_size {A : Type} (n : Z) (a : A) : 0 <= n -> vsize (vmake n a) = n.
Proof. intros Hn. unfold vsize, vmake. rewrite repeat_length. lia. Qed.

Lemma vsize_nonneg {A : Type} (v : list A) : 0 <= vsize v.
Proof. unfold vsize. lia. Qed.

Lemma for_range_inv {St : Type} (P : St -> Prop) (E : error -> Prop)
  (lo hi : Z) (body : Z -> St -> result St) (s : St) :
  P s ->
  (forall k st, lo <= k < hi -> P st ->
     match body k st with Ok st' => P st' | Err e => E e end) ->
  match for_range lo hi body s with
  | Ok s' => P s'
  | Err e => E e
  end.
Proof.
  intros HP Hbody. rewrite for_range_for_loop.
  apply (for_loop_rule (fun _ => P) E body (Z.to_nat (hi - lo)) lo s HP).
  intros k st Hk. apply Hbody. lia.
Qed.

Definition no_error (e : error) : Prop := False.
Definition not_oob (e : error) : Prop := e <> OutOfBounds.

(** ** Machine integers *)

Lemma szsub_nowrap (a b : Z) : 0 <= b <= a -> szsub a b <= a - b.
Proof. intros H. unfold szsub, size_max. apply Z.mod_le; lia. Qed.

Lemma szsub_small (a b : Z) : 0 <= b <= a -> a < size_max -> szsub a b = a - b.
Proof. intros H Ha. unfold szsub. apply Z.mod_small. unfold size_max in *. lia. Qed.

Lemma szsub_wrap (a b : Z) : 0 <= a < b -> b <= size_max -> szsub a b = a - b + size_max.
Proof.
  intros H Hb. unfold szsub, size_max in *.
  rewrite <- (Z.mod_add (a - b) 1 (2 ^ 64)) by lia.
  apply Z.mod_small. lia.
Qed.

Lemma sz_nonneg (a b : Z) : 0 <= szsub a b /\ 0 <= szadd a b /\ 0 <= szmul a b.
Proof.
  unfold szsub, szadd, szmul, size_max.
  repeat split; apply Z.mod_pos_bound; lia.
Qed.

Lemma to_int_le (n : Z) : 0 <= n -> to_int n <= n.
Proof.
  intros Hn. unfold to_int.
  pose proof (Z.mod_le (n + 2 ^ 31) (2 ^ 32) ltac:(lia) ltac:(lia)). lia.
Qed.

Lemma to_int_small (n : Z) : 0 <= n <= int_max -> to_int n = n.
Proof.
  intros Hn. unfold to_int, int_max in *. rewrite Z.mod_small; lia.
Qed.

(** ** findBeats: which index accesses can fail *)

Import BPM_Detector.

Lemma local_stats_total (env : list F32.t) (i : Z) :
  0 <= i -> exists st, local_stats env (vsize env) i = Ok st.
Proof.
  intros Hi. unfold local_stats.
  set (lo := if statsWindow / 2 <? i then szsub i (statsWindow / 2) else 0).
  set (hi := if szadd i (statsWindow / 2) <? vsize env
             then szadd i (statsWindow / 2) else vsize env).
  assert (Hlo : 0 <= lo).
  { subst lo. destruct (statsWindow / 2 <? i); [apply sz_nonneg | lia]. }
  assert (Hhi : hi <= vsize env).
  { subst hi. destruct (Z.ltb_spec (szadd i (statsWindow / 2)) (vsize env)); lia. }
  match goal with |- exists st, for_range lo hi ?b ?s = Ok st =>
    pose proof (for_range_inv (fun _ => True) no_error lo hi b s I) as H end.
  match type of H with ?A -> _ => assert (Hb : A) end.
  { intros k [[sum sumSq] count] Hk _.
    destruct (vget_ok env k ltac:(lia)) as [a [Ha _]]. rewrite Ha. exact I. }
  specialize (H Hb).
  match type of H with match ?r with _ => _ end =>
    destruct r as [st|e]; [exists st; reflexivity | destruct H] end.
Qed.

Lemma adaptive_threshold_total (env : list F32.t) (f : F32.t) :
  exists thr, adaptive_threshold env f = Ok thr /\ vsize thr = vsize env.
Proof.
  unfold adaptive_threshold.
  match goal with |- exists thr, for_range 0 ?n ?b ?s = Ok thr /\ _ =>
    pose proof (for_range_inv (fun thr => vsize thr = vsize env) no_error 0 n b s) as H end.
  match type of H with ?A -> ?B -> _ => assert (Ha : A); [|assert (Hb : B)] end.
  - apply vmake_size, vsize_nonneg.
  - intros k thr Hk Hthr.
    destruct (local_stats_total env k ltac:(lia)) as [st Hst]. rewrite Hst. cbn [bind].
    destruct (vset_ok thr k (threshold_of f st) ltac:(lia)) as [thr' [Hs Hl]].
    rewrite Hs. lia.
  - specialize (H Ha Hb).
    match type of H with match ?r with _ => _ end =>
      destruct r as [thr|e]; [exists thr; auto | destruct H] end.
Qed.

Lemma is_local_max_not_oob (env : list F32.t) (i : Z) (js : list Z) :
  0 <= i < vsize env ->
  match is_local_max env (vsize env) i js with
  | Ok _ => True
  | Err e => not_oob e
  end.
Proof.
  intros Hi. induction js as [|j js IH]; cbn [is_local_max]; [exact I|].
  destruct (j =? 0); [exact IH|].
  unfold int_add. cbv zeta.
  destruct ((int_min <=? to_int i + j) && (to_int i + j <=? int_max));
    cbn [bind]; [|discriminate].
  destruct ((0 <=? to_int i + j) && (to_int i + j <? to_int (vsize env))) eqn:G;
    [|exact IH].
  apply andb_true_iff in G. destruct G as [G1 G2].
  apply Z.leb_le in G1. apply Z.ltb_lt in G2.
  pose proof (to_int_le (vsize env) (vsize_nonneg env)).
  destruct (vget_ok env (to_int i + j) ltac:(lia)) as [a [Ha _]]. rewrite Ha. cbn [bind].
  destruct (vget_ok env i Hi) as [b [Hb _]]. rewrite Hb. cbn [bind].
  destruct (a >? b)%f32; [exact I | exact IH].
Qed.

Lemma is_local_max_total (env : list F32.t) (i : Z) (js : list Z) :
  0 <= i < vsize env ->
  vsize env <= int_max ->
  Forall (fun j => 0 <= i + j <= int_max) js ->
  exists b, is_local_max env (vsize env) i js = Ok b.
Proof.
  intros Hi Hlen Hjs. induction Hjs as [|j js Hj _ IH]; cbn [is_local_max]; [now exists true|].
  destruct (j =? 0); [exact IH|].
  rewrite (to_int_small i) by lia. rewrite (to_int_small (vsize env)) by lia.
  unfold int_add. cbv zeta.
  replace ((int_min <=? i + j) && (i + j <=? int_max)) with true
    by (symmetry; apply andb_true_iff; unfold int_min, int_max in *; lia).
  cbn [bind].
  destruct ((0 <=? i + j) && (i + j <? vsize env)) eqn:G; [|exact IH].
  apply andb_true_iff in G. destruct G as [G1 G2].
  apply Z.leb_le in G1. apply Z.ltb_lt in G2.
  destruct (vget_ok env (i + j) ltac:(lia)) as [a [Ha _]]. rewrite Ha. cbn [bind].
  destruct (vget_ok env i Hi) as [b [Hb _]]. rewrite Hb. cbn [bind].
  destruct (a >? b)%f32; [now exists false | exact IH].
Qed.

Lemma zrange_bounds (lo hi j : Z) : In j (zrange lo hi) <-> lo <= j < hi.
Proof.
  unfold zrange. rewrite in_map_iff. split.
  - intros [k [Hk Hin]]. apply in_seq in Hin. lia.
  - intros Hj. exists (Z.to_nat (j - lo)). split; [lia|]. apply in_seq. lia.
Qed.

Lemma peak_step_not_oob (env thr : list F32.t) (i : Z) (peaks : list Z) :
  0 <= i < vsize env -> vsize thr = vsize env ->
  match peak_step env thr (vsize env) i peaks with
  | Ok _ => True
  | Err e => not_oob e
  end.
Proof.
  intros Hi Hthr. unfold peak_step.
  destruct (vget_ok env i Hi) as [a [Ha _]]. rewrite Ha. cbn [bind].
  destruct (vget_ok thr i ltac:(lia)) as [th [Hth _]]. rewrite Hth. cbn [bind].
  destruct (a <=? th)%f32; [exact I|].
  pose proof (is_local_max_not_oob env i (zrange (- windowSize) (windowSize + 1)) Hi) as H.
  destruct (is_local_max env (vsize env) i (zrange (- windowSize) (windowSize + 1)))
    as [[|]|e]; cbn [bind]; auto.
Qed.

Lemma peak_step_total (env thr : list F32.t) (i : Z) (peaks : list Z) :
  windowSize <= i < vsize env - windowSize -> vsize env <= int_max ->
  vsize thr = vsize env ->
  exists peaks', peak_step env thr (vsize env) i peaks = Ok peaks'.
Proof.
  intros Hi Hlen Hthr. unfold windowSize in Hi. unfold peak_step.
  destruct (vget_ok env i ltac:(lia)) as [a [Ha _]]. rewrite Ha. cbn [bind].
  destruct (vget_ok thr i ltac:(lia)) as [th [Hth _]]. rewrite Hth. cbn [bind].
  destruct (a <=? th)%f32; [now eexists|].
  destruct (is_local_max_total env i (zrange (- windowSize) (windowSize + 1)))
    as [b Hb]; [lia | exact Hlen | |].
  { apply Forall_forall. intros j Hj. apply zrange_bounds in Hj.
    unfold windowSize in Hj. lia. }
  rewrite Hb. cbn [bind]. destruct b; now eexists.
Qed.

Lemma findBeats_not_oob (env : list F32.t) (f : F32.t) :
  windowSize <= vsize env ->
  match findBeats env f with
  | Ok _ => True
  | Err e => not_oob e
  end.
Proof.
  intros Hlen. unfold windowSize in Hlen. unfold findBeats.
  destruct (adaptive_threshold_total env f) as [thr [Hthr Hsz]].
  rewrite Hthr. cbn [bind].
  pose proof (szsub_nowrap (vsize env) windowSize ltac:(unfold windowSize; lia)) as Hhi.
  apply (for_range_inv (fun _ => True) not_oob); [exact I|].
  intros k peaks Hk _.
  pose proof (peak_step_not_oob env thr k peaks ltac:(unfold windowSize in *; lia) Hsz) as H.
  destruct (peak_step env thr (vsize env) k peaks); auto.
Qed.

Lemma findBeats_total (env : list F32.t) (f : F32.t) :
  windowSize <= vsize env <= int_max ->
  exists peaks, findBeats env f = Ok peaks.
Proof.
  intros Hlen. unfold findBeats.
  destruct (adaptive_threshold_total env f) as [thr [Hthr Hsz]].
  rewrite Hthr. cbn [bind].
  pose proof (szsub_nowrap (vsize env) windowSize ltac:(unfold windowSize in *; lia)) as Hhi.
  match goal with |- exists p, for_range ?lo ?hi ?b ?s = Ok p =>
    pose proof (for_range_inv (fun _ => True) no_error lo hi b s I) as H end.
  match type of H with ?A -> _ => assert (Hb : A) end.
  { intros k peaks Hk _.
    destruct (peak_step_total env thr k peaks ltac:(lia) ltac:(lia) Hsz) as [p Hp].
    rewrite Hp. exact I. }
  specialize (H Hb).
  match type of H with match ?r with _ => _ end =>
    destruct r as [p|e]; [exists p; reflexivity | destruct H] end.
Qed.

Lemma findBeats_short (env : list F32.t) (f : F32.t) :
  vsize env < windowSize -> findBeats env f = Err OutOfBounds.
Proof.
  intros Hlen. unfold findBeats.
  destruct (adaptive_threshold_total env f) as [thr [Hthr Hsz]].
  rewrite Hthr. cbn [bind].
  rewrite for_range_for_loop.
  pose proof (vsize_nonneg env) as H0.
  rewrite szsub_wrap by (unfold windowSize, size_max in *; lia).
  unfold windowSize, size_max in *.
  replace (Z.to_nat (vsize env - 9 + 2 ^ 64 - 9))
    with (S (Z.to_nat (vsize env - 9 + 2 ^ 64 - 9 - 1))) by lia.
  cbn [for_loop]. unfold peak_step at 1.
  rewrite vget_oob by lia. reflexivity.
Qed.

(** ** estimateTempo *)

Lemma collect_intervals_none (beatTimes : list F32.t) :
  (forall i, 1 <= i < vsize beatTimes ->
     ibi_ok (nth (Z.to_nat i) beatTimes F32.zero
             - nth (Z.to_nat (i - 1)) beatTimes F32.zero)%f32 = false) ->
  collect_intervals beatTimes = Ok [].
Proof.
  intros Hout. unfold collect_intervals.
  match goal with |- for_range ?lo ?hi ?b ?s = _ =>
    pose proof (for_range_inv (fun l => l = []) no_error lo hi b s eq_refl) as H end.
  match type of H with ?A -> _ => assert (Hb : A) end.
  { intros k l Hk ->.
    destruct (vget_ok beatTimes k ltac:(lia)) as [t1 [H1 N1]]. rewrite H1. cbn [bind].
    destruct (vget_ok beatTimes (k - 1) ltac:(lia)) as [t0 [H0 N0]]. rewrite H0. cbn [bind].
    specialize (Hout k Hk).
    rewrite (nth_error_nth _ _ F32.zero N1), (nth_error_nth _ _ F32.zero N0) in Hout.
    now rewrite Hout. }
  specialize (H Hb).
  destruct (for_range _ _ _ _) as [l|e]; [now subst | destruct H].
Qed.

Lemma ibi_outside_not_ok (ibi : F32.t) : ibi_outside ibi = true -> ibi_ok ibi = false.
Proof.
  unfold ibi_outside, ibi_ok, F32.geb, F32.leb. intros H.
  now apply negb_true_iff in H.
Qed.

Lemma strongest_stable (l : list (Z * F32.t)) (ks : Z) (vs : F32.t) :
  (forall k v, In (k, v) l -> (v >? vs)%f32 = false) ->
  strongest l ks vs = (ks, vs).
Proof.
  induction l as [|[k v] l IH]; intros Hall; cbn [strongest]; [reflexivity|].
  rewrite (Hall k v (or_introl eq_refl)). apply IH.
  intros k' v' Hin. apply (Hall k' v'). now right.
Qed.

(** A bucket that beats every other one is the winner in every visiting
    order. *)
Lemma strongest_dominant (l : list (Z * F32.t)) (ks : Z) (vs : F32.t) :
  In (ks, vs) l ->
  (forall k v, In (k, v) l ->
     (v >? vs)%f32 = false /\ ((k, v) = (ks, vs) \/ (vs >? v)%f32 = true)) ->
  forall k0 v0, (vs >? v0)%f32 = true -> strongest l k0 v0 = (ks, vs).
Proof.
  induction l as [|[k v] l IH]; intros Hin Hall k0 v0 H0; [destruct Hin|].
  cbn [strongest].
  destruct (Hall k v (or_introl eq_refl)) as [Hle [Heq|Hlt]].
  - injection Heq as -> ->. rewrite H0. apply strongest_stable.
    intros k' v' Hin'. apply (Hall k' v'). now right.
  - assert (Hin' : In (ks, vs) l).
    { destruct Hin as [Heq|Hin]; [|exact Hin].
      injection Heq as -> ->. rewrite Hle in Hlt. discriminate. }
    assert (Hall' : forall k' v', In (k', v') l ->
      (v' >? vs)%f32 = false /\ ((k', v') = (ks, vs) \/ (vs >? v')%f32 = true)).
    { intros k' v' H. apply Hall. now right. }
    destruct (v >? v0)%f32; apply IH; auto.
Qed.

(** The scan never gets past offset 0: the winner's own bucket holds
    [maxScore], which exceeds 0.92 * maxScore, so offsets +1..+3 are never
    examined. *)
Lemma refine_stops_at_winner (h : list (Z * F32.t)) (bestBPMKey : Z) (maxScore : F32.t) :
  int_min + 3 <= bestBPMKey <= int_max ->
  hist_find h bestBPMKey = Some maxScore ->
  (maxScore >? F32.lit 92 100 * maxScore)%f32 = true ->
  refine h bestBPMKey maxScore (zrange (-3) 4) =
  refine h bestBPMKey maxScore [-3; -2; -1; 0].
Proof.
  intros Hr Hf Hgt.
  change (zrange (-3) 4) with [-3; -2; -1; 0; 1; 2; 3].
  assert (Hadd : forall o, -3 <= o <= 0 -> int_add bestBPMKey o = Ok (bestBPMKey + o)).
  { intros o Ho. unfold int_add. cbv zeta.
    replace ((int_min <=? bestBPMKey + o) && (bestBPMKey + o <=? int_max)) with true;
      [reflexivity|]. symmetry. apply andb_true_iff. lia. }
  cbn [refine]. rewrite !Hadd by lia. cbn [bind].
  rewrite Z.add_0_r, Hf, Hgt.
  repeat match goal with
  | |- context [hist_find h ?k] =>
      lazymatch k with
      | bestBPMKey => fail
      | _ => destruct (hist_find h k) as [w|]
      end
  | |- context [(?w >? ?m)%f32] =>
      lazymatch w with
      | maxScore => fail
      | _ => destruct (w >? m)%f32
      end
  end; reflexivity.
Qed.

(** C4 (counterexample).  The intervals the code filters are not the exact
    differences of index * hop / sampleRate: each time is rounded to
    single precision before the subtraction.  On [late_beats] every exact
    interval is 8819 / 44100 s, below 0.2 s, yet the first difference of
    the rounded times is 0.20001 s; it passes the filter and
    [estimateTempo] returns 150, for every iteration order of the hash
    map. *)
Lemma estimateTempo_exact_intervals_outside :
  (forall i, 1 <= i < vsize late_beats ->
     exact_interval_outside 44100 1 late_beats i = true)
  /\ (forall order : list (Z * F32.t) -> list (Z * F32.t),
        (forall h, Permutation h (order h)) ->
        estimateTempo order late_beats 44100 1 = Ok 150).
Proof.
  split.
  - intros i Hi. change (vsize late_beats) with 4 in Hi.
    assert (H : i = 1 \/ i = 2 \/ i = 3) by lia.
    destruct H as [->|[->| ->]]; reflexivity.
  - intros order Hperm.
    pose (h0 := [(299, S754_finite false 13421773 (-25));
                 (199, S754_finite false 8388608 (-25))] : list (Z * F32.t)).
    pose (m0 := S754_finite false 13421773 (-25) : F32.t).
    assert (Hc : collect_intervals (map (beat_time 44100 1) late_beats)
                 = Ok [S754_finite false 13422592 (-26)]) by (vm_compute; reflexivity).
    assert (Hh : build_histogram [S754_finite false 13422592 (-26)] = Ok h0)
      by (vm_compute; reflexivity).
    assert (Hs : strongest (order h0) 0 F32.zero = (299, m0)).
    { apply strongest_dominant.
      - apply (Permutation_in _ (Hperm h0)). left. reflexivity.
      - intros k v Hin. apply (Permutation_in _ (Permutation_sym (Hperm h0))) in Hin.
        destruct Hin as [H|[H|[]]]; injection H as <- <-;
          (split; [vm_compute; reflexivity|]);
          first [left; reflexivity | right; vm_compute; reflexivity].
      - vm_compute; reflexivity. }
    unfold estimateTempo.
    change (vsize late_beats <? 4) with false. cbv iota.
    rewrite Hc. cbn [bind].
    change (vsize [S754_finite false 13422592 (-26)] =? 0) with false. cbv iota.
    rewrite Hh. cbn [bind]. rewrite Hs.
    vm_compute. reflexivity.
Qed.

(** C4 (amended).  [estimateTempo] returns 0 when the beat list has fewer
    than 4 beats, and also when every consecutive inter-beat interval as
    the code computes it (the single-precision difference of the
    single-precision times float(index * hop) / float(sampleRate) of
    neighbouring beats) fails the test 0.2f <= ibi <= 2.0f. *)
Theorem estimateTempo_insufficient_data
  (order : list (Z * F32.t) -> list (Z * F32.t)) (beats : list Z) (sampleRate hopSize : Z) :
  vsize beats < 4 \/
  (forall i, 1 <= i < vsize beats ->
     ibi_outside (interval_at sampleRate hopSize beats i) = true) ->
  estimateTempo order beats sampleRate hopSize = Ok 0.
Proof.
  intros [Hfew|Hout]; unfold estimateTempo.
  - apply Z.ltb_lt in Hfew. now rewrite Hfew.
  - destruct (vsize beats <? 4); [reflexivity|].
    rewrite collect_intervals_none; [reflexivity|].
    unfold vsize. rewrite length_map. intros i Hi.
    apply ibi_outside_not_ok.
    set (f := beat_time sampleRate hopSize).
    rewrite (nth_indep _ F32.zero (f 0)) by (rewrite length_map; unfold vsize in Hi; lia).
    rewrite (nth_indep _ F32.zero (f 0)) by (rewrite length_map; unfold vsize in Hi; lia).
    rewrite !map_nth. apply (Hout i Hi).
Qed.

Lemma estimateTempo_insufficient_data_witness :
  estimateTempo (fun h => h) [] 44100 512 = Ok 0 /\
  estimateTempo (fun h => h) [0; 1; 2; 3; 4] 44100 512 = Ok 0.
Proof.
  split; apply estimateTempo_insufficient_data.
  - left. reflexivity.
  - right. intros i Hi. change (vsize [0; 1; 2; 3; 4]) with 5 in Hi.
    assert (H : i = 1 \/ i = 2 \/ i = 3 \/ i = 4) by lia.
    destruct H as [->|[->|[->| ->]]]; vm_compute; reflexivity.
Defined.

(** C8 (evaluation at the failing input).  On [tempo_beats] the winner is
    bucket 240, its neighbour at offset +3 (bucket 243) holds more than
    0.92 * max and no bucket lies at offsets -3..-1; the source's scan
    stops at offset 0, on the winner itself, and keeps 240 (120 BPM),
    whereas the average with the first neighbour over the threshold gives
    bucket 241 (121 BPM).  This holds for every iteration order of the hash
    map. *)
Theorem refine_never_reaches_upper_neighbours
  (order : list (Z * F32.t) -> list (Z * F32.t)) :
  (forall h, Permutation h (order h)) ->
  exists h m w,
    (ivs <- collect_intervals (map (beat_time 1000 1) tempo_beats) ;;
     build_histogram ivs) = Ok h
    /\ strongest (order h) 0 F32.zero = (240, m)
    /\ hist_find h 243 = Some w
    /\ (w >? F32.lit 92 100 * m)%f32 = true
    /\ hist_find h 237 = None /\ hist_find h 238 = None /\ hist_find h 239 = None
    /\ refine h 240 m (zrange (-3) 4) = Ok 240
    /\ refine_neighbours_spec h 240 m = Ok 241
    /\ estimateTempo order tempo_beats 1000 1 = Ok 120
    /\ fold_octave 241 = Ok 121.
Proof.
  intros Hperm.
  pose (h0 := [(240, S754_finite false 15099494 (-23));
               (120, S754_finite false 12079596 (-23));
               (243, S754_finite false 14260634 (-23));
               (121, S754_finite false 11408507 (-23))] : list (Z * F32.t)).
  pose (m0 := S754_finite false 15099494 (-23) : F32.t).
  assert (Hh : (ivs <- collect_intervals (map (beat_time 1000 1) tempo_beats) ;;
                build_histogram ivs) = Ok h0) by (vm_compute; reflexivity).
  assert (Hs : strongest (order h0) 0 F32.zero = (240, m0)).
  { apply strongest_dominant.
    - apply (Permutation_in _ (Hperm h0)). left. reflexivity.
    - intros k v Hin. apply (Permutation_in _ (Permutation_sym (Hperm h0))) in Hin.
      destruct Hin as [H|[H|[H|[H|[]]]]]; injection H as <- <-;
        (split; [vm_compute; reflexivity|]);
        first [left; reflexivity | right; vm_compute; reflexivity].
    - vm_compute; reflexivity. }
  exists h0, m0, (S754_finite false 14260634 (-23)).
  split; [exact Hh|]. split; [exact Hs|].
  do 7 (split; [vm_compute; reflexivity|]).
  split; [|vm_compute; reflexivity].
  unfold estimateTempo.
  change (vsize tempo_beats <? 4) with false. cbv iota.
  destruct (collect_intervals (map (beat_time 1000 1) tempo_beats)) as [ivs|e] eqn:Hc;
    [|vm_compute in Hc; discriminate].
  cbn [bind] in Hh |- *.
  assert (Hn : (vsize ivs =? 0) = false).
  { vm_compute in Hc. injection Hc as <-. reflexivity. }
  rewrite Hn, Hh. cbn [bind]. rewrite Hs.
  vm_compute. reflexivity.
Qed.

Lemma refine_never_reaches_upper_neighbours_witness :
  exists h m w,
    (ivs <- collect_intervals (map (beat_time 1000 1) tempo_beats) ;;
     build_histogram ivs) = Ok h
    /\ strongest ((fun l => l) h) 0 F32.zero = (240, m)
    /\ hist_find h 243 = Some w
    /\ (w >? F32.lit 92 100 * m)%f32 = true
    /\ hist_find h 237 = None /\ hist_find h 238 = None /\ hist_find h 239 = None
    /\ refine h 240 m (zrange (-3) 4) = Ok 240
    /\ refine_neighbours_spec h 240 m = Ok 241
    /\ estimateTempo (fun l => l) tempo_beats 1000 1 = Ok 120
    /\ fold_octave 241 = Ok 121.
Proof.
  apply (refine_never_reaches_upper_neighbours (fun l => l)).
  intros h. apply Permutation_refl.
Defined.

(** C7 (evaluation at the failing input).  On a flat envelope of 40 frames
    at 0.3f no frame strictly exceeds its threshold, yet [findBeats]
    reports the frames 9..30: for a full window the variance computed in
    single precision is negative, its square root is NaN, and a NaN
    threshold fails the test [onsetFunction[i] <= threshold[i]] that is
    meant to discard the frame. *)
Theorem findBeats_flat_envelope :
  findBeats flat_envelope (F32.lit 13 10) = Ok (zrange 9 31) /\
  exists threshold,
    adaptive_threshold flat_envelope (F32.lit 13 10) = Ok threshold /\
    Forall2 (fun a th => (a >? th)%f32 = false) flat_envelope threshold /\
    vget threshold 20 = Ok F32.nan.
Proof.
  split; [vm_compute; reflexivity|].
  destruct (adaptive_threshold flat_envelope (F32.lit 13 10)) as [thr|e] eqn:H;
    vm_compute in H; [|discriminate].
  injection H as <-. eexists; split; [reflexivity|].
  split; [|vm_compute; reflexivity].
  unfold flat_envelope. cbn [repeat].
  repeat (constructor; [vm_compute; reflexivity|]). constructor.
Qed.

(** ** The power-of-two test [(N & (N - 1)) != 0] *)

Definition is_pow2 (n : Z) : Prop := exists k, 0 <= k /\ n = 2 ^ k.

Lemma land_pred_pow2 (k : Z) : 0 <= k -> Z.land (2 ^ k) (2 ^ k - 1) = 0.
Proof.
  intros Hk. replace (2 ^ k - 1) with (Z.ones k) by (rewrite Z.ones_equiv; lia).
  rewrite Z.land_ones by lia. apply Z.mod_same. apply Z.pow_nonzero; lia.
Qed.

Lemma land_pred_not_pow2 (n : Z) : 1 < n -> ~ is_pow2 n -> Z.land n (n - 1) <> 0.
Proof.
  intros Hn Hnp Hland.
  pose proof (Z.log2_spec n ltac:(lia)) as [Hlo Hhi].
  pose proof (Z.log2_nonneg n) as Hk.
  assert (Hne : n <> 2 ^ Z.log2 n) by (intros E; apply Hnp; exists (Z.log2 n); auto).
  assert (Hl : Z.log2 (n - 1) = Z.log2 n) by (apply Z.log2_unique; lia).
  assert (Hb : Z.testbit (Z.land n (n - 1)) (Z.log2 n) = true).
  { assert (H1 : Z.testbit (n - 1) (Z.log2 n) = true)
      by (rewrite <- Hl; apply Z.bit_log2; lia).
    rewrite Z.land_spec, H1, Z.bit_log2 by lia. reflexivity. }
  rewrite Hland, Z.bits_0 in Hb. discriminate.
Qed.

(** ** FFT and IFFT: the guard clauses *)

Import FFT_Processor.

Section TransformGuards.
Context {C : Type} {A : FFTArith C}.

Lemma FFT_small (x : list C) : vsize x <= 1 -> FFT x = Ok x.
Proof. intros H. unfold FFT. apply Z.leb_le in H. now rewrite H. Qed.

Lemma IFFT_small (x : list C) : vsize x <= 1 -> IFFT x = Ok x.
Proof. intros H. unfold IFFT. apply Z.leb_le in H. now rewrite H. Qed.

Lemma FFT_not_pow2 (x : list C) :
  1 < vsize x -> ~ is_pow2 (vsize x) -> FFT x = Err InvalidArgument.
Proof.
  intros H1 Hnp. unfold FFT.
  replace (vsize x <=? 1) with false by (symmetry; apply Z.leb_gt; lia).
  pose proof (land_pred_not_pow2 (vsize x) H1 Hnp) as Hl.
  apply Z.eqb_neq in Hl. now rewrite Hl.
Qed.

Lemma IFFT_not_pow2 (x : list C) :
  1 < vsize x -> ~ is_pow2 (vsize x) -> IFFT x = Err InvalidArgument.
Proof.
  intros H1 Hnp. unfold IFFT.
  replace (vsize x <=? 1) with false by (symmetry; apply Z.leb_gt; lia).
  pose proof (land_pred_not_pow2 (vsize x) H1 Hnp) as Hl.
  apply Z.eqb_neq in Hl. now rewrite Hl.
Qed.
End TransformGuards.

(** C5. For a complex sequence of length N > 1 that is not a power of
    two, FFT and IFFT fail with InvalidArgument; for N <= 1 both return the
    sequence unchanged. *)
Theorem transform_length_precondition {L : Libm} (x : list complex) :
  (vsize x <= 1 -> FFT x = Ok x /\ IFFT x = Ok x) /\
  (1 < vsize x -> ~ is_pow2 (vsize x) ->
   FFT x = Err InvalidArgument /\ IFFT x = Err InvalidArgument).
Proof.
  split.
  - intros H. split; [now apply FFT_small | now apply IFFT_small].
  - intros H1 Hnp. split; [now apply FFT_not_pow2 | now apply IFFT_not_pow2].
Qed.

Lemma transform_length_precondition_witness :
  (@FFT _ (@c32_arith libm_at_zero) [C32.zero] = Ok [C32.zero]
   /\ @IFFT _ (@c32_arith libm_at_zero) [C32.zero] = Ok [C32.zero])
  /\ (@FFT _ (@c32_arith libm_at_zero) [C32.zero; C32.zero; C32.zero] = Err InvalidArgument
      /\ @IFFT _ (@c32_arith libm_at_zero) [C32.zero; C32.zero; C32.zero]
         = Err InvalidArgument).
Proof.
  split.
  - apply (proj1 (@transform_length_precondition libm_at_zero [C32.zero])).
    vm_compute. discriminate.
  - apply (proj2 (@transform_length_precondition libm_at_zero [C32.zero; C32.zero; C32.zero])).
    + reflexivity.
    + intros [k [Hk E]]. change (vsize [C32.zero; C32.zero; C32.zero]) with 3 in E.
      assert (k = 0 \/ k = 1 \/ 2 <= k) as [->|[->|H2]] by lia; try discriminate.
      pose proof (Z.pow_le_mono_r 2 2 k ltac:(lia) H2). lia.
Defined.

(** ** hanningWindow *)

Lemma hanningWindow_total {L : Libm} (size : Z) :
  exists w, hanningWindow size = Ok w /\ vsize w = Z.max 0 size.
Proof.
  unfold hanningWindow.
  match goal with |- exists w, for_range 0 ?n ?b ?s = Ok w /\ _ =>
    pose proof (for_range_inv (fun w => vsize w = Z.max 0 size) no_error 0 n b s) as H end.
  match type of H with ?P -> ?Q -> _ => assert (Ha : P); [|assert (Hb : Q)] end.
  - unfold vsize, vmake. rewrite repeat_length. lia.
  - intros k w Hk Hw.
    match goal with |- match vset w k ?v with _ => _ end =>
      destruct (vset_ok w k v ltac:(lia)) as [w' [Hs Hl]] end.
    rewrite Hs. lia.
  - specialize (H Ha Hb).
    destruct (for_range _ _ _ _) as [w|e]; [exists w; auto | destruct H].
Qed.

(** C9 (counterexample).  [hanningWindow(1)] is not rejected: whatever
    the math library, it returns a buffer with one coefficient. *)
Lemma hanningWindow_one_not_rejected :
  ~ (exists L : Libm, @hanningWindow L 1 = Err InvalidArgument).
Proof.
  intros [L H]. destruct (@hanningWindow_total L 1) as [w [Hw _]].
  rewrite Hw in H. discriminate.
Qed.

(** C9 (amended).  [hanningWindow(1)] returns the one-element buffer
    holding float(0.5 * (1 - cos(0/0))): the argument of the cosine is the
    NaN produced by the division by [size - 1 = 0], and the coefficient is
    NaN for every cosine that maps NaN to NaN. *)
Theorem hanningWindow_one {L : Libm} :
  hanningWindow 1 =
    Ok [F64.to_f32 (F64.of_f32 (F32.lit 5 10)
                    * (F64.of_f32 (F32.of_Z 1) - cos S754_nan))%f64]
  /\ (cos S754_nan = S754_nan -> hanningWindow 1 = Ok [F32.nan]).
Proof.
  assert (H : hanningWindow 1 =
    Ok [F64.to_f32 (F64.of_f32 (F32.lit 5 10)
                    * (F64.of_f32 (F32.of_Z 1) - cos S754_nan))%f64]) by reflexivity.
  split; [exact H|]. intros Hnan. rewrite H, Hnan. reflexivity.
Qed.

(** ** timeStretch: the guard clauses *)

(** The guard clauses as the code tests them: [timeStretch(x, f)]
    returns [x] unchanged whenever [x] is empty, or f <= 0, or
    |f - 1| < 0.001, or f < 0.25, or f > 4.0; in particular
    [timeStretch(x, 1.0) = x].  The five tests are comparisons, and all of
    them are false for a NaN. *)
Theorem timeStretch_guards {L : Libm} (x : list F32.t) (f : F32.t) :
  (vsize x = 0
   \/ (f <=? F32.zero)%f32 = true
   \/ (F32.abs (f - F32.of_Z 1) <? F32.lit 1 1000)%f32 = true
   \/ (f <? F32.lit 25 100)%f32 = true
   \/ (f >? F32.of_Z 4)%f32 = true ->
   timeStretch x f = Ok x)
  /\ timeStretch x (F32.of_Z 1) = Ok x.
Proof.
  split.
  - intros H. unfold timeStretch.
    destruct (vsize x =? 0) eqn:E0; [reflexivity|].
    destruct (f <=? F32.zero)%f32 eqn:E1; [reflexivity|]. cbn [orb].
    destruct (F32.abs (f - F32.of_Z 1) <? F32.lit 1 1000)%f32 eqn:E2; [reflexivity|].
    destruct (f <? F32.lit 25 100)%f32 eqn:E3; [reflexivity|].
    destruct (f >? F32.of_Z 4)%f32 eqn:E4; [reflexivity|].
    apply Z.eqb_neq in E0.
    destruct H as [H|[H|[H|[H|H]]]]; solve [contradiction | discriminate].
  - unfold timeStretch. destruct (vsize x =? 0); [reflexivity|].
    change ((F32.of_Z 1 <=? F32.zero)%f32) with false. cbn [orb].
    change ((F32.abs (F32.of_Z 1 - F32.of_Z 1) <? F32.lit 1 1000)%f32) with true.
    reflexivity.
Qed.

Lemma timeStretch_guards_witness :
  @timeStretch libm_at_zero [] (F32.of_Z 2) = Ok []
  /\ @timeStretch libm_at_zero [F32.lit 1 2] (F32.opp (F32.of_Z 1)) = Ok [F32.lit 1 2]
  /\ @timeStretch libm_at_zero [F32.lit 1 2] (F32.lit 10005 10000) = Ok [F32.lit 1 2]
  /\ @timeStretch libm_at_zero [F32.lit 1 2] (F32.lit 2 10) = Ok [F32.lit 1 2]
  /\ @timeStretch libm_at_zero [F32.lit 1 2] (F32.of_Z 5) = Ok [F32.lit 1 2].
Proof.
  pose proof (fun x f => proj1 (@timeStretch_guards libm_at_zero x f)) as G.
  refine (conj (G _ _ _) (conj (G _ _ _) (conj (G _ _ _) (conj (G _ _ _) (G _ _ _)))));
    vm_compute; tauto.
Defined.

(** C2 (evaluation at the failing input).  A NaN factor does not lie in
    [0.25, 4.0], yet [timeStretch] does not return the input: the range
    test [f < 0.25f || f > 4.0f] is false for a NaN, like the two tests
    before it, and the call goes on to convert [analysisHop * f] to
    [unsigned int], which is undefined for a NaN. *)
Theorem timeStretch_nan_not_rejected {L : Libm} :
  (F32.lit 25 100 <=? F32.nan)%f32 && (F32.nan <=? F32.of_Z 4)%f32 = false
  /\ (F32.nan <? F32.lit 25 100)%f32 || (F32.nan >? F32.of_Z 4)%f32 = false
  /\ timeStretch [F32.lit 1 2] F32.nan = Err CastOutOfRange
  /\ timeStretch [F32.lit 1 2] F32.nan <> Ok [F32.lit 1 2].
Proof.
  assert (E : timeStretch [F32.lit 1 2] F32.nan = Err CastOutOfRange).
  { unfold timeStretch.
    change (vsize [F32.lit 1 2] =? 0) with false.
    change ((F32.nan <=? F32.zero)%f32) with false. cbn [orb].
    change ((F32.abs (F32.nan - F32.of_Z 1) <? F32.lit 1 1000)%f32) with false.
    change ((F32.nan <? F32.lit 25 100)%f32) with false.
    change ((F32.nan >? F32.of_Z 4)%f32) with false. cbn [orb].
    unfold stretch. cbv zeta.
    assert (Ec : F32.to_u32 (F32.of_Z analysisHop * F32.nan)%f32 = Err CastOutOfRange)
      by reflexivity.
    rewrite Ec. reflexivity. }
  split; [reflexivity|]. split; [reflexivity|]. split; [exact E|].
  rewrite E. discriminate.
Qed.

(** ** Loops that cannot fail *)

Lemma for_range_total_idx {St : Type} (P : Z -> St -> Prop)
  (lo hi : Z) (body : Z -> St -> result St) (s : St) :
  lo <= hi ->
  P lo s ->
  (forall k st, lo <= k < hi -> P k st -> exists st', body k st = Ok st' /\ P (k + 1) st') ->
  exists s', for_range lo hi body s = Ok s' /\ P hi s'.
Proof.
  intros Hle HP Hbody.
  pose proof (for_range_rule P no_error lo hi body s Hle HP) as H.
  match type of H with ?Q -> _ => assert (Hb : Q) end.
  { intros k st Hk Hst. destruct (Hbody k st Hk Hst) as [st' [E HP']]. now rewrite E. }
  specialize (H Hb).
  destruct (for_range lo hi body s) as [s'|e]; [exists s'; auto | destruct H].
Qed.

Lemma for_range_total {St : Type} (P : St -> Prop)
  (lo hi : Z) (body : Z -> St -> result St) (s : St) :
  P s ->
  (forall k st, lo <= k < hi -> P st -> exists st', body k st = Ok st' /\ P st') ->
  exists s', for_range lo hi body s = Ok s' /\ P s'.
Proof.
  intros HP Hbody.
  pose proof (for_range_inv P no_error lo hi body s HP) as H.
  match type of H with ?Q -> _ => assert (Hb : Q) end.
  { intros k st Hk Hst. destruct (Hbody k st Hk Hst) as [st' [E HP']]. now rewrite E. }
  specialize (H Hb).
  destruct (for_range lo hi body s) as [s'|e]; [exists s'; auto | destruct H].
Qed.

Lemma for_step_total {St : Type} (P : St -> Prop)
  (lo hi step : Z) (body : Z -> St -> result St) (s : St) :
  0 < step ->
  P s ->
  (forall k st, 0 <= k -> lo + k * step < hi -> P st ->
     exists st', body (lo + k * step) st = Ok st' /\ P st') ->
  exists s', for_step lo hi step body s = Ok s' /\ P s'.
Proof.
  intros Hstep HP Hbody. unfold for_step.
  apply for_range_total; [exact HP|].
  intros k st Hk Hst. apply Hbody; [lia | | exact Hst].
  assert (Hq : k + 1 <= (hi - lo + step - 1) / step) by lia.
  assert (Hm : (k + 1) * step <= hi - lo + step - 1).
  { pose proof (Z.mul_div_le (hi - lo + step - 1) step Hstep). nia. }
  nia.
Qed.

(** ** FFT: a transform of power-of-two length cannot fail

    The bit-reversal loop is a counter run backwards: [rho n j] is the
    number of increments that lead from 0 to [j].  The inner [while] exits
    as long as [j] is not the last value of the counter, which it reaches
    only after the last iteration. *)

Fixpoint rho (n : nat) (j : Z) : Z :=
  match n with
  | O => 0
  | S n' =>
      if j <? 2 ^ Z.of_nat n' then 2 * rho n' j
      else 2 * rho n' (j - 2 ^ Z.of_nat n') + 1
  end.

Lemma pow2_S (n : nat) : 2 ^ Z.of_nat (S n) = 2 * 2 ^ Z.of_nat n.
Proof. rewrite Nat2Z.inj_succ, Z.pow_succ_r by lia. reflexivity. Qed.

Lemma pow2_pos (n : Z) : 0 <= n -> 0 < 2 ^ n.
Proof. intros. apply Z.pow_pos_nonneg; lia. Qed.

Lemma rho_top (n : nat) : rho n (2 ^ Z.of_nat n - 1) = 2 ^ Z.of_nat n - 1.
Proof.
  induction n as [|n IH]; [reflexivity|].
  cbn [rho]. rewrite pow2_S.
  pose proof (pow2_pos (Z.of_nat n) ltac:(lia)).
  replace (2 * 2 ^ Z.of_nat n - 1 <? 2 ^ Z.of_nat n) with false
    by (symmetry; apply Z.ltb_ge; lia).
  replace (2 * 2 ^ Z.of_nat n - 1 - 2 ^ Z.of_nat n) with (2 ^ Z.of_nat n - 1) by lia.
  rewrite IH. lia.
Qed.

Lemma shiftr_pow2 (k : nat) : Z.shiftr (2 ^ Z.of_nat (S k)) 1 = 2 ^ Z.of_nat k.
Proof.
  rewrite Z.shiftr_div_pow2 by lia. rewrite pow2_S.
  change (2 ^ 1) with 2. rewrite Z.mul_comm, Z.div_mul; lia.
Qed.

Lemma bitrev_while_spec (k : nat) :
  forall (fuel : nat) (j : Z),
    (k < fuel)%nat ->
    0 <= j < 2 ^ Z.of_nat (S k) ->
    j <> 2 ^ Z.of_nat (S k) - 1 ->
    exists j' bit',
      bitrev_while fuel j (2 ^ Z.of_nat k) = Ok (j', bit')
      /\ 0 <= j' + bit' < 2 ^ Z.of_nat (S k)
      /\ rho (S k) (j' + bit') = rho (S k) j + 1.
Proof.
  induction k as [|k IH]; intros fuel j Hfuel Hj Hne.
  - destruct fuel as [|fuel]; [lia|].
    change (2 ^ Z.of_nat 1) with 2 in *. change (2 ^ Z.of_nat 0) with 1.
    assert (j = 0) by lia. subst j.
    exists 0, 1. repeat split; reflexivity || lia.
  - destruct fuel as [|fuel]; [lia|].
    pose proof (pow2_S (S k)) as E2. pose proof (pow2_S k) as E1.
    pose proof (pow2_pos (Z.of_nat k) ltac:(lia)) as Hp.
    cbn [bitrev_while].
    destruct (Z.leb_spec (2 ^ Z.of_nat (S k)) j) as [Hge|Hlt].
    + rewrite shiftr_pow2.
      destruct (IH fuel (j - 2 ^ Z.of_nat (S k)) ltac:(lia) ltac:(lia) ltac:(lia))
        as [j' [bit' [Hw [Hr Hrho]]]].
      exists j', bit'. split; [exact Hw|]. split; [lia|].
      change (rho (S (S k)) (j' + bit')) with
        (if j' + bit' <? 2 ^ Z.of_nat (S k) then 2 * rho (S k) (j' + bit')
         else 2 * rho (S k) (j' + bit' - 2 ^ Z.of_nat (S k)) + 1).
      change (rho (S (S k)) j) with
        (if j <? 2 ^ Z.of_nat (S k) then 2 * rho (S k) j
         else 2 * rho (S k) (j - 2 ^ Z.of_nat (S k)) + 1).
      replace (j' + bit' <? 2 ^ Z.of_nat (S k)) with true by (symmetry; apply Z.ltb_lt; lia).
      replace (j <? 2 ^ Z.of_nat (S k)) with false by (symmetry; apply Z.ltb_ge; lia).
      lia.
    + exists j, (2 ^ Z.of_nat (S k)). split; [reflexivity|]. split; [lia|].
      change (rho (S (S k)) (j + 2 ^ Z.of_nat (S k))) with
        (if j + 2 ^ Z.of_nat (S k) <? 2 ^ Z.of_nat (S k)
         then 2 * rho (S k) (j + 2 ^ Z.of_nat (S k))
         else 2 * rho (S k) (j + 2 ^ Z.of_nat (S k) - 2 ^ Z.of_nat (S k)) + 1).
      change (rho (S (S k)) j) with
        (if j <? 2 ^ Z.of_nat (S k) then 2 * rho (S k) j
         else 2 * rho (S k) (j - 2 ^ Z.of_nat (S k)) + 1).
      replace (j + 2 ^ Z.of_nat (S k) <? 2 ^ Z.of_nat (S k)) with false
        by (symmetry; apply Z.ltb_ge; lia).
      replace (j <? 2 ^ Z.of_nat (S k)) with true by (symmetry; apply Z.ltb_lt; lia).
      replace (j + 2 ^ Z.of_nat (S k) - 2 ^ Z.of_nat (S k)) with j by lia.
      lia.
Qed.

Section TransformTotal.
Context {C : Type} {A : FFTArith C}.

Lemma vswap_total (x : list C) (i j : Z) :
  0 <= i < vsize x -> 0 <= j < vsize x ->
  exists x', vswap x i j = Ok x' /\ vsize x' = vsize x.
Proof.
  intros Hi Hj. unfold vswap.
  destruct (vget_ok x i Hi) as [a [Ha _]]. rewrite Ha. cbn [bind].
  destruct (vget_ok x j Hj) as [b [Hb _]]. rewrite Hb. cbn [bind].
  destruct (vset_ok x i b Hi) as [x1 [H1 S1]]. rewrite H1. cbn [bind].
  destruct (vset_ok x1 j a ltac:(lia)) as [x2 [H2 S2]]. rewrite H2.
  exists x2. split; [reflexivity | lia].
Qed.

Lemma bit_reverse_total (n : nat) (x : list C) :
  (n < 64)%nat ->
  vsize x = 2 ^ Z.of_nat (S n) ->
  exists x', bit_reverse (vsize x) x = Ok x' /\ vsize x' = vsize x.
Proof.
  intros Hn Hx. unfold bit_reverse. rewrite Hx, shiftr_pow2.
  pose proof (pow2_pos (Z.of_nat (S n)) ltac:(lia)) as Hp.
  match goal with |- exists x', (' _ <- for_range 1 ?N ?b ?s ;; _) = _ /\ _ =>
    destruct (for_range_total_idx
      (fun i (st : Z * list C) =>
         0 <= fst st < N /\ rho (S n) (fst st) = i - 1 /\ vsize (snd st) = N)
      1 N b s) as [[j x'] [Hr [_ [_ Hs]]]] end.
  - pose proof (pow2_S n). pose proof (pow2_pos (Z.of_nat n) ltac:(lia)). lia.
  - cbn [fst snd]. split; [lia|]. split; [|exact Hx].
    cbn [rho]. pose proof (pow2_pos (Z.of_nat n) ltac:(lia)).
    replace (0 <? 2 ^ Z.of_nat n) with true by (symmetry; apply Z.ltb_lt; lia).
    assert (H0 : forall m, rho m 0 = 0).
    { induction m as [|m IHm]; [reflexivity|]. cbn [rho].
      pose proof (pow2_pos (Z.of_nat m) ltac:(lia)).
      replace (0 <? 2 ^ Z.of_nat m) with true by (symmetry; apply Z.ltb_lt; lia). lia. }
    rewrite H0. reflexivity.
  - intros i [j y] Hi [Hj [Hrho Hy]]. cbn [fst snd] in *.
    assert (Hne : j <> 2 ^ Z.of_nat (S n) - 1).
    { intros ->. rewrite rho_top in Hrho. lia. }
    destruct (bitrev_while_spec n 65 j ltac:(lia) Hj Hne) as [j' [bit' [Hw [Hr' Hrho']]]].
    rewrite Hw. cbn [bind].
    destruct (i <? j' + bit') eqn:Elt.
    + destruct (vswap_total y i (j' + bit') ltac:(lia) ltac:(lia)) as [y' [Hsw Hsz]].
      rewrite Hsw. cbn [bind]. eexists; split; [reflexivity|]. cbn [fst snd].
      repeat split; lia.
    + eexists; split; [reflexivity|]. cbn [fst snd]. repeat split; lia.
  - rewrite Hr. cbn [bind]. exists x'. cbn [snd] in Hs. auto.
Qed.

Lemma make_twiddles_total (N : Z) :
  0 <= N -> exists tw, make_twiddles N = Ok tw /\ vsize tw = N / 2.
Proof.
  intros HN. unfold make_twiddles.
  assert (H2 : 0 <= N / 2) by (apply Z.div_pos; lia).
  apply for_range_total; [now apply vmake_size|].
  intros k tw Hk Htw.
  destruct (vset_ok tw k (fa_twiddle N k) ltac:(lia)) as [tw' [Hs Hl]].
  exists tw'. split; [exact Hs | lia].
Qed.

Lemma butterfly_total (tw x : list C) (step half_len i j : Z) :
  0 <= szmul j step < vsize tw ->
  0 <= i + j -> 0 < half_len -> i + j + half_len < vsize x ->
  exists x', butterfly tw step half_len i j x = Ok x' /\ vsize x' = vsize x.
Proof.
  intros Ht H0 Hh Hx. unfold butterfly. cbv zeta.
  destruct (vget_ok tw (szmul j step) Ht) as [t [E _]]. rewrite E. cbn [bind].
  destruct (vget_ok x (i + j + half_len) ltac:(lia)) as [a [Ea _]]. rewrite Ea. cbn [bind].
  destruct (vget_ok x (i + j) ltac:(lia)) as [b [Eb _]]. rewrite Eb. cbn [bind].
  destruct (vset_ok x (i + j + half_len) (fa_sub b (fa_mul a t)) ltac:(lia))
    as [x1 [E1 S1]]. rewrite E1. cbn [bind].
  destruct (vget_ok x1 (i + j) ltac:(lia)) as [b' [Eb' _]]. rewrite Eb'. cbn [bind].
  destruct (vset_ok x1 (i + j) (fa_add b' (fa_mul a t)) ltac:(lia)) as [x2 [E2 S2]].
  exists x2. split; [exact E2 | lia].
Qed.

Lemma stage_total (n s : nat) (tw x : list C) :
  (1 <= s <= n)%nat ->
  vsize x = 2 ^ Z.of_nat n ->
  vsize tw = 2 ^ Z.of_nat n / 2 ->
  exists x', stage (2 ^ Z.of_nat n) tw (2 ^ Z.of_nat s) x = Ok x' /\ vsize x' = vsize x.
Proof.
  intros Hs Hx Htw. unfold stage.
  destruct s as [|s']; [lia|]. destruct n as [|n']; [lia|].
  pose proof (pow2_pos (Z.of_nat s') ltac:(lia)) as Hps.
  pose proof (pow2_pos (Z.of_nat (S n' - S s')) ltac:(lia)) as Hpd.
  pose proof (pow2_S s') as Es. pose proof (pow2_S n') as En.
  assert (Eprod : 2 ^ Z.of_nat (S n') = 2 ^ Z.of_nat (S n' - S s') * 2 ^ Z.of_nat (S s')).
  { rewrite <- Z.pow_add_r by lia. f_equal. lia. }
  set (a := 2 ^ Z.of_nat (S n' - S s')) in *.
  set (h := 2 ^ Z.of_nat s') in *.
  replace (2 ^ Z.of_nat (S s') =? 0) with false by (symmetry; apply Z.eqb_neq; lia).
  assert (Ehalf : 2 ^ Z.of_nat (S s') / 2 = h).
  { rewrite Es, Z.mul_comm, Z.div_mul; lia. }
  assert (Estep : 2 ^ Z.of_nat (S n') / 2 ^ Z.of_nat (S s') = a).
  { rewrite Eprod, Z.div_mul; lia. }
  assert (Etw : vsize tw = a * h).
  { rewrite Htw, Eprod, Es. replace (a * (2 * h)) with (a * h * 2) by lia.
    rewrite Z.div_mul; lia. }
  rewrite Ehalf, Estep.
  apply (for_step_total (fun y => vsize y = vsize x)); [lia | reflexivity |].
  intros k y Hk Hi Hy.
  apply (for_range_total (fun y => vsize y = vsize x)); [exact Hy|].
  intros j z Hj Hz.
  destruct (butterfly_total tw z a h (0 + k * 2 ^ Z.of_nat (S s')) j) as [z' [E Sz]].
  - unfold szmul, size_max.
    pose proof (Z.mod_pos_bound (j * a) (2 ^ 64) ltac:(lia)).
    pose proof (Z.mod_le (j * a) (2 ^ 64) ltac:(nia) ltac:(lia)). nia.
  - nia.
  - lia.
  - rewrite Hz, Hx, Eprod, Es. rewrite Eprod, Es in Hi.
    assert (Hka : k < a) by nia. nia.
  - exists z'. split; [exact E | lia].
Qed.

Lemma stages_total (n : nat) (tw : list C) :
  (n < 63)%nat ->
  vsize tw = 2 ^ Z.of_nat n / 2 ->
  forall (fuel s : nat) (x : list C),
    (1 <= s <= S n)%nat -> (S n - s < fuel)%nat ->
    vsize x = 2 ^ Z.of_nat n ->
    exists x', stages fuel (2 ^ Z.of_nat n) tw (2 ^ Z.of_nat s) x = Ok x'
               /\ vsize x' = vsize x.
Proof.
  intros Hn Htw. induction fuel as [|fuel IH]; intros s x Hs Hfuel Hx; [lia|].
  cbn [stages].
  destruct (Z.leb_spec (2 ^ Z.of_nat s) (2 ^ Z.of_nat n)) as [Hle|Hgt].
  - assert (Hsn : (s <= n)%nat).
    { destruct (Nat.le_gt_cases s n) as [H|H]; [exact H|].
      pose proof (Z.pow_lt_mono_r 2 (Z.of_nat n) (Z.of_nat s) ltac:(lia) ltac:(lia) ltac:(lia)).
      lia. }
    destruct (stage_total n s tw x ltac:(lia) Hx Htw) as [x1 [E1 S1]].
    rewrite E1. cbn [bind].
    assert (Emul : szmul (2 ^ Z.of_nat s) 2 = 2 ^ Z.of_nat (S s)).
    { unfold szmul, size_max. rewrite pow2_S, Z.mul_comm. apply Z.mod_small.
      pose proof (pow2_pos (Z.of_nat s) ltac:(lia)).
      pose proof (Z.pow_le_mono_r 2 (Z.of_nat s) 62 ltac:(lia) ltac:(lia)).
      change (2 ^ 64) with (4 * 2 ^ 62). lia. }
    rewrite Emul.
    destruct (IH (S s) x1 ltac:(lia) ltac:(lia) ltac:(lia)) as [x2 [E2 S2]].
    exists x2. split; [exact E2 | lia].
  - exists x. split; reflexivity.
Qed.

(** A transform of power-of-two length returns a sequence of the same
    length. *)
Lemma FFT_total (x : list C) (n : nat) :
  (n < 63)%nat -> vsize x = 2 ^ Z.of_nat n ->
  exists y, FFT x = Ok y /\ vsize y = vsize x.
Proof.
  intros Hn Hx. unfold FFT. cbv zeta.
  destruct n as [|n].
  { change (2 ^ Z.of_nat 0) with 1 in Hx.
    replace (vsize x <=? 1) with true by (symmetry; apply Z.leb_le; lia).
    exists x. split; reflexivity. }
  pose proof (pow2_S n) as E. pose proof (pow2_pos (Z.of_nat n) ltac:(lia)) as Hp.
  replace (vsize x <=? 1) with false by (symmetry; apply Z.leb_gt; lia).
  assert (Hl : Z.land (vsize x) (vsize x - 1) = 0)
    by (rewrite Hx; apply land_pred_pow2; lia).
  rewrite Hl. cbn [Z.eqb negb].
  destruct (bit_reverse_total n x ltac:(lia) Hx) as [x1 [E1 S1]].
  rewrite E1. cbn [bind].
  destruct (make_twiddles_total (vsize x) ltac:(lia)) as [tw [Et St]].
  rewrite Et. cbn [bind].
  rewrite Hx in St, S1.
  destruct (stages_total (S n) tw Hn St 65 1 x1 ltac:(lia) ltac:(lia) S1) as [x2 [E2 S2]].
  change (2 ^ Z.of_nat 1) with 2 in E2. rewrite <- Hx in E2.
  exists x2. split; [exact E2 | lia].
Qed.

Lemma IFFT_total (x : list C) (n : nat) :
  (n < 63)%nat -> vsize x = 2 ^ Z.of_nat n ->
  exists y, IFFT x = Ok y /\ vsize y = vsize x.
Proof.
  intros Hn Hx. unfold IFFT. cbv zeta.
  destruct n as [|n].
  { change (2 ^ Z.of_nat 0) with 1 in Hx.
    replace (vsize x <=? 1) with true by (symmetry; apply Z.leb_le; lia).
    exists x. split; reflexivity. }
  pose proof (pow2_S n) as E. pose proof (pow2_pos (Z.of_nat n) ltac:(lia)) as Hp.
  replace (vsize x <=? 1) with false by (symmetry; apply Z.leb_gt; lia).
  assert (Hl : Z.land (vsize x) (vsize x - 1) = 0)
    by (rewrite Hx; apply land_pred_pow2; lia).
  rewrite Hl. cbn [Z.eqb negb].
  assert (Hm : vsize (map fa_conj x) = 2 ^ Z.of_nat (S n)).
  { unfold vsize in *. now rewrite length_map. }
  destruct (FFT_total (map fa_conj x) (S n) Hn Hm) as [y [Ey Sy]].
  rewrite Ey. cbn [bind]. eexists. split; [reflexivity|].
  unfold vsize in *. rewrite length_map. lia.
Qed.
End TransformTotal.

(** ** Vectors: what an update changes *)

Lemma vset_size {A : Type} (v v' : list A) (i : Z) (a : A) :
  vset v i a = Ok v' -> vsize v' = vsize v.
Proof.
  unfold vset. destruct ((0 <=? i) && (i <? vsize v)); [|discriminate].
  intros H. injection H as <-. unfold vsize. now rewrite list_update_length.
Qed.

Lemma nth_error_list_update {A : Type} (v : list A) (n m : nat) (a : A) :
  (n < length v)%nat ->
  nth_error (list_update v n a) m = if Nat.eqb m n then Some a else nth_error v m.
Proof.
  revert n m; induction v as [|h t IH]; intros n m Hn; [simpl in Hn; lia|].
  destruct n as [|n]; destruct m as [|m]; cbn [list_update nth_error Nat.eqb]; auto.
  apply IH. simpl in Hn. lia.
Qed.

Lemma vset_get {A : Type} (v : list A) (i : Z) (a : A) :
  0 <= i < vsize v ->
  exists v', vset v i a = Ok v' /\ vsize v' = vsize v /\
    forall j, 0 <= j ->
      nth_error v' (Z.to_nat j) = if j =? i then Some a else nth_error v (Z.to_nat j).
Proof.
  intros Hi. unfold vset.
  replace ((0 <=? i) && (i <? vsize v)) with true by (symmetry; apply andb_true_iff; lia).
  eexists. split; [reflexivity|]. split.
  - unfold vsize. now rewrite list_update_length.
  - intros j Hj. rewrite nth_error_list_update by (unfold vsize in Hi; lia).
    destruct (Z.eqb_spec j i) as [->|Hne].
    + now rewrite Nat.eqb_refl.
    + replace (Z.to_nat j =? Z.to_nat i)%nat with false; [reflexivity|].
      symmetry. apply Nat.eqb_neq. lia.
Qed.

Lemma vsize_map {A B : Type} (f : A -> B) (v : list A) : vsize (map f v) = vsize v.
Proof. unfold vsize. now rewrite length_map. Qed.

(** ** detectOnsets *)

Lemma numFrames_of_long (n : Z) :
  1024 <= n < size_max -> numFrames_of n = (n - 1024) / 512 + 1.
Proof.
  intros Hn. unfold numFrames_of, hopSize, szadd.
  rewrite szsub_small by lia. unfold size_max in *.
  apply Z.mod_small.
  pose proof (Z.div_pos (n - 1024) 512 ltac:(lia) ltac:(lia)).
  pose proof (Z.div_le_upper_bound (n - 1024) 512 (2 ^ 55) ltac:(lia) ltac:(lia)). lia.
Qed.


Lemma insert_sorted_length (x : F32.t) (l : list F32.t) :
  length (insert_sorted x l) = S (length l).
Proof.
  induction l as [|h t IH]; [reflexivity|]. cbn [insert_sorted].
  destruct (x <? h)%f32; cbn [length]; auto.
Qed.

Lemma sort_floats_size (l : list F32.t) : vsize (sort_floats l) = vsize l.
Proof.
  unfold vsize. f_equal. induction l as [|h t IH]; [reflexivity|].
  cbn [sort_floats fold_right]. rewrite insert_sorted_length. cbn [length].
  f_equal. exact IH.
Qed.

Section OnsetTotal.
Context {L : Libm}.

Lemma applyHannWindow_total (buffer : list F32.t) :
  exists b, applyHannWindow buffer = Ok b /\ vsize b = vsize buffer.
Proof.
  unfold applyHannWindow. cbv zeta.
  pose proof (to_int_le (vsize buffer) (vsize_nonneg buffer)) as Hle.
  apply (for_range_total (fun b => vsize b = vsize buffer)); [reflexivity|].
  intros k b Hk Hb.
  destruct (vget_ok b k ltac:(lia)) as [a [Ha _]]. rewrite Ha. cbn [bind].
  match goal with |- exists st', vset b k ?v = _ /\ _ =>
    destruct (vset_ok b k v ltac:(lia)) as [b' [E Sz]] end.
  exists b'. split; [exact E | lia].
Qed.


Lemma fill_buffer_total (samples buffer : list F32.t) (frame windowSize : Z) :
  vsize buffer = windowSize ->
  exists b, fill_buffer samples frame windowSize buffer = Ok b /\ vsize b = windowSize.
Proof.
  intros Hb. unfold fill_buffer.
  apply (for_range_total (fun b => vsize b = windowSize)); [exact Hb|].
  intros k b Hk Hsz.
  assert (Hv : exists v,
    (if szadd (szmul frame hopSize) k <? vsize samples
     then vget samples (szadd (szmul frame hopSize) k) else Ok F32.zero) = Ok v).
  { destruct (Z.ltb_spec (szadd (szmul frame hopSize) k) (vsize samples)) as [Hlt|Hge].
    - pose proof (sz_nonneg (szmul frame hopSize) k) as [_ [H0 _]].
      destruct (vget_ok samples _ (conj H0 Hlt)) as [v [Hv _]]. now exists v.
    - now exists F32.zero. }
  destruct Hv as [v Hv]. cbv zeta. rewrite Hv. cbn [bind].
  destruct (vset_ok b k v ltac:(lia)) as [b' [E Sz]].
  exists b'. split; [exact E | lia].
Qed.


Lemma frame_flux_total (sampleRate windowSize : Z) (fftBuffer : list complex)
  (prevMagnitudes : list F32.t) :
  2 <= windowSize ->
  vsize fftBuffer = windowSize -> vsize prevMagnitudes = windowSize / 2 + 1 ->
  exists flux prev, frame_flux sampleRate windowSize fftBuffer prevMagnitudes = Ok (flux, prev)
    /\ vsize prev = windowSize / 2 + 1.
Proof.
  intros Hw Hf Hp. unfold frame_flux.
  pose proof (Z.div_lt windowSize 2 ltac:(lia) ltac:(lia)) as Hhalf.
  pose proof (Z.div_pos windowSize 2 ltac:(lia) ltac:(lia)) as Hhalf0.
  match goal with |- exists flux prev, for_range 1 ?n ?body ?s = _ /\ _ =>
    destruct (for_range_total
      (fun st : F32.t * list F32.t => vsize (snd st) = windowSize / 2 + 1)
      1 n body s) as [[flux prev] [E Sz]] end.
  - exact Hp.
  - intros k [flux prev] Hk Hsz. cbn [snd] in Hsz. cbv zeta.
    destruct (vget_ok fftBuffer k ltac:(lia)) as [c [Hc _]]. rewrite Hc. cbn [bind].
    destruct (vget_ok prev k ltac:(lia)) as [p [Hpk _]]. rewrite Hpk. cbn [bind].
    destruct (vset_ok prev k (C32.abs c) ltac:(lia)) as [prev' [E Sz]].
    rewrite E. cbn [bind]. eexists. split; [reflexivity|]. cbn [snd]. lia.
  - exists flux, prev. auto.
Qed.

Lemma flux_step_total (samples : list F32.t) (sampleRate windowSize numFrames : Z) (n : nat)
  (frame : Z) (st : list F32.t * list F32.t * list complex * list F32.t) :
  (1 <= n < 63)%nat -> windowSize = 2 ^ Z.of_nat n ->
  0 <= frame < numFrames ->
  (let '(sf, b, fb, pm) := st in
   vsize sf = numFrames /\ vsize b = windowSize /\ vsize fb = windowSize
   /\ vsize pm = windowSize / 2 + 1) ->
  exists st', flux_step samples sampleRate windowSize frame st = Ok st' /\
    (let '(sf, b, fb, pm) := st' in
     vsize sf = numFrames /\ vsize b = windowSize /\ vsize fb = windowSize
     /\ vsize pm = windowSize / 2 + 1).
Proof.
  intros Hn Hw Hframe. destruct st as [[[sf b] fb] pm]. intros [Hsf [Hb [Hfb Hpm]]].
  assert (Hw2 : 2 <= windowSize).
  { rewrite Hw. destruct n as [|n]; [lia|]. rewrite pow2_S.
    pose proof (pow2_pos (Z.of_nat n) ltac:(lia)). lia. }
  unfold flux_step.
  destruct (fill_buffer_total samples b frame windowSize Hb) as [b1 [E1 S1]].
  rewrite E1. cbn [bind].
  destruct (applyHannWindow_total b1) as [b2 [E2 S2]]. rewrite E2. cbn [bind].
  match goal with |- exists st', (x <- for_range 0 ?n ?body ?s ;; _) = _ /\ _ =>
    destruct (for_range_total (fun y : list complex => vsize y = windowSize)
                0 n body s Hfb) as [fb1 [E3 S3]] end.
  { intros k y Hk Hy.
    destruct (vget_ok b2 k ltac:(lia)) as [v [Hv _]]. rewrite Hv. cbn [bind].
    destruct (vset_ok y k (mkC v F32.zero) ltac:(lia)) as [y' [E Sy]].
    exists y'. split; [exact E | lia]. }
  rewrite E3. cbn [bind].
  destruct (FFT_total fb1 n ltac:(lia) ltac:(lia)) as [fb2 [E4 S4]].
  rewrite E4. cbn [bind].
  destruct (frame_flux_total sampleRate windowSize fb2 pm Hw2 ltac:(lia) Hpm)
    as [flux [pm' [E5 S5]]].
  rewrite E5. cbn [bind].
  destruct (vset_ok sf frame flux ltac:(lia)) as [sf' [E6 S6]].
  rewrite E6. cbn [bind]. eexists. split; [reflexivity|].
  repeat split; lia.
Qed.

Lemma spectral_flux_total (samples : list F32.t) (sampleRate numFrames windowSize : Z)
  (n : nat) :
  (1 <= n < 63)%nat -> windowSize = 2 ^ Z.of_nat n -> 0 <= numFrames ->
  exists flux, spectral_flux samples sampleRate numFrames windowSize = Ok flux
               /\ vsize flux = numFrames.
Proof.
  intros Hn Hw Hnf. unfold spectral_flux.
  assert (Hw0 : 0 < windowSize) by (rewrite Hw; apply pow2_pos; lia).
  match goal with |- exists flux, (' _ <- for_range 0 ?m ?body ?s ;; _) = _ /\ _ =>
    destruct (for_range_total
      (fun st : list F32.t * list F32.t * list complex * list F32.t =>
         let '(sf, b, fb, pm) := st in
         vsize sf = numFrames /\ vsize b = windowSize /\ vsize fb = windowSize
         /\ vsize pm = windowSize / 2 + 1)
      0 m body s) as [[[[sf b] fb] pm] [E [Sz _]]] end.
  - pose proof (Z.div_pos windowSize 2 ltac:(lia) ltac:(lia)).
    repeat split; apply vmake_size; lia.
  - intros k st Hk Hst.
    apply (flux_step_total samples sampleRate windowSize numFrames n k st Hn Hw Hk Hst).
  - rewrite E. cbn [bind]. exists sf. auto.
Qed.

Lemma add_normalized_total (numFrames : Z) (spectralFlux onsetStrength : list F32.t) :
  1 <= numFrames -> vsize spectralFlux = numFrames -> vsize onsetStrength = numFrames ->
  exists os, add_normalized numFrames spectralFlux onsetStrength = Ok os
             /\ vsize os = numFrames.
Proof.
  intros Hnf Hsf Hos. unfold add_normalized.
  destruct spectralFlux as [|x rest]; [cbn in Hsf; lia|].
  cbn [max_element bind].
  destruct (_ >? F32.zero)%f32; [|exists onsetStrength; auto].
  apply (for_range_total (fun os => vsize os = numFrames)); [exact Hos|].
  intros k os Hk Hsz.
  destruct (vget_ok os k ltac:(lia)) as [o [Ho _]]. rewrite Ho. cbn [bind].
  destruct (vget_ok (x :: rest) k ltac:(lia)) as [f [Hf _]]. rewrite Hf. cbn [bind].
  match goal with |- exists st', vset os k ?v = _ /\ _ =>
    destruct (vset_ok os k v ltac:(lia)) as [os' [E Sz]] end.
  exists os'. split; [exact E | lia].
Qed.


Lemma median_window_total (onsetStrength window : list F32.t) (i : Z) :
  0 <= i -> i + medianSize <= int_max -> vsize onsetStrength <= int_max ->
  vsize window = medianSize ->
  exists w, median_window onsetStrength i window = Ok w /\ vsize w = medianSize.
Proof.
  intros Hi Hmax Hlen Hw. unfold median_window.
  apply (for_range_total (fun w => vsize w = medianSize)); [exact Hw|].
  intros j w Hj Hsz. unfold medianSize in *.
  rewrite (to_int_small i) by lia.
  rewrite (to_int_small (vsize onsetStrength)) by (pose proof (vsize_nonneg onsetStrength); lia).
  unfold int_add. cbv zeta.
  replace ((int_min <=? i + j) && (i + j <=? int_max)) with true
    by (symmetry; apply andb_true_iff; unfold int_min, int_max in *; lia).
  cbn [bind]. change (- (11 / 2)) with (-5).
  replace ((int_min <=? i + j + -5) && (i + j + -5 <=? int_max)) with true
    by (symmetry; apply andb_true_iff; unfold int_min, int_max in *; lia).
  cbn [bind].
  destruct ((i + j + -5 <? 0) || (i + j + -5 >=? vsize onsetStrength)) eqn:G.
  - destruct (vset_ok w j F32.zero ltac:(lia)) as [w' [E Sz]].
    exists w'. split; [exact E | lia].
  - apply orb_false_iff in G. destruct G as [G1 G2].
    apply Z.ltb_ge in G1. rewrite Z.geb_leb in G2. apply Z.leb_gt in G2.
    destruct (vget_ok onsetStrength (i + j + -5) ltac:(lia)) as [v [Hv _]].
    rewrite Hv. cbn [bind].
    destruct (vset_ok w j v ltac:(lia)) as [w' [E Sz]].
    exists w'. split; [exact E | lia].
Qed.

Lemma median_filter_total (onsetStrength : list F32.t) :
  vsize onsetStrength + medianSize <= int_max ->
  exists mf, median_filter onsetStrength = Ok mf /\ vsize mf = vsize onsetStrength.
Proof.
  intros Hlen. unfold median_filter.
  pose proof (vsize_nonneg onsetStrength) as H0.
  match goal with |- exists mf, (' _ <- for_range 0 ?m ?body ?s ;; _) = _ /\ _ =>
    destruct (for_range_total
      (fun st : list F32.t * list F32.t =>
         vsize (fst st) = vsize onsetStrength /\ vsize (snd st) = medianSize)
      0 m body s) as [[mf w] [E [Sz _]]] end.
  - cbn [fst snd]. split; apply vmake_size; [lia | unfold medianSize; lia].
  - intros k [mf w] Hk [Hmf Hw]. cbn [fst snd] in *.
    destruct (median_window_total onsetStrength w k) as [w1 [E1 S1]];
      [lia | unfold medianSize in *; lia | unfold medianSize in *; lia | exact Hw |].
    rewrite E1. cbn [bind].
    destruct (vget_ok (sort_floats w1) (medianSize / 2)) as [m [Hm _]].
    { rewrite sort_floats_size, S1. unfold medianSize. cbn. lia. }
    rewrite Hm. cbn [bind].
    destruct (vget_ok onsetStrength k ltac:(lia)) as [o [Ho _]]. rewrite Ho. cbn [bind].
    match goal with |- exists st', (x <- vset mf k ?v ;; _) = _ /\ _ =>
      destruct (vset_ok mf k v ltac:(lia)) as [mf' [E Sz]] end.
    rewrite E. cbn [bind]. eexists. split; [reflexivity|]. cbn [fst snd].
    rewrite sort_floats_size. lia.
  - rewrite E. cbn [bind]. exists mf. cbn [fst] in Sz. auto.
Qed.



Lemma detectOnsets_total (samples : list F32.t) (sampleRate : Z) :
  1024 <= vsize samples <= 2 ^ 39 ->
  exists env, detectOnsets samples sampleRate = Ok env
              /\ vsize env = (vsize samples - 1024) / 512 + 1.
Proof.
  intros Hn. unfold detectOnsets. cbv zeta.
  rewrite numFrames_of_long by (unfold size_max; lia).
  set (nf := (vsize samples - 1024) / 512 + 1).
  assert (Hnf : 1 <= nf <= 2 ^ 30).
  { subst nf.
    pose proof (Z.div_pos (vsize samples - 1024) 512 ltac:(lia) ltac:(lia)).
    pose proof (Z.div_le_upper_bound (vsize samples - 1024) 512 (2 ^ 30 - 1)
                  ltac:(lia) ltac:(lia)). lia. }
  destruct (spectral_flux_total samples sampleRate nf 1024 10) as [f1 [E1 S1]];
    [lia | reflexivity | lia |].
  rewrite E1. cbn [bind].
  destruct (add_normalized_total nf f1 (vmake nf F32.zero)) as [os1 [E2 S2]];
    [lia | exact S1 | apply vmake_size; lia |].
  rewrite E2. cbn [bind].
  destruct (spectral_flux_total samples sampleRate nf 2048 11) as [f2 [E3 S3]];
    [lia | reflexivity | lia |].
  rewrite E3. cbn [bind].
  destruct (add_normalized_total nf f2 os1) as [os2 [E4 S4]]; [lia | exact S3 | exact S2 |].
  rewrite E4. cbn [bind].
  destruct (median_filter_total (map (fun val => (val / F32.of_Z 2)%f32) os2))
    as [mf [E5 S5]].
  { rewrite vsize_map, S4. unfold medianSize, int_max. lia. }
  exists mf. split; [exact E5|]. rewrite S5, vsize_map. exact S4.
Qed.
End OnsetTotal.




(** C10.  For an onset envelope with at least 9 elements no index access
    of [findBeats] is out of bounds, and the call returns (envelopes of at
    most INT_MAX frames; beyond that the [int] index arithmetic overflows,
    which is a different failure).  With fewer than 9 elements the unsigned
    bound [length - 9] wraps and the first candidate is read out of bounds;
    this is reachable from [detectOnsets]: 1024 samples give a one-frame
    envelope. *)
Theorem findBeats_index_safety {L : Libm} (env : list F32.t) (thresholdFactor : F32.t) :
  (9 <= vsize env ->
   match findBeats env thresholdFactor with
   | Ok _ => True
   | Err e => e <> OutOfBounds
   end)
  /\ (9 <= vsize env <= int_max -> exists peaks, findBeats env thresholdFactor = Ok peaks)
  /\ (vsize env < 9 -> findBeats env thresholdFactor = Err OutOfBounds)
  /\ (forall samples sampleRate, vsize samples = 1024 ->
      exists e1, detectOnsets samples sampleRate = Ok e1 /\ vsize e1 = 1
                 /\ findBeats e1 thresholdFactor = Err OutOfBounds).
Proof.
  repeat split.
  - intros H. apply findBeats_not_oob. exact H.
  - intros H. apply findBeats_total. exact H.
  - intros H. apply findBeats_short. exact H.
  - intros samples sampleRate Hs.
    destruct (detectOnsets_total samples sampleRate ltac:(lia)) as [e1 [E S]].
    rewrite Hs in S. change ((1024 - 1024) / 512 + 1) with 1 in S.
    exists e1. repeat split; auto. apply findBeats_short. unfold windowSize. lia.
Qed.

Lemma findBeats_index_safety_witness :
  (exists peaks, findBeats flat_envelope (F32.lit 13 10) = Ok peaks)
  /\ findBeats [F32.lit 3 10] (F32.lit 13 10) = Err OutOfBounds.
Proof.
  split.
  - apply (proj1 (proj2 (@findBeats_index_safety libm_at_zero flat_envelope (F32.lit 13 10)))).
    vm_compute. split; discriminate.
  - apply (proj1 (proj2 (proj2
             (@findBeats_index_safety libm_at_zero [F32.lit 3 10] (F32.lit 13 10))))).
    reflexivity.
Defined.

(** ** Binary32 arithmetic on positive finite values

    The value of a finite float with mantissa [m] and exponent [e] is
    [V m e = m * 2^e].  Rounding to nearest is monotone: the result of an
    operation lies between any two floats that enclose its exact value. *)

Definition bpow (e : Z) : R := powerRZ 2 e.
Definition V (m e : Z) : R := (IZR m * bpow e)%R.

Lemma bpow_pos (e : Z) : (0 < bpow e)%R.
Proof. apply powerRZ_lt. lra. Qed.

Lemma bpow_add (a b : Z) : bpow (a + b) = (bpow a * bpow b)%R.
Proof. apply powerRZ_add. lra. Qed.

Lemma bpow_IZR (n : Z) : 0 <= n -> bpow n = IZR (2 ^ n).
Proof.
  intros Hn. unfold bpow. rewrite <- (Z2Nat.id n Hn) at 1.
  rewrite <- pow_powerRZ. rewrite pow_IZR. now rewrite Z2Nat.id.
Qed.

Lemma bpow_le (a b : Z) : a <= b -> (bpow a <= bpow b)%R.
Proof.
  intros H. replace b with (a + (b - a)) by lia. rewrite bpow_add.
  rewrite (bpow_IZR (b - a)) by lia.
  assert (1 <= 2 ^ (b - a)) by (pose proof (Z.pow_pos_nonneg 2 (b - a)); lia).
  apply IZR_le in H0. pose proof (bpow_pos a). nra.
Qed.

Lemma bpow_lt (a b : Z) : a < b -> (bpow a < bpow b)%R.
Proof.
  intros H. replace b with (a + (b - a)) by lia. rewrite bpow_add.
  rewrite (bpow_IZR (b - a)) by lia.
  assert (2 <= 2 ^ (b - a)).
  { replace (b - a) with (Z.succ (b - a - 1)) by lia. rewrite Z.pow_succ_r by lia.
    pose proof (Z.pow_pos_nonneg 2 (b - a - 1)); lia. }
  apply IZR_le in H0. pose proof (bpow_pos a). nra.
Qed.

Lemma V_shift (m e k : Z) : 0 <= k -> V (m * 2 ^ k) e = V m (e + k).
Proof.
  intros Hk. unfold V. rewrite mult_IZR, <- bpow_IZR by lia.
  rewrite bpow_add. ring.
Qed.

Lemma digits2_spec (m : positive) :
  2 ^ (Zpos (digits2_pos m) - 1) <= Zpos m < 2 ^ Zpos (digits2_pos m).
Proof.
  induction m as [m IH|m IH|]; cbn [digits2_pos].
  - rewrite Pos2Z.inj_succ. replace (Z.succ (Z.pos (digits2_pos m)) - 1) with (Z.succ (Z.pos (digits2_pos m) - 1)) by lia.
    rewrite !Z.pow_succ_r by lia. lia.
  - rewrite Pos2Z.inj_succ. replace (Z.succ (Z.pos (digits2_pos m)) - 1) with (Z.succ (Z.pos (digits2_pos m) - 1)) by lia.
    rewrite !Z.pow_succ_r by lia. lia.
  - cbn. lia.
Qed.

(** The number of digits is monotone. *)
Lemma digits2_le (m : positive) (d : Z) : Zpos m < 2 ^ d -> Zpos (digits2_pos m) <= d.
Proof.
  intros H. pose proof (digits2_spec m) as [H1 _].
  destruct (Z.le_gt_cases (Zpos (digits2_pos m)) d) as [|Hgt]; [assumption|].
  pose proof (Z.pow_le_mono_r 2 d (Zpos (digits2_pos m) - 1) ltac:(lia) ltac:(lia)). lia.
Qed.

Lemma digits2_ge (m : positive) (d : Z) : 2 ^ (d - 1) <= Zpos m -> d <= Zpos (digits2_pos m).
Proof.
  intros H. pose proof (digits2_spec m) as [_ H1].
  destruct (Z.le_gt_cases d (Zpos (digits2_pos m))) as [|Hgt]; [assumption|].
  pose proof (Z.pow_le_mono_r 2 (Zpos (digits2_pos m)) (d - 1) ltac:(lia) ltac:(lia)). lia.
Qed.

(** ** Shifting right *)

Lemma shr_1_spec (m : Z) (r s : bool) :
  0 <= m ->
  shr_1 (Build_shr_record m r s) = Build_shr_record (m / 2) (Z.odd m) (r || s).
Proof.
  intros Hm. rewrite <- Z.div2_div.
  destruct m as [|p|p]; [reflexivity | | lia].
  destruct p; reflexivity.
Qed.

Lemma iter_pos_nat {A : Type} (f : A -> A) (p : positive) (x : A) :
  iter_pos f p x = Nat.iter (Pos.to_nat p) f x.
Proof.
  revert x; induction p as [p IH|p IH|]; intros x; cbn [iter_pos].
  - rewrite !IH. rewrite Pos2Nat.inj_xI.
    replace (S (2 * Pos.to_nat p)) with (Pos.to_nat p + (Pos.to_nat p + 1))%nat by lia.
    rewrite !Nat.iter_add. reflexivity.
  - rewrite !IH. rewrite Pos2Nat.inj_xO.
    replace (2 * Pos.to_nat p)%nat with (Pos.to_nat p + Pos.to_nat p)%nat by lia.
    rewrite Nat.iter_add. reflexivity.
  - reflexivity.
Qed.

Lemma iter_shr_1 (k : nat) (m : Z) :
  0 <= m ->
  let r := Nat.iter k shr_1 (Build_shr_record m false false) in
  shr_m r = m / 2 ^ Z.of_nat k
  /\ (shr_r r || shr_s r = false <-> m mod 2 ^ Z.of_nat k = 0).
Proof.
  intros Hm. induction k as [|k IH].
  - cbn. rewrite Z.div_1_r, Z.mod_1_r. tauto.
  - cbv zeta in *. rewrite Nat.iter_succ.
    destruct (Nat.iter k shr_1 _) as [mk rk sk]. cbn [shr_m shr_r shr_s] in *.
    destruct IH as [IH1 IH2].
    assert (Hmk : 0 <= mk) by (rewrite IH1; apply Z.div_pos; [lia | apply Z.pow_pos_nonneg; lia]).
    rewrite (shr_1_spec _ _ _ Hmk). cbn [shr_m shr_r shr_s].
    assert (Hp : 0 < 2 ^ Z.of_nat k) by (apply Z.pow_pos_nonneg; lia).
    rewrite Nat2Z.inj_succ, Z.pow_succ_r by lia.
    rewrite (Z.mul_comm 2).
    split.
    + subst mk. rewrite Z.div_div by lia. reflexivity.
    + rewrite Z.rem_mul_r by lia. rewrite orb_false_iff, IH2.
      rewrite <- Z.negb_even, negb_false_iff, Zeven_bool_iff, Zeven_ex_iff.
      subst mk.
      pose proof (Z.mod_pos_bound m (2 ^ Z.of_nat k) Hp) as B1.
      pose proof (Z.mod_pos_bound (m / 2 ^ Z.of_nat k) 2 ltac:(lia)) as B2.
      split.
      * intros [[q Hq] Hz]. rewrite Hz, Hq.
        replace (2 * q) with (q * 2) by lia. rewrite Z.mod_mul by lia. lia.
      * intros H1. assert (Hz : m mod 2 ^ Z.of_nat k = 0) by nia.
        split; [|assumption]. exists (m / 2 ^ Z.of_nat k / 2).
        pose proof (Z.div_mod (m / 2 ^ Z.of_nat k) 2 ltac:(lia)). nia.
Qed.

Lemma round_nearest_even_cases (m : Z) (r s : bool) :
  let m1 := round_nearest_even m (loc_of_shr_record (Build_shr_record m r s)) in
  (m1 = m \/ (m1 = m + 1 /\ r || s = true)).
Proof.
  destruct r, s; cbn; auto. destruct (Z.even m); auto.
Qed.

(** ** Rounding a positive value to binary32 *)

Definition fexp32 (e : Z) : Z := Z.max (e - 24) (-149).

Lemma fexp_32 (e : Z) : fexp 24 128 e = fexp32 e.
Proof. reflexivity. Qed.

(** The float that holds the integer mantissa [m1] at exponent [g]. *)
Definition norm32 (m1 g : Z) : spec_float :=
  match m1 with
  | Zpos p =>
      if m1 =? 2 ^ 24 then
        if g + 1 <=? 104 then S754_finite false (2 ^ 23) (g + 1) else S754_infinity false
      else if g <=? 104 then S754_finite false p g else S754_infinity false
  | _ => S754_zero false
  end.

Lemma shr_fexp_exact (m : positive) (e : Z) :
  e <= fexp32 (Zpos (digits2_pos m) + e) ->
  let g := fexp32 (Zpos (digits2_pos m) + e) in
  exists r, shr_fexp 24 128 (Zpos m) e loc_Exact = (r, g)
    /\ shr_m r = Zpos m / 2 ^ (g - e)
    /\ (shr_r r || shr_s r = false <-> Zpos m mod 2 ^ (g - e) = 0).
Proof.
  intros Hle g. unfold shr_fexp. rewrite fexp_32. cbn [Zdigits2 shr_record_of_loc].
  fold g. unfold shr.
  destruct (g - e) as [|n|n] eqn:En; [| |lia].
  - exists (Build_shr_record (Zpos m) false false). cbn [shr_m shr_r shr_s].
    replace g with e by lia. rewrite Z.div_1_r, Z.mod_1_r. tauto.
  - rewrite iter_pos_nat.
    pose proof (iter_shr_1 (Pos.to_nat n) (Zpos m) ltac:(lia)) as H. cbv zeta in H.
    rewrite positive_nat_Z in H.
    eexists. split; [|exact H]. f_equal. lia.
Qed.

Lemma bra_spec (m : positive) (e : Z) :
  let d := Zpos (digits2_pos m) in
  let g := fexp32 (d + e) in
  e <= g ->
  exists m1,
    0 <= m1 <= 2 ^ 24
    /\ (m1 - 1) * 2 ^ (g - e) < Zpos m < (m1 + 1) * 2 ^ (g - e)
    /\ (Zpos m mod 2 ^ (g - e) = 0 -> m1 * 2 ^ (g - e) = Zpos m)
    /\ (m1 = 0 \/ m1 = 2 ^ 24 \/ fexp32 (Zdigits2 m1 + g) = g)
    /\ (-149 < g -> 2 ^ 23 <= m1)
    /\ binary_round_aux 24 128 false (Zpos m) e loc_Exact = norm32 m1 g.
Proof.
  intros d g Hle.
  destruct (shr_fexp_exact m e Hle) as [r [Hr [Hq Hex]]]. fold d g in Hr, Hq, Hex.
  pose proof (digits2_spec m) as [Hd1 Hd2]. fold d in Hd1, Hd2.
  set (n := g - e) in *.
  assert (Hn : 0 <= n) by (subst n; lia).
  assert (Hpn : 0 < 2 ^ n) by (apply Z.pow_pos_nonneg; lia).
  set (q := Zpos m / 2 ^ n) in *.
  pose proof (Z.div_mod (Zpos m) (2 ^ n) ltac:(lia)) as Hdm. fold q in Hdm.
  pose proof (Z.mod_pos_bound (Zpos m) (2 ^ n) Hpn) as Hmod.
  assert (Hq0 : 0 <= q) by (subst q; apply Z.div_pos; lia).
  (* the rounded mantissa *)
  set (m1 := round_nearest_even (shr_m r) (loc_of_shr_record r)).
  assert (Hm1 : m1 = q \/ (m1 = q + 1 /\ Zpos m mod 2 ^ n <> 0)).
  { subst m1. destruct r as [mr rr sr]. cbn [shr_m shr_r shr_s] in *.
    destruct (round_nearest_even_cases mr rr sr) as [H|[H Hrs]]; rewrite H, Hq; [now left|].
    right. split; [reflexivity|]. intros Hz. apply Hex in Hz. congruence. }
  (* bounds of q *)
  assert (Hg : g = Z.max (d + e - 24) (-149)) by reflexivity.
  assert (HqA : -149 < g -> 2 ^ 23 <= q < 2 ^ 24).
  { intros HA. assert (n = d - 24) by lia.
    assert (E1 : 2 ^ (d - 1) = 2 ^ n * 2 ^ 23) by (rewrite <- Z.pow_add_r by lia; f_equal; lia).
    assert (E2 : 2 ^ d = 2 ^ n * 2 ^ 24) by (rewrite <- Z.pow_add_r by lia; f_equal; lia).
    split.
    - apply Z.div_le_lower_bound; lia.
    - apply Z.div_lt_upper_bound; lia. }
  assert (HqB : g = -149 -> d + e - 24 < -149 -> q < 2 ^ 23).
  { intros HB1 HB2. apply Z.div_lt_upper_bound; [lia|].
    assert (d <= n + 23) by lia.
    pose proof (Z.pow_le_mono_r 2 d (n + 23) ltac:(lia) ltac:(lia)).
    rewrite Z.pow_add_r in H0 by lia. lia. }
  assert (HqC : q < 2 ^ 24).
  { destruct (Z.eq_dec g (-149)) as [E|E].
    - destruct (Z.lt_ge_cases (d + e - 24) (-149)); [specialize (HqB E H); lia|].
      apply Z.div_lt_upper_bound; [lia|].
      assert (d <= n + 24) by lia.
      pose proof (Z.pow_le_mono_r 2 d (n + 24) ltac:(lia) ltac:(lia)).
      rewrite Z.pow_add_r in H1 by lia. lia.
    - apply HqA. lia. }
  exists m1. split; [lia|]. split; [destruct Hm1 as [->|[-> Hnz]]; nia|].
  split; [intros Hz; destruct Hm1 as [->|[-> Hnz]]; [nia | contradiction]|].
  (* digits of the rounded mantissa *)
  assert (Hcan : m1 = 0 \/ m1 = 2 ^ 24 \/ fexp32 (Zdigits2 m1 + g) = g).
  { destruct (Z.eq_dec m1 0) as [|Hnz]; [now left|].
    destruct (Z.eq_dec m1 (2 ^ 24)) as [|Hn24]; [now right; left|].
    right; right. destruct m1 as [|p1|p1] eqn:Ep; try lia. cbn [Zdigits2].
    pose proof (digits2_le p1 24 ltac:(lia)) as Hd24.
    unfold fexp32. destruct (Z.eq_dec g (-149)) as [E|E]; [lia|].
    specialize (HqA ltac:(lia)).
    pose proof (digits2_ge p1 24 ltac:(change (2 ^ (24 - 1)) with (2 ^ 23); lia)). lia. }
  split; [exact Hcan|].
  split; [intros HA; specialize (HqA HA); lia|].
  (* the computation *)
  unfold binary_round_aux. rewrite Hr. fold m1.
  unfold norm32.
  destruct m1 as [|p1|p1] eqn:Ep; [| |lia].
  - (* zero *)
    unfold shr_fexp, shr. cbn [Zdigits2 shr_record_of_loc]. rewrite fexp_32.
    destruct (fexp32 (0 + g) - g) as [|k|k] eqn:Ek; cbn [shr_m]; try reflexivity.
    unfold fexp32 in Ek. lia.
  - destruct (Z.eqb_spec (Zpos p1) (2 ^ 24)) as [E24|N24].
    + (* carry: one more shift *)
      injection E24 as ->.
      assert (HgA : -149 <= g) by lia.
      unfold shr_fexp, shr. cbn [Zdigits2 shr_record_of_loc]. rewrite fexp_32.
      change (Zpos (digits2_pos 16777216)) with 25.
      replace (fexp32 (25 + g) - g) with 1 by (unfold fexp32; lia).
      cbn [iter_pos shr_1 shr_m]. replace (g + 1 <=? 128 - 24) with (g + 1 <=? 104) by reflexivity.
      reflexivity.
    + destruct Hcan as [H|[H|H]]; try lia. cbn [Zdigits2] in H.
      unfold shr_fexp, shr. cbn [Zdigits2 shr_record_of_loc]. rewrite fexp_32, H.
      rewrite Z.sub_diag. cbn [shr_m]. reflexivity.
Qed.

(** ** Comparing values *)

Lemma V_le_Z (m1 e1 m2 e2 e : Z) :
  e <= e1 -> e <= e2 ->
  ((V m1 e1 <= V m2 e2)%R <-> m1 * 2 ^ (e1 - e) <= m2 * 2 ^ (e2 - e)).
Proof.
  intros H1 H2.
  replace e1 with (e + (e1 - e)) at 1 by lia. replace e2 with (e + (e2 - e)) at 1 by lia.
  rewrite <- !V_shift by lia. unfold V. pose proof (bpow_pos e) as Hp.
  split.
  - intros H. apply le_IZR. nra.
  - intros H. apply IZR_le in H. nra.
Qed.

Lemma V_lt_Z (m1 e1 m2 e2 e : Z) :
  e <= e1 -> e <= e2 ->
  ((V m1 e1 < V m2 e2)%R <-> m1 * 2 ^ (e1 - e) < m2 * 2 ^ (e2 - e)).
Proof.
  intros H1 H2.
  replace e1 with (e + (e1 - e)) at 1 by lia. replace e2 with (e + (e2 - e)) at 1 by lia.
  rewrite <- !V_shift by lia. unfold V. pose proof (bpow_pos e) as Hp.
  split.
  - intros H. apply lt_IZR. nra.
  - intros H. apply IZR_lt in H. nra.
Qed.

Lemma V_bpow (e : Z) : V 1 e = bpow e.
Proof. unfold V. ring. Qed.

Lemma bounded_spec (m : positive) (e : Z) :
  bounded 24 128 m e = true <-> fexp32 (Zpos (digits2_pos m) + e) = e /\ e <= 104.
Proof.
  unfold bounded, canonical_mantissa. rewrite fexp_32, andb_true_iff, Z.eqb_eq, Z.leb_le.
  reflexivity.
Qed.

(** A canonical mantissa lies in its binade. *)
Lemma bounded_range (m : positive) (e : Z) :
  bounded 24 128 m e = true ->
  -149 <= e <= 104 /\ Zpos m < 2 ^ 24 /\ (-149 < e -> 2 ^ 23 <= Zpos m)
  /\ (V (Zpos m) e < bpow (24 + e))%R /\ (bpow (-149) <= V (Zpos m) e)%R.
Proof.
  intros H. apply bounded_spec in H. destruct H as [Hc He]. unfold fexp32 in Hc.
  pose proof (digits2_spec m) as [Hd1 Hd2].
  assert (Hd : Zpos (digits2_pos m) <= 24) by lia.
  assert (Hlt : Zpos m < 2 ^ 24).
  { pose proof (Z.pow_le_mono_r 2 (Zpos (digits2_pos m)) 24 ltac:(lia) Hd). lia. }
  split; [lia|]. split; [exact Hlt|]. split.
  - intros Hn. assert (E : Zpos (digits2_pos m) = 24) by lia.
    rewrite E in Hd1. exact Hd1.
  - split.
    + rewrite <- V_bpow. apply (V_lt_Z _ _ _ _ e); [lia | lia |].
      rewrite Z.sub_diag. replace (24 + e - e) with 24 by lia. lia.
    + rewrite <- V_bpow. apply (V_le_Z _ _ _ _ (-149)); [lia | lia |].
      rewrite Z.sub_diag.
      pose proof (Z.pow_pos_nonneg 2 (e - -149) ltac:(lia) ltac:(lia)). nia.
Qed.

(** Rounding is monotone with respect to the floats around the value. *)
Lemma bra_between (m : positive) (e : Z) (ma : positive) (ea : Z) (mb : positive) (eb : Z) :
  e <= fexp32 (Zpos (digits2_pos m) + e) ->
  bounded 24 128 ma ea = true -> bounded 24 128 mb eb = true ->
  (V (Zpos ma) ea <= V (Zpos m) e <= V (Zpos mb) eb)%R ->
  exists m2 e2,
    binary_round_aux 24 128 false (Zpos m) e loc_Exact = S754_finite false m2 e2
    /\ bounded 24 128 m2 e2 = true
    /\ (V (Zpos ma) ea <= V (Zpos m2) e2 <= V (Zpos mb) eb)%R
    /\ (Zpos m mod 2 ^ (fexp32 (Zpos (digits2_pos m) + e) - e) = 0 ->
        V (Zpos m2) e2 = V (Zpos m) e).
Proof.
  intros Hle Ha Hb [Hax Hxb].
  destruct (bra_spec m e Hle) as [m1 [Hr [Henc [Hexact [Hcan [HA Heq]]]]]].
  set (d := Zpos (digits2_pos m)) in *. set (g := fexp32 (d + e)) in *.
  pose proof (bounded_range ma ea Ha) as [Hea [Hma [HmaN [Halt Hage]]]].
  pose proof (bounded_range mb eb Hb) as [Heb [Hmb [HmbN [Hblt Hbge]]]].
  pose proof (digits2_spec m) as [Hd1 Hd2]. fold d in Hd1, Hd2.
  assert (Hg : g = Z.max (d + e - 24) (-149)) by reflexivity.
  assert (Hpn : 0 < 2 ^ (g - e)) by (apply Z.pow_pos_nonneg; lia).
  (* the value is at least the start of its binade *)
  assert (Hxlo : -149 < g -> (bpow (23 + g) <= V (Zpos m) e)%R).
  { intros Hn. rewrite <- V_bpow. apply (V_le_Z _ _ _ _ e); [lia | lia |].
    rewrite Z.sub_diag. replace (23 + g - e) with (d - 1) by lia. lia. }
  (* upper bound *)
  assert (Hup : (V m1 g <= V (Zpos mb) eb)%R).
  { destruct (Z.le_gt_cases g eb) as [Hge|Hlt].
    - apply (V_le_Z _ _ _ _ e) in Hxb; [|lia|lia]. rewrite Z.sub_diag in Hxb.
      apply (V_le_Z _ _ _ _ g); [lia | lia |]. rewrite Z.sub_diag.
      replace (eb - e) with ((eb - g) + (g - e)) in Hxb by lia.
      rewrite Z.pow_add_r in Hxb by lia.
      pose proof (Z.pow_pos_nonneg 2 (eb - g) ltac:(lia) ltac:(lia)). nia.
    - exfalso. specialize (Hxlo ltac:(lia)).
      pose proof (bpow_le (24 + eb) (23 + g) ltac:(lia)). lra. }
  (* lower bound *)
  assert (Hdown : (V (Zpos ma) ea <= V m1 g)%R).
  { destruct (Z.le_gt_cases g ea) as [Hge|Hlt].
    - apply (V_le_Z _ _ _ _ e) in Hax; [|lia|lia]. rewrite Z.sub_diag in Hax.
      apply (V_le_Z _ _ _ _ g); [lia | lia |]. rewrite Z.sub_diag.
      replace (ea - e) with ((ea - g) + (g - e)) in Hax by lia.
      rewrite Z.pow_add_r in Hax by lia.
      pose proof (Z.pow_pos_nonneg 2 (ea - g) ltac:(lia) ltac:(lia)). nia.
    - specialize (HA ltac:(lia)).
      pose proof (bpow_le (24 + ea) (23 + g) ltac:(lia)).
      assert ((bpow (23 + g) <= V m1 g)%R).
      { rewrite <- V_bpow. apply (V_le_Z _ _ _ _ g); [lia | lia |].
        rewrite Z.sub_diag. replace (23 + g - g) with 23 by lia. lia. }
      lra. }
  assert (Hbtop : (V (Zpos mb) eb < bpow 128)%R).
  { pose proof (bpow_le (24 + eb) 128 ltac:(lia)). lra. }
  assert (Hm1pos : 0 < m1).
  { destruct (Z.lt_ge_cases 0 m1) as [|Hz]; [assumption|]. exfalso.
    assert (m1 = 0) by lia. subst m1. unfold V at 2 in Hdown.
    pose proof (bpow_pos (-149)). lra. }
  rewrite Heq. unfold norm32.
  destruct m1 as [|p1|p1] eqn:Ep; try lia.
  destruct (Z.eqb_spec (Zpos p1) (2 ^ 24)) as [E24|N24].
  - assert (Hv : V (2 ^ 23) (g + 1) = V (Zpos p1) g).
    { rewrite E24. rewrite <- V_shift by lia. reflexivity. }
    assert (Hg1 : g + 1 <= 104).
    { destruct (Z.le_gt_cases (g + 1) 104) as [|Hgt]; [assumption|]. exfalso.
      assert ((bpow 128 <= V (Zpos p1) g)%R).
      { rewrite E24. replace (2 ^ 24) with (1 * 2 ^ 24) by reflexivity.
        rewrite V_shift, V_bpow by lia. apply bpow_le. lia. }
      lra. }
    apply Z.leb_le in Hg1. rewrite Hg1.
    exists (2 ^ 23)%positive, (g + 1). split; [reflexivity|]. split.
    + apply bounded_spec. change (Zpos (digits2_pos (2 ^ 23))) with 24.
      unfold fexp32. apply Z.leb_le in Hg1. lia.
    + change (Zpos (2 ^ 23)) with (2 ^ 23). rewrite Hv. split; [lra|].
      intros Hz. specialize (Hexact Hz). rewrite <- Hexact.
      now rewrite V_shift, Zplus_minus by lia.
  - assert (Hg1 : g <= 104).
    { destruct (Z.le_gt_cases g 104) as [|Hgt]; [assumption|]. exfalso.
      specialize (HA ltac:(lia)).
      assert ((bpow 128 <= V (Zpos p1) g)%R).
      { apply Rle_trans with (V (2 ^ 23) g).
        - replace (2 ^ 23) with (1 * 2 ^ 23) by reflexivity.
          rewrite V_shift, V_bpow by lia. apply bpow_le. lia.
        - apply (V_le_Z _ _ _ _ g); [lia | lia |]. rewrite Z.sub_diag. lia. }
      lra. }
    apply Z.leb_le in Hg1. rewrite Hg1.
    exists p1, g. split; [reflexivity|]. split.
    + apply bounded_spec. destruct Hcan as [H|[H|H]]; try lia.
      cbn [Zdigits2] in H. apply Z.leb_le in Hg1. auto.
    + split; [lra|]. intros Hz. specialize (Hexact Hz). rewrite <- Hexact.
      now rewrite V_shift, Zplus_minus by lia.
Qed.

(** ** The operations on positive finite floats *)

Lemma digits2_shift (m : positive) (k : positive) :
  Zpos (digits2_pos (Pos.iter xO m k)) = Zpos (digits2_pos m) + Zpos k
  /\ Zpos (Pos.iter xO m k) = Zpos m * 2 ^ Zpos k.
Proof.
  assert (E : Zpos (Pos.iter xO m k) = Zpos m * 2 ^ Zpos k).
  { change (Pos.iter xO m k) with (shift_pos k m). rewrite shift_pos_correct.
    change (Z.pow_pos 2 k) with (2 ^ Zpos k). lia. }
  split; [|exact E].
  pose proof (digits2_spec m) as [H1 H2].
  pose proof (Z.pow_pos_nonneg 2 (Zpos k) ltac:(lia) ltac:(lia)) as Hp.
  apply Z.le_antisymm.
  - apply digits2_le. rewrite E, Z.pow_add_r by lia. nia.
  - apply digits2_ge. rewrite E.
    replace (Zpos (digits2_pos m) + Zpos k - 1) with ((Zpos (digits2_pos m) - 1) + Zpos k) by lia.
    rewrite Z.pow_add_r by lia. nia.
Qed.

Lemma binary_round_between (m : positive) (e : Z)
  (ma : positive) (ea : Z) (mb : positive) (eb : Z) :
  bounded 24 128 ma ea = true -> bounded 24 128 mb eb = true ->
  (V (Zpos ma) ea <= V (Zpos m) e <= V (Zpos mb) eb)%R ->
  exists m2 e2,
    binary_round 24 128 false m e = S754_finite false m2 e2
    /\ bounded 24 128 m2 e2 = true
    /\ (V (Zpos ma) ea <= V (Zpos m2) e2 <= V (Zpos mb) eb)%R.
Proof.
  intros Ha Hb Hx. unfold binary_round, shl_align. rewrite fexp_32.
  set (g := fexp32 (Zpos (digits2_pos m) + e)).
  destruct (g - e) as [|k|k] eqn:Ek.
  - destruct (bra_between m e ma ea mb eb ltac:(fold g; lia) Ha Hb Hx) as [m2 [e2 [E [B [Hv _]]]]].
    exists m2, e2. auto.
  - destruct (bra_between m e ma ea mb eb ltac:(fold g; lia) Ha Hb Hx) as [m2 [e2 [E [B [Hv _]]]]].
    exists m2, e2. auto.
  - destruct (digits2_shift m k) as [Hd Hm].
    assert (Hv : V (Zpos (Pos.iter xO m k)) g = V (Zpos m) e).
    { rewrite Hm, V_shift by lia. f_equal. lia. }
    destruct (bra_between (Pos.iter xO m k) g ma ea mb eb) as [m2 [e2 [E [B [Hv2 _]]]]];
      auto.
    + rewrite Hd. replace (Zpos (digits2_pos m) + Zpos k + g) with (Zpos (digits2_pos m) + e) by lia.
      fold g. lia.
    + now rewrite Hv.
    + exists m2, e2. auto.
Qed.

Lemma SFmul_between (m1 : positive) (e1 : Z) (m2 : positive) (e2 : Z)
  (ma : positive) (ea : Z) (mb : positive) (eb : Z) :
  2 ^ 23 <= Zpos m1 -> 2 ^ 23 <= Zpos m2 ->
  bounded 24 128 ma ea = true -> bounded 24 128 mb eb = true ->
  (V (Zpos ma) ea <= V (Zpos m1) e1 * V (Zpos m2) e2 <= V (Zpos mb) eb)%R ->
  exists m3 e3,
    SFmul 24 128 (S754_finite false m1 e1) (S754_finite false m2 e2)
      = S754_finite false m3 e3
    /\ bounded 24 128 m3 e3 = true
    /\ (V (Zpos ma) ea <= V (Zpos m3) e3 <= V (Zpos mb) eb)%R.
Proof.
  intros H1 H2 Ha Hb Hx. cbn [SFmul xorb].
  assert (Hv : V (Zpos (m1 * m2)) (e1 + e2) = (V (Zpos m1) e1 * V (Zpos m2) e2)%R).
  { unfold V. rewrite Pos2Z.inj_mul, mult_IZR, bpow_add. ring. }
  destruct (bra_between (m1 * m2) (e1 + e2) ma ea mb eb) as [m3 [e3 [E [B [Hv3 _]]]]]; auto.
  - pose proof (digits2_ge (m1 * m2) 47) as Hd.
    assert (2 ^ (47 - 1) <= Zpos (m1 * m2)).
    { rewrite Pos2Z.inj_mul. change (2 ^ (47 - 1)) with (2 ^ 23 * 2 ^ 23). nia. }
    specialize (Hd H). unfold fexp32. lia.
  - now rewrite Hv.
  - exists m3, e3. auto.
Qed.

Lemma shl_align_fst (m : positive) (e ez : Z) :
  ez <= e -> Zpos (fst (shl_align m e ez)) = Zpos m * 2 ^ (e - ez).
Proof.
  intros H. unfold shl_align. destruct (ez - e) as [|k|k] eqn:Ek; cbn [fst]; try lia.
  - replace (e - ez) with 0 by lia. lia.
  - destruct (digits2_shift m k) as [_ Hm]. rewrite Hm. f_equal. f_equal. lia.
Qed.

Lemma SFadd_between (m1 : positive) (e1 : Z) (m2 : positive) (e2 : Z)
  (ma : positive) (ea : Z) (mb : positive) (eb : Z) :
  bounded 24 128 ma ea = true -> bounded 24 128 mb eb = true ->
  (V (Zpos ma) ea <= V (Zpos m1) e1 + V (Zpos m2) e2 <= V (Zpos mb) eb)%R ->
  exists m3 e3,
    SFadd 24 128 (S754_finite false m1 e1) (S754_finite false m2 e2)
      = S754_finite false m3 e3
    /\ bounded 24 128 m3 e3 = true
    /\ (V (Zpos ma) ea <= V (Zpos m3) e3 <= V (Zpos mb) eb)%R.
Proof.
  intros Ha Hb Hx. cbn [SFadd cond_Zopp].
  set (ez := Z.min e1 e2).
  rewrite !shl_align_fst by (subst ez; lia).
  pose proof (Z.pow_pos_nonneg 2 (e1 - ez) ltac:(lia) ltac:(subst ez; lia)).
  pose proof (Z.pow_pos_nonneg 2 (e2 - ez) ltac:(lia) ltac:(subst ez; lia)).
  destruct (Zpos m1 * 2 ^ (e1 - ez) + Zpos m2 * 2 ^ (e2 - ez)) as [|s|s] eqn:Es; try lia.
  cbn [binary_normalize].
  apply binary_round_between; auto.
  assert (Hv : V (Zpos s) ez = (V (Zpos m1) e1 + V (Zpos m2) e2)%R).
  { rewrite <- Es. unfold V at 1. rewrite plus_IZR, Rmult_plus_distr_r.
    fold (V (Zpos m1 * 2 ^ (e1 - ez)) ez). fold (V (Zpos m2 * 2 ^ (e2 - ez)) ez).
    rewrite !V_shift by (subst ez; lia). f_equal; f_equal; lia. }
  now rewrite Hv.
Qed.

Lemma of_Z_between (n : Z) (ma : positive) (ea : Z) (mb : positive) (eb : Z) :
  0 < n ->
  bounded 24 128 ma ea = true -> bounded 24 128 mb eb = true ->
  (V (Zpos ma) ea <= IZR n <= V (Zpos mb) eb)%R ->
  exists m e,
    binary_normalize 24 128 n 0 false = S754_finite false m e
    /\ bounded 24 128 m e = true
    /\ (V (Zpos ma) ea <= V (Zpos m) e <= V (Zpos mb) eb)%R.
Proof.
  intros Hn Ha Hb Hx. destruct n as [|p|p]; try lia. cbn [binary_normalize].
  apply binary_round_between; auto.
  unfold V at 2 3. change (bpow 0) with 1%R. lra.
Qed.

(** ** Truncation and comparison *)

Lemma shiftl_floor (m : positive) (e : Z) :
  0 <= Z.shiftl (Zpos m) e
  /\ (IZR (Z.shiftl (Zpos m) e) <= V (Zpos m) e < IZR (Z.shiftl (Zpos m) e) + 1)%R.
Proof.
  destruct (Z.le_gt_cases 0 e) as [He|He].
  - rewrite Z.shiftl_mul_pow2 by lia.
    pose proof (Z.pow_pos_nonneg 2 e ltac:(lia) He).
    assert (Hv : V (Zpos m) e = IZR (Zpos m * 2 ^ e)).
    { replace e with (0 + e) at 1 by lia. rewrite <- V_shift by lia.
      unfold V. change (bpow 0) with 1%R. ring. }
    rewrite Hv. split; [nia | lra].
  - rewrite Z.shiftl_div_pow2 by lia.
    pose proof (Z.pow_pos_nonneg 2 (- e) ltac:(lia) ltac:(lia)) as Hp.
    pose proof (Z.div_mod (Zpos m) (2 ^ (- e)) ltac:(lia)) as Hdm.
    pose proof (Z.mod_pos_bound (Zpos m) (2 ^ (- e)) Hp) as Hmod.
    set (z := Zpos m / 2 ^ (- e)) in *.
    assert (Hz : 0 <= z) by (subst z; apply Z.div_pos; lia).
    split; [exact Hz|].
    replace (IZR z) with (V z 0) by (unfold V; change (bpow 0) with 1%R; ring).
    replace (V z 0 + 1)%R with (V (z + 1) 0)
      by (unfold V; rewrite plus_IZR; change (bpow 0) with 1%R; ring).
    split.
    + apply (V_le_Z _ _ _ _ e); [lia | lia |]. rewrite Z.sub_diag, Z.sub_0_l. nia.
    + apply (V_lt_Z _ _ _ _ e); [lia | lia |]. rewrite Z.sub_diag, Z.sub_0_l. nia.
Qed.

Lemma SFleb_V (m1 : positive) (e1 : Z) (m2 : positive) (e2 : Z) :
  bounded 24 128 m1 e1 = true -> bounded 24 128 m2 e2 = true ->
  SFleb (S754_finite false m1 e1) (S754_finite false m2 e2) = true ->
  (V (Zpos m1) e1 <= V (Zpos m2) e2)%R.
Proof.
  intros B1 B2. unfold SFleb, SFcompare.
  pose proof (bounded_range m1 e1 B1) as [He1 [Hm1 [Hn1 [Hlt1 _]]]].
  pose proof (bounded_range m2 e2 B2) as [He2 [Hm2 [Hn2 [Hlt2 _]]]].
  destruct (Z.compare_spec e1 e2) as [E|E|E]; [| |discriminate].
  - subst e2. intros H. apply (V_le_Z _ _ _ _ e1); [lia | lia |].
    rewrite Z.sub_diag. change (2 ^ 0) with 1. rewrite !Z.mul_1_r.
    change (Pos.compare_cont Eq m1 m2) with (Pos.compare m1 m2) in H.
    destruct (Pos.compare_spec m1 m2); try lia; discriminate.
  - intros _. specialize (Hn2 ltac:(lia)).
    apply Rle_trans with (bpow (24 + e1)); [lra|].
    apply Rle_trans with (bpow (23 + e2)); [apply bpow_le; lia|].
    rewrite <- V_bpow. apply (V_le_Z _ _ _ _ e2); [lia | lia |].
    rewrite Z.sub_diag. replace (23 + e2 - e2) with 23 by lia. lia.
Qed.

(** ** The float computations of timeStretch *)

Lemma V_pow2 (k : Z) : V (Zpos (2 ^ 23)) (k - 23) = bpow k.
Proof.
  change (Zpos (2 ^ 23)) with (1 * 2 ^ 23). rewrite V_shift by lia.
  rewrite V_bpow. f_equal. lia.
Qed.

Lemma bounded_pow2 (k : Z) : -126 <= k <= 127 -> bounded 24 128 (2 ^ 23) (k - 23) = true.
Proof.
  intros Hk. apply bounded_spec. change (Zpos (digits2_pos (2 ^ 23))) with 24.
  unfold fexp32. lia.
Qed.

(** A positive finite binary32 value between two reals. *)
Definition finite_in (x : F32.t) (lo hi : R) : Prop :=
  exists m e, x = S754_finite false m e /\ bounded 24 128 m e = true
              /\ (lo <= V (Zpos m) e <= hi)%R.

Lemma factor_in_range (f : F32.t) :
  valid_binary 24 128 f = true ->
  (F32.lit 25 100 <=? f)%f32 = true -> (f <=? F32.of_Z 4)%f32 = true ->
  finite_in f (bpow (-2)) (bpow 2).
Proof.
  intros Hv Hlo Hhi.
  change (F32.lit 25 100) with (S754_finite false (2 ^ 23) (-2 - 23)) in Hlo.
  change (F32.of_Z 4) with (S754_finite false (2 ^ 23) (2 - 23)) in Hhi.
  destruct f as [s|s| |s m e]; try discriminate.
  - destruct s; discriminate.
  - destruct s; [discriminate|]. cbn [valid_binary] in Hv.
    exists m, e. split; [reflexivity|]. split; [exact Hv|].
    rewrite <- (V_pow2 (-2)), <- (V_pow2 2). split.
    + apply SFleb_V; auto.
    + apply SFleb_V; auto.
Qed.

(** A bounded float that is at least 2^-126 has a full mantissa. *)
Lemma finite_in_normal (m : positive) (e : Z) (k : Z) :
  bounded 24 128 m e = true -> -126 <= k -> (bpow k <= V (Zpos m) e)%R ->
  2 ^ 23 <= Zpos m.
Proof.
  intros B Hk Hv. pose proof (bounded_range m e B) as [He [Hm [Hn [Hlt _]]]].
  destruct (Z.lt_ge_cases (-149) e) as [Hgt|Hle]; [auto|].
  assert (e = -149) by lia. subst e.
  rewrite <- (V_pow2 k) in Hv.
  apply (V_le_Z _ _ _ _ (-149)) in Hv; [|lia|lia].
  change (-149 - -149) with 0 in Hv. rewrite Z.pow_0_r, Z.mul_1_r in Hv.
  assert (0 < 2 ^ (k - 23 - -149)) by (apply Z.pow_pos_nonneg; lia).
  change (Zpos (2 ^ 23)) with 8388608 in Hv. change (2 ^ 23) with 8388608. nia.
Qed.

Lemma of_Z_in (n : Z) (k : Z) :
  1 <= n <= 2 ^ k -> 0 <= k <= 127 ->
  finite_in (F32.of_Z n) 1 (bpow k).
Proof.
  intros Hn Hk. unfold F32.of_Z, F32.prec, F32.emax.
  destruct (of_Z_between n (2 ^ 23) (0 - 23) (2 ^ 23) (k - 23)) as [m [e [E [B Hv]]]].
  - lia.
  - apply bounded_pow2; lia.
  - apply bounded_pow2; lia.
  - rewrite !V_pow2, (bpow_IZR k) by lia. change (bpow 0) with 1%R.
    split; apply IZR_le; lia.
  - rewrite !V_pow2 in Hv. change (bpow 0) with 1%R in Hv.
    exists m, e. auto.
Qed.

Lemma mul_in (x y : F32.t) (kx ky lx ly : Z) :
  finite_in x (bpow lx) (bpow kx) -> finite_in y (bpow ly) (bpow ky) ->
  -126 <= lx -> -126 <= ly -> -126 <= lx + ly -> kx + ky <= 127 ->
  finite_in (x * y)%f32 (bpow (lx + ly)) (bpow (kx + ky)).
Proof.
  intros [mx [ex [-> [Bx Hx]]]] [my [ey [-> [By Hy]]]] Hlx Hly Hl Hk.
  pose proof (bpow_pos lx). pose proof (bpow_pos ly).
  assert (lx <= kx /\ ly <= ky) as [Hxk Hyk].
  { split.
    - destruct (Z.le_gt_cases lx kx); [assumption|].
      pose proof (bpow_lt kx lx ltac:(lia)). lra.
    - destruct (Z.le_gt_cases ly ky); [assumption|].
      pose proof (bpow_lt ky ly ltac:(lia)). lra. }
  destruct (SFmul_between mx ex my ey (2 ^ 23) (lx + ly - 23) (2 ^ 23) (kx + ky - 23))
    as [m [e [E [B Hv]]]].
  - apply (finite_in_normal mx ex lx); auto; lra.
  - apply (finite_in_normal my ey ly); auto; lra.
  - apply bounded_pow2; lia.
  - apply bounded_pow2; lia.
  - rewrite !V_pow2, !bpow_add. nra.
  - rewrite !V_pow2 in Hv. exists m, e. auto.
Qed.

(** Adding a positive float never decreases a float: the sum of [x] and
    [y] rounds to a value that is at least [x]. *)
Lemma add_in (x y : F32.t) (lx hx ly hy : R) (mb : positive) (eb : Z) :
  finite_in x lx hx -> finite_in y ly hy -> (0 < ly)%R ->
  bounded 24 128 mb eb = true -> (hx + hy <= V (Zpos mb) eb)%R ->
  exists mx ex ms es,
    x = S754_finite false mx ex /\ (x + y)%f32 = S754_finite false ms es
    /\ bounded 24 128 ms es = true
    /\ (V (Zpos mx) ex <= V (Zpos ms) es <= V (Zpos mb) eb)%R.
Proof.
  intros [mx [ex [-> [Bx Hx]]]] [my [ey [-> [By Hy]]]] Hly Bb Hb.
  destruct (SFadd_between mx ex my ey mx ex mb eb Bx Bb) as [ms [es [E [B Hv]]]].
  - lra.
  - exists mx, ex, ms, es. auto.
Qed.

Lemma to_size_in (m : positive) (e : Z) (bound : Z) :
  (V (Zpos m) e <= IZR bound)%R -> bound < size_max ->
  F32.to_size (S754_finite false m e) = Ok (Z.shiftl (Zpos m) e)
  /\ 0 <= Z.shiftl (Zpos m) e <= bound.
Proof.
  intros Hv Hb. pose proof (shiftl_floor m e) as [H0 [H1 H2]].
  assert (Hz : Z.shiftl (Zpos m) e <= bound) by (apply le_IZR; lra).
  split; [|lia]. unfold F32.to_size, F32.trunc. cbn [cond_Zopp].
  replace ((0 <=? Z.shiftl (Zpos m) e) && (Z.shiftl (Zpos m) e <? size_max)) with true;
    [reflexivity|]. symmetry. apply andb_true_iff. lia.
Qed.

Lemma shiftl_mono (m1 : positive) (e1 : Z) (m2 : positive) (e2 : Z) :
  (V (Zpos m1) e1 <= V (Zpos m2) e2)%R ->
  Z.shiftl (Zpos m1) e1 <= Z.shiftl (Zpos m2) e2.
Proof.
  intros Hv. pose proof (shiftl_floor m1 e1) as [_ [H1 _]].
  pose proof (shiftl_floor m2 e2) as [_ [_ H2]].
  assert (Z.shiftl (Zpos m1) e1 < Z.shiftl (Zpos m2) e2 + 1).
  { apply lt_IZR. rewrite plus_IZR. lra. }
  lia.
Qed.

(** The three conversions of [timeStretch]: the synthesis hop, the
    allocated length and the expected length.  The allocated length is
    never below the expected one. *)
Lemma stretch_lengths (n : Z) (f : F32.t) :
  1 <= n <= 2 ^ 61 ->
  finite_in f (bpow (-2)) (bpow 2) ->
  exists synthesisHop outputLength expectedLength,
    F32.to_u32 (F32.of_Z analysisHop * f)%f32 = Ok synthesisHop
    /\ F32.to_size (F32.of_Z n * f + F32.of_Z ts_windowSize)%f32 = Ok outputLength
    /\ F32.to_size (F32.of_Z n * f)%f32 = Ok expectedLength
    /\ 0 <= synthesisHop <= 4096
    /\ 0 <= expectedLength <= outputLength
    /\ outputLength <= 2 ^ 63 + 2 ^ 40.
Proof.
  intros Hn Hf.
  (* the synthesis hop *)
  assert (Hhop : finite_in (F32.of_Z analysisHop) (bpow 10) (bpow 10)).
  { exists (2 ^ 23)%positive, (10 - 23). split; [reflexivity|].
    split; [reflexivity|]. rewrite V_pow2. lra. }
  destruct (mul_in _ _ 10 2 10 (-2) Hhop Hf ltac:(lia) ltac:(lia) ltac:(lia) ltac:(lia))
    as [mh [eh [Eh [Bh Hh]]]].
  change (10 + 2) with 12 in Hh. rewrite (bpow_IZR 12) in Hh by lia.
  pose proof (shiftl_floor mh eh) as [Hh0 [Hh1 _]].
  assert (Hhz : Z.shiftl (Zpos mh) eh <= 2 ^ 12) by (apply le_IZR; lra).
  (* the expected length *)
  pose proof (of_Z_in n 61 Hn ltac:(lia)) as Hnf.
  change 1%R with (bpow 0) in Hnf.
  destruct (mul_in _ _ 61 2 0 (-2) Hnf Hf ltac:(lia) ltac:(lia) ltac:(lia) ltac:(lia))
    as [mp [ep [Ep [Bp Hp]]]].
  change (61 + 2) with 63 in Hp. change (0 + -2) with (-2) in Hp.
  rewrite (bpow_IZR 63) in Hp by lia.
  destruct (to_size_in mp ep (2 ^ 63) ltac:(lra) ltac:(reflexivity)) as [HE HEr].
  (* the allocated length *)
  assert (Hw : finite_in (F32.of_Z ts_windowSize) (bpow 12) (bpow 12)).
  { exists (2 ^ 23)%positive, (12 - 23). split; [reflexivity|].
    split; [reflexivity|]. rewrite V_pow2. lra. }
  assert (Hpf : finite_in (F32.of_Z n * f)%f32 (bpow (-2)) (IZR (2 ^ 63))).
  { exists mp, ep. auto. }
  destruct (add_in _ _ _ _ _ _ (2 ^ 23 + 1) 40 Hpf Hw (bpow_pos 12))
    as [mp' [ep' [ms [es [Ep' [Es [Bs Hs]]]]]]].
  { reflexivity. }
  { unfold V. rewrite (bpow_IZR 12), (bpow_IZR 40) by lia. rewrite <- !mult_IZR, <- plus_IZR.
    apply IZR_le. vm_compute. discriminate. }
  rewrite Ep in Ep'. injection Ep' as <- <-.
  assert (Hsb : (V (Zpos ms) es <= IZR (2 ^ 63 + 2 ^ 40))%R).
  { destruct Hs as [_ Hs]. unfold V at 2 in Hs. rewrite (bpow_IZR 40) in Hs by lia.
    rewrite <- mult_IZR in Hs.
    replace (2 ^ 63 + 2 ^ 40) with (Zpos (2 ^ 23 + 1) * 2 ^ 40) by reflexivity. exact Hs. }
  destruct (to_size_in ms es (2 ^ 63 + 2 ^ 40) Hsb ltac:(reflexivity)) as [HO HOr].
  pose proof (shiftl_mono mp ep ms es ltac:(lra)) as Hmono.
  exists (Z.shiftl (Zpos mh) eh), (Z.shiftl (Zpos ms) es), (Z.shiftl (Zpos mp) ep).
  rewrite Eh, Es, Ep.
  split.
  { unfold F32.to_u32, F32.trunc. cbn [cond_Zopp].
    replace ((0 <=? Z.shiftl (Zpos mh) eh) && (Z.shiftl (Zpos mh) eh <? 2 ^ 32)) with true;
      [reflexivity|]. symmetry. apply andb_true_iff.
    change (2 ^ 12) with 4096 in Hhz. change (2 ^ 32) with 4294967296. lia. }
  split; [exact HO|]. split; [exact HE|].
  change (2 ^ 12) with 4096 in Hhz. lia.
Qed.

(** ** timeStretch: the frame loop and the length of the result *)

Lemma bind_ret {A B : Type} (a : A) (k : A -> result B) : bind (Ok a) k = k a.
Proof. reflexivity. Qed.

Lemma szadd_small (a b : Z) : 0 <= a + b < size_max -> szadd a b = a + b.
Proof. intros H. unfold szadd. apply Z.mod_small. exact H. Qed.

(** ** Calls that can only fail in [std::polar]

    [outcome P E r]: the call [r] returns a value satisfying [P], or stops
    with a fault satisfying [E]. *)

Definition outcome {A : Type} (P : A -> Prop) (E : error -> Prop) (r : result A) : Prop :=
  match r with
  | Ok a => P a
  | Err e => E e
  end.

(** The only fault: a call of [std::polar] outside its precondition. *)
Definition polar_fault (e : error) : Prop := e = PreconditionViolated.

Lemma outcome_bind {A B : Type} (P : A -> Prop) (Q : B -> Prop) (E : error -> Prop)
  (m : result A) (k : A -> result B) :
  outcome P E m -> (forall a, P a -> outcome Q E (k a)) -> outcome Q E (bind m k).
Proof.
  destruct m as [a|e]; cbn [outcome bind]; intros Hm Hk; [apply Hk; exact Hm | exact Hm].
Qed.

Lemma outcome_weaken {A : Type} (P Q : A -> Prop) (E : error -> Prop) (r : result A) :
  outcome P E r -> (forall a, P a -> Q a) -> outcome Q E r.
Proof. destruct r as [a|e]; cbn [outcome]; auto. Qed.

Lemma for_range_outcome {St : Type} (P : St -> Prop) (E : error -> Prop)
  (lo hi : Z) (body : Z -> St -> result St) (s : St) :
  P s ->
  (forall k st, lo <= k < hi -> P st -> outcome P E (body k st)) ->
  outcome P E (for_range lo hi body s).
Proof. intros HP Hbody. apply for_range_inv; assumption. Qed.

Lemma for_step_outcome_idx {St : Type} (P : Z -> St -> Prop) (E : error -> Prop)
  (lo hi step : Z) (body : Z -> St -> result St) (s : St) :
  0 < step -> lo <= hi ->
  P 0 s ->
  (forall k st, 0 <= k -> lo + k * step < hi -> P k st ->
     outcome (P (k + 1)) E (body (lo + k * step) st)) ->
  outcome (fun s' => exists k, P k s') E (for_step lo hi step body s).
Proof.
  intros Hstep Hle HP Hbody. unfold for_step.
  pose proof (for_range_rule P E 0 ((hi - lo + step - 1) / step)
                (fun k => body (lo + k * step)) s) as H.
  unfold outcome.
  match type of H with ?A -> ?B -> ?C -> _ =>
    assert (Ha : A); [|assert (Hc : C); [|specialize (H Ha HP Hc)]] end.
  - apply Z.div_pos; lia.
  - intros k st Hk Hst. apply Hbody; [lia | | exact Hst].
    assert (Hq : k + 1 <= (hi - lo + step - 1) / step) by lia.
    assert (Hm : (k + 1) * step <= hi - lo + step - 1).
    { pose proof (Z.mul_div_le (hi - lo + step - 1) step Hstep). nia. }
    nia.
  - destruct (for_range _ _ _ _) as [s'|e]; [eexists; exact H | exact H].
Qed.

Lemma polar_outcome {L : Libm} (rho theta : F32.t) :
  outcome (fun _ => True) polar_fault (C32.polar rho theta).
Proof.
  unfold C32.polar. destruct (_ && _); [exact I | reflexivity].
Qed.

Section StretchTotal.
Context {L : Libm}.

Lemma analysis_window_total : exists w, analysis_window = Ok w /\ vsize w = 4096.
Proof.
  unfold analysis_window.
  destruct (hanningWindow_total ts_windowSize) as [w [E Sz]].
  change (Z.max 0 ts_windowSize) with 4096 in Sz.
  rewrite E. cbn [bind].
  match goal with |- exists w0, bind (for_step ?lo ?hi ?st ?b ?s) _ = _ /\ _ =>
    destruct (for_step_total (fun _ => True) lo hi st b s) as [sum [Es _]] end.
  - reflexivity.
  - exact I.
  - intros k sum Hk Hlt _. cbn beta.
    replace (0 + k * analysisHop <? ts_windowSize) with true by (symmetry; apply Z.ltb_lt; lia).
    destruct (vget_ok w (0 + k * analysisHop)) as [a [Ha _]].
    { rewrite Sz. change analysisHop with 1024 in *. change ts_windowSize with 4096 in *. lia. }
    rewrite Ha. cbn [bind]. eexists; split; [reflexivity| exact I].
  - rewrite Es. cbn [bind].
    destruct (_ >? _)%f32; eexists; (split; [reflexivity|]); [rewrite vsize_map|]; exact Sz.
Qed.

Lemma synthesis_window_total : exists w, synthesis_window = Ok w /\ vsize w = 4096.
Proof.
  unfold synthesis_window.
  destruct (hanningWindow_total ts_windowSize) as [w [E Sz]].
  change (Z.max 0 ts_windowSize) with 4096 in Sz.
  rewrite E. cbn [bind]. eexists; split; [reflexivity|]. rewrite vsize_map. exact Sz.
Qed.

Lemma transient_scan_total (spectrum : list complex) (previousMagnitude : list F32.t)
  (bins : list Z) (magnitudeRatio : F32.t) :
  (forall i, In i bins -> 0 <= i < vsize spectrum /\ i < vsize previousMagnitude) ->
  exists b, transient_scan spectrum previousMagnitude bins magnitudeRatio = Ok b.
Proof.
  revert magnitudeRatio. induction bins as [|i rest IH]; intros r Hb.
  - exists false. reflexivity.
  - cbn [transient_scan].
    destruct (Hb i (or_introl eq_refl)) as [Hi Hi'].
    destruct (vget_ok spectrum i Hi) as [c [Hc _]].
    destruct (vget_ok previousMagnitude i ltac:(lia)) as [pm [Hpm _]].
    rewrite Hc. cbn [bind]. rewrite Hpm. cbn [bind].
    assert (Hrest : forall j, In j rest -> 0 <= j < vsize spectrum /\ j < vsize previousMagnitude)
      by (intros j Hj; apply Hb; right; exact Hj).
    destruct (pm >? F32.zero)%f32.
    + destruct (_ >? _)%f32; [exists true; reflexivity|].
      apply IH, Hrest.
    + apply IH, Hrest.
Qed.

Definition vocoder_sizes (N Mp Mm : Z) (st : list complex * list F32.t * list F32.t)
  : Prop :=
  let '(ms, pp, pm) := st in vsize ms = N /\ vsize pp = Mp /\ vsize pm = Mm.

Lemma vocoder_bin_outcome (spectrum : list complex)
  (stretchFactor frameDelta omega : F32.t)
  (numBins : Z) (isTransient : bool) (i : Z) (N Mp Mm : Z)
  (st : list complex * list F32.t * list F32.t) :
  vsize spectrum = N -> 0 <= i < N -> i < Mp -> i < Mm -> vocoder_sizes N Mp Mm st ->
  outcome (vocoder_sizes N Mp Mm) polar_fault
    (vocoder_bin spectrum stretchFactor frameDelta omega numBins isTransient i st).
Proof.
  intros HN Hi HMp HMm. destruct st as [[ms pp] pm]. intros [Hms [Hpp Hpm]].
  unfold vocoder_bin.
  destruct (vget_ok spectrum i ltac:(lia)) as [c [Hc _]].
  destruct (vget_ok pp i ltac:(lia)) as [p [Hp _]].
  rewrite Hc. cbn [bind].
  match goal with |- outcome _ _ (bind ?m ?k) =>
    assert (Hm : exists np mg, m = Ok (np, mg)) end.
  { destruct ((0 <? i) && (i <? numBins - 1)).
    - destruct (isTransient && _); [eexists; eexists; reflexivity|].
      rewrite Hp. cbn [bind]. eexists; eexists; reflexivity.
    - eexists; eexists; reflexivity. }
  destruct Hm as [np [mg Hm]]. rewrite Hm. cbn [bind].
  pose proof (polar_outcome mg np) as Hpolar.
  destruct (C32.polar mg np) as [value|e]; cbn [bind]; [|exact Hpolar].
  destruct (vset_ok ms i value ltac:(lia)) as [ms' [E1 S1]].
  destruct (vset_ok pp i np ltac:(lia)) as [pp' [E2 S2]].
  destruct (vset_ok pm i mg ltac:(lia)) as [pm' [E3 S3]].
  rewrite E1. cbn [bind]. rewrite E2. cbn [bind]. rewrite E3. cbn [bind].
  unfold outcome, vocoder_sizes. lia.
Qed.


Lemma applyPhaseVocoder_outcome (spectrum : list complex) (stretchFactor : F32.t)
  (previousPhase previousMagnitude : list F32.t) (frameDelta : F32.t) :
  vsize spectrum = 4096 -> vsize previousPhase = 2049 -> vsize previousMagnitude = 2049 ->
  outcome (vocoder_sizes 4096 2049 2049) polar_fault
    (applyPhaseVocoder spectrum stretchFactor previousPhase previousMagnitude frameDelta).
Proof.
  intros HN Hpp Hpm. unfold applyPhaseVocoder. cbv zeta. rewrite HN.
  change (szadd (4096 / 2) 1) with 2049. change (szsub 2049 1) with 2048.
  change (4096 / 2) with 2048. change (4096 mod 2 =? 0) with true. cbv iota.
  destruct (transient_scan_total spectrum previousMagnitude (zrange 1 2048) F32.zero)
    as [b Hb].
  { intros i Hi. apply zrange_bounds in Hi. lia. }
  rewrite Hb. cbn [bind].
  match goal with |- context [for_range 0 2049 ?body ?s] =>
    pose proof (for_range_outcome (vocoder_sizes 4096 2049 2049) polar_fault
                  0 2049 body s) as Hloop;
    destruct (for_range 0 2049 body s) as [[[ms pp] pm]|e]; cbn [bind] end.
  2: { apply Hloop.
       - unfold vocoder_sizes. rewrite vmake_size by lia. auto.
       - intros k st Hk Hst.
         apply (vocoder_bin_outcome _ _ _ _ _ _ _ 4096 2049 2049); auto; lia. }
  destruct Hloop as [S1 [S2 S3]].
  { unfold vocoder_sizes. rewrite vmake_size by lia. auto. }
  { intros k st Hk Hst.
    apply (vocoder_bin_outcome _ _ _ _ _ _ _ 4096 2049 2049); auto; lia. }
  match goal with |- context [for_range 1 2048 ?body ?s] =>
    destruct (for_range_total (fun v : list complex => vsize v = 4096) 1 2048 body s)
      as [ms1 [E1 Sz1]] end.
  { exact S1. }
  { intros k v Hk Hv.
    destruct (vget_ok v k ltac:(lia)) as [c [Hc _]]. rewrite Hc. cbn [bind].
    destruct (vset_ok v (4096 - k) (C32.conj c) ltac:(lia)) as [v' [Ev Sv]].
    exists v'. split; [exact Ev | lia]. }
  rewrite E1. cbn [bind].
  destruct (vget_ok ms1 0 ltac:(lia)) as [c0 [Hc0 _]]. rewrite Hc0. cbn [bind].
  destruct (vset_ok ms1 0 (mkC (re c0) F32.zero) ltac:(lia)) as [ms2 [E2 Sz2]].
  rewrite E2. cbn [bind].
  destruct (vget_ok ms2 2048 ltac:(lia)) as [c1 [Hc1 _]]. rewrite Hc1. cbn [bind].
  destruct (vset_ok ms2 2048 (mkC (re c1) F32.zero) ltac:(lia)) as [ms3 [E3 Sz3]].
  rewrite E3. cbn [bind].
  unfold outcome, vocoder_sizes. lia.
Qed.

Lemma overlap_add_total (processedFrame : list complex) (synthesisWindow : list F32.t)
  (outputPos : Z) (output overlapCompensation : list F32.t) (O : Z) :
  vsize processedFrame = 4096 -> vsize synthesisWindow = 4096 ->
  vsize output = O -> vsize overlapCompensation = O ->
  0 <= outputPos -> outputPos + 4096 <= O -> O < size_max ->
  exists output' overlap',
    overlap_add processedFrame synthesisWindow outputPos (output, overlapCompensation)
    = Ok (output', overlap')
    /\ vsize output' = O /\ vsize overlap' = O.
Proof.
  intros Hpf Hsw Ho Hoc Hpos Hfit Hmax. unfold overlap_add.
  match goal with |- context [for_range 0 ts_windowSize ?body ?s] =>
    destruct (for_range_total
                (fun p : list F32.t * list F32.t => vsize (fst p) = O /\ vsize (snd p) = O)
                0 ts_windowSize body s) as [[o' c'] [E [S1 S2]]] end.
  - cbn [fst snd]. auto.
  - intros k [o c] Hk [S1 S2]. cbn [fst snd] in S1, S2. change ts_windowSize with 4096 in Hk.
    rewrite (szadd_small outputPos k) by lia.
    destruct (vget_ok processedFrame k ltac:(lia)) as [x [Hx _]].
    destruct (vget_ok synthesisWindow k ltac:(lia)) as [w [Hw _]].
    destruct (vget_ok o (outputPos + k) ltac:(lia)) as [a [Ha _]].
    rewrite Hx. cbn [bind]. rewrite Hw. cbn [bind]. rewrite Ha. cbn [bind].
    match goal with |- context [vset o (outputPos + k) ?v] =>
      destruct (vset_ok o (outputPos + k) v ltac:(lia)) as [o1 [Eo So]] end.
    rewrite Eo. cbn [bind].
    destruct (vget_ok c (outputPos + k) ltac:(lia)) as [a' [Ha' _]].
    rewrite Ha'. cbn [bind].
    match goal with |- context [vset c (outputPos + k) ?v] =>
      destruct (vset_ok c (outputPos + k) v ltac:(lia)) as [c1 [Ec Sc]] end.
    rewrite Ec. cbn [bind].
    exists (o1, c1). split; [reflexivity|]. cbn [fst snd]. lia.
  - cbn [fst snd] in S1, S2. exists o', c'. auto.
Qed.

Definition ts_inv (O bound : Z) (st : ts_state) : Prop :=
  vsize (ts_output st) = O /\ vsize (ts_overlap st) = O
  /\ vsize (ts_phase st) = 2049 /\ vsize (ts_magnitude st) = 2049
  /\ vsize (ts_frame st) = 4096 /\ 0 <= ts_outputPos st <= bound.

Lemma ts_frame_step_outcome (paddedInput analysisWindow synthesisWindow : list F32.t)
  (stretchFactor : F32.t) (synthesisHop pos : Z) (st : ts_state) (O bound : Z) :
  vsize analysisWindow = 4096 -> vsize synthesisWindow = 4096 ->
  0 <= pos -> pos + 4096 <= vsize paddedInput -> vsize paddedInput < size_max ->
  O < size_max -> 0 <= synthesisHop <= 4096 -> bound + 4096 < size_max ->
  ts_inv O bound st ->
  outcome (ts_inv O (bound + 4096)) polar_fault
    (ts_frame_step paddedInput analysisWindow synthesisWindow stretchFactor
       synthesisHop pos st).
Proof.
  intros Haw Hsw Hpos Hfit Hpad HO Hhop Hb [S1 [S2 [S3 [S4 [S5 S6]]]]].
  unfold ts_frame_step.
  match goal with |- context [for_range 0 ts_windowSize ?body ?s] =>
    destruct (for_range_total (fun v : list complex => vsize v = 4096)
                0 ts_windowSize body s) as [frame [E Sf]] end.
  { exact S5. }
  { intros k v Hk Hv. change ts_windowSize with 4096 in Hk.
    rewrite (szadd_small pos k) by lia.
    destruct (vget_ok paddedInput (pos + k) ltac:(lia)) as [p [Hp _]].
    destruct (vget_ok analysisWindow k ltac:(lia)) as [w [Hw _]].
    rewrite Hp. cbn [bind]. rewrite Hw. cbn [bind].
    match goal with |- context [vset v k ?x] =>
      destruct (vset_ok v k x ltac:(lia)) as [v' [Ev Sv]] end.
    exists v'. split; [exact Ev | lia]. }
  rewrite E. cbn [bind].
  destruct (FFT_total frame 12 ltac:(lia) Sf) as [spec [Ef Ss]].
  rewrite Ef. cbn [bind]. rewrite Sf in Ss.
  pose proof (applyPhaseVocoder_outcome spec stretchFactor (ts_phase st) (ts_magnitude st)
                (F32.of_Z analysisHop / F32.of_Z 44100)%f32 Ss S3 S4) as Hv.
  cbv zeta.
  destruct (applyPhaseVocoder spec stretchFactor (ts_phase st) (ts_magnitude st)
              (F32.of_Z analysisHop / F32.of_Z 44100)%f32) as [[[ms pp] pm]|e];
    cbn [bind]; [|exact Hv].
  destruct Hv as [V1 [V2 V3]].
  destruct (IFFT_total ms 12 ltac:(lia) V1) as [pf [Ei Si]].
  rewrite Ei. cbn [bind]. rewrite V1 in Si.
  rewrite (szadd_small (ts_outputPos st) ts_windowSize)
    by (change ts_windowSize with 4096; lia).
  rewrite (szadd_small (ts_outputPos st) synthesisHop) by lia.
  destruct (ts_outputPos st + ts_windowSize <=? vsize (ts_output st)) eqn:Hc.
  - apply Z.leb_le in Hc. change ts_windowSize with 4096 in Hc.
    destruct (overlap_add_total pf synthesisWindow (ts_outputPos st)
                (ts_output st) (ts_overlap st) O Si Hsw S1 S2 ltac:(lia) ltac:(lia) HO)
      as [o' [c' [Eo [So Sc]]]].
    rewrite Eo. cbn [bind].
    unfold outcome, ts_inv; cbn. repeat split; try assumption; lia.
  - cbn [bind].
    unfold outcome, ts_inv; cbn. repeat split; try assumption; lia.
Qed.


Lemma vsize_app {A : Type} (a b : list A) : vsize (a ++ b) = vsize a + vsize b.
Proof. unfold vsize. rewrite length_app. lia. Qed.

Lemma vsize_firstn {A : Type} (n : Z) (v : list A) :
  0 <= n <= vsize v -> vsize (firstn (Z.to_nat n) v) = n.
Proof. unfold vsize. intros H. rewrite length_firstn. lia. Qed.

Lemma frame_loop_outcome (input aw sw : list F32.t) (f : F32.t) (hop O : Z) :
  1 <= vsize input <= 2 ^ 61 -> vsize aw = 4096 -> vsize sw = 4096 ->
  0 <= hop <= 4096 -> 0 <= O < size_max ->
  let padded := vmake ts_windowSize F32.zero ++ input ++ vmake ts_windowSize F32.zero in
  outcome (fun st => vsize (ts_output st) = O /\ vsize (ts_overlap st) = O) polar_fault
    (for_step 0 (vsize padded - ts_windowSize + 1) analysisHop
       (ts_frame_step padded aw sw f hop)
       (mkTs (vmake O F32.zero) (vmake O F32.zero)
             (vmake (ts_windowSize / 2 + 1) F32.zero)
             (vmake (ts_windowSize / 2 + 1) F32.zero)
             (vmake ts_windowSize C32.zero) 0)).
Proof.
  intros Hn Sa Ss Hh HO padded.
  assert (Hp : vsize padded = vsize input + 8192).
  { unfold padded. rewrite !vsize_app, !vmake_size by (change ts_windowSize with 4096; lia).
    change ts_windowSize with 4096. lia. }
  assert (H61 : 2 ^ 61 = 2305843009213693952) by reflexivity.
  assert (Hmax : size_max = 18446744073709551616) by reflexivity.
  match goal with |- outcome _ _ (for_step 0 ?hi analysisHop ?body ?s) =>
    apply (outcome_weaken
             (fun st => exists k,
                ts_inv O (4096 * k) st /\ 4096 * k <= 9223372036854808576));
      [apply (for_step_outcome_idx
                (fun k st => ts_inv O (4096 * k) st /\ 4096 * k <= 9223372036854808576)
                polar_fault 0 hi analysisHop body s)
      | intros st [K [[S1 [S2 _]] _]]; auto] end.
  - reflexivity.
  - rewrite Hp. change ts_windowSize with 4096. lia.
  - split; [|lia]. unfold ts_inv.
    cbn [ts_output ts_overlap ts_phase ts_magnitude ts_frame ts_outputPos].
    change (ts_windowSize / 2 + 1) with 2049. change ts_windowSize with 4096.
    rewrite !vmake_size by lia. repeat split; lia.
  - intros k st Hk Hlt [Hinv Hbound].
    rewrite Hp in Hlt. change ts_windowSize with 4096 in Hlt.
    change analysisHop with 1024 in Hlt |- *.
    apply (outcome_weaken (ts_inv O (4096 * k + 4096))).
    + apply (ts_frame_step_outcome padded aw sw f hop (0 + k * 1024) st O (4096 * k));
        auto; try lia.
    + intros st' Hinv'. split.
      * replace (4096 * (k + 1)) with (4096 * k + 4096) by lia. exact Hinv'.
      * lia.
Qed.

Lemma compensation_total (output overlapCompensation : list F32.t) :
  vsize overlapCompensation = vsize output ->
  exists out,
    for_range 0 (vsize output)
      (fun i output =>
         oc <- vget overlapCompensation i ;;
         if (oc >? F32.lit 1 100)%f32 then
           o <- vget output i ;;
           oc <- vget overlapCompensation i ;;
           vset output i (o / F32.sqrt oc)%f32
         else Ok output)
      output
    = Ok out
    /\ vsize out = vsize output.
Proof.
  intros Hoc.
  apply (for_range_total (fun v : list F32.t => vsize v = vsize output)); [reflexivity|].
  intros k v Hk Hv.
  destruct (vget_ok overlapCompensation k ltac:(lia)) as [oc [Ho _]].
  rewrite Ho. cbn [bind].
  destruct (oc >? F32.lit 1 100)%f32; [|exists v; auto].
  destruct (vget_ok v k ltac:(lia)) as [o [Hv' _]]. rewrite Hv'. cbn [bind].
  match goal with |- context [vset v k ?x] =>
    destruct (vset_ok v k x ltac:(lia)) as [v' [Ev Sv]] end.
  exists v'. split; [exact Ev | lia].
Qed.

Lemma trim_size (E : Z) (output : list F32.t) :
  0 <= E <= vsize output ->
  vsize (if E <? vsize output then firstn (Z.to_nat E) output else output) = E.
Proof.
  intros H. destruct (E <? vsize output) eqn:Hc.
  - apply vsize_firstn. lia.
  - apply Z.ltb_ge in Hc. lia.
Qed.

(** Past its guard clauses [timeStretch] can only stop in [std::polar];
    otherwise the buffer it returns has the length the code calls
    [expectedLength]. *)
Lemma stretch_outcome (input : list F32.t) (f : F32.t) :
  1 <= vsize input <= 2 ^ 61 -> finite_in f (bpow (-2)) (bpow 2) ->
  outcome
    (fun out => F32.to_size (F32.of_Z (vsize input) * f)%f32 = Ok (vsize out))
    polar_fault (stretch input f).
Proof.
  intros Hn Hf. unfold stretch. cbv zeta.
  destruct (stretch_lengths (vsize input) f Hn Hf)
    as [hop [O [E [Eh [EO [EE [Hh [HE HO]]]]]]]].
  rewrite Eh. rewrite bind_ret.
  destruct analysis_window_total as [aw [Ea Sa]]. rewrite Ea. rewrite bind_ret.
  destruct synthesis_window_total as [sw [Es Ss]]. rewrite Es. rewrite bind_ret.
  rewrite EO. rewrite bind_ret.
  assert (HOm : 0 <= O < size_max).
  { assert (2 ^ 63 + 2 ^ 40 < size_max) by reflexivity. lia. }
  apply (outcome_bind (fun st => vsize (ts_output st) = O /\ vsize (ts_overlap st) = O)).
  { apply (frame_loop_outcome input aw sw f hop O Hn Sa Ss Hh HOm). }
  intros st [S1 S2].
  destruct (compensation_total (ts_output st) (ts_overlap st) ltac:(lia)) as [out [Eout Sout]].
  rewrite Eout. rewrite bind_ret. rewrite EE. rewrite bind_ret.
  unfold outcome. f_equal. symmetry.
  rewrite vsize_map.
  pose proof (trim_size E out ltac:(lia)) as Htrim.
  match goal with |- vsize (if ?c then _ else _) = _ => destruct c end.
  - rewrite vsize_map. exact Htrim.
  - exact Htrim.
Qed.

End StretchTotal.

(** ** timeStretch: what the caller gets *)

Lemma SFleb_flip (m1 : positive) (e1 : Z) (m2 : positive) (e2 : Z) :
  SFleb (S754_finite false m1 e1) (S754_finite false m2 e2) = true ->
  SFltb (S754_finite false m2 e2) (S754_finite false m1 e1) = false.
Proof.
  unfold SFleb, SFltb, SFcompare.
  change (Pos.compare_cont Eq m1 m2) with (Pos.compare m1 m2).
  change (Pos.compare_cont Eq m2 m1) with (Pos.compare m2 m1).
  rewrite (Z.compare_antisym e1 e2), (Pos.compare_antisym m1 m2).
  destruct (e1 ?= e2); cbn [CompOpp]; try discriminate; try reflexivity.
  destruct (m1 ?= m2)%positive; cbn [CompOpp]; try discriminate; reflexivity.
Qed.

Lemma SFltb_leb (a b : spec_float) : SFltb a b = true -> SFleb a b = true.
Proof.
  unfold SFltb, SFleb. destruct (SFcompare a b) as [[| |]|]; auto.
Qed.

(** The final safety clipping: [max(-0.95f, min(0.95f, s))]. *)
Definition clipped (s : F32.t) : Prop :=
  (F32.opp (F32.lit 95 100) <=? s)%f32 = true /\ (s <=? F32.lit 95 100)%f32 = true.

Lemma clip_range (s : F32.t) :
  clipped (F32.max (F32.opp (F32.lit 95 100)) (F32.min (F32.lit 95 100) s)).
Proof.
  unfold clipped, F32.max, F32.min, F32.ltb, F32.leb.
  destruct (SFltb s (F32.lit 95 100)) eqn:E1.
  - destruct (SFltb (F32.opp (F32.lit 95 100)) s) eqn:E2.
    + split; apply SFltb_leb; assumption.
    + split; reflexivity.
  - change (SFltb (F32.opp (F32.lit 95 100)) (F32.lit 95 100)) with true. cbv iota.
    split; reflexivity.
Qed.

Section StretchResult.
Context {L : Libm}.

Lemma stretch_clipped (input : list F32.t) (f : F32.t) (out : list F32.t) :
  stretch input f = Ok out -> Forall clipped out.
Proof.
  unfold stretch. cbv zeta. intros H.
  repeat (apply bind_ok in H; destruct H as [? [_ H]]; cbv beta in H).
  injection H as <-. apply Forall_forall. intros s Hs.
  apply in_map_iff in Hs. destruct Hs as [s0 [<- _]]. apply clip_range.
Qed.

Lemma timeStretch_is_stretch (x : list F32.t) (f : F32.t) :
  1 <= vsize x ->
  valid_binary 24 128 f = true ->
  (F32.lit 25 100 <=? f)%f32 = true -> (f <=? F32.of_Z 4)%f32 = true ->
  (F32.abs (f - F32.of_Z 1) <? F32.lit 1 1000)%f32 = false ->
  timeStretch x f = stretch x f /\ finite_in f (bpow (-2)) (bpow 2).
Proof.
  intros Hn Hv Hlo Hhi Hne.
  pose proof (factor_in_range f Hv Hlo Hhi) as Hf. split; [|exact Hf].
  destruct Hf as [m [e [-> [B _]]]].
  unfold timeStretch.
  replace (vsize x =? 0) with false by (symmetry; apply Z.eqb_neq; lia).
  change ((S754_finite false m e <=? F32.zero)%f32) with false. cbn [orb].
  rewrite Hne.
  change (F32.lit 25 100) with (S754_finite false (2 ^ 23) (-2 - 23)) in Hlo |- *.
  change (F32.of_Z 4) with (S754_finite false (2 ^ 23) (2 - 23)) in Hhi |- *.
  unfold F32.gtb, F32.ltb, F32.leb in *.
  rewrite (SFleb_flip _ _ _ _ Hlo), (SFleb_flip _ _ _ _ Hhi). reflexivity.
Qed.

(** For an input of 1 to 2^39 samples and a factor in [0.25, 4] that is
    not within 0.001 of 1, the only fault [timeStretch] can run into is a
    call of [std::polar] outside its precondition (a negative or NaN
    magnitude or a non-finite phase in [applyPhaseVocoder], as NaN or
    overflowing samples produce): no index is out of bounds, no conversion
    to an integer is undefined, [FFT] and [IFFT] do not throw and every
    loop terminates.  When no such fault occurs, the number of samples
    returned is the value the code calls [expectedLength]: the
    single-precision product of the input length and the factor,
    truncated. *)
Theorem timeStretch_output_length (x : list F32.t) (f : F32.t) :
  1 <= vsize x <= 2 ^ 39 ->
  valid_binary 24 128 f = true ->
  (F32.lit 25 100 <=? f)%f32 = true -> (f <=? F32.of_Z 4)%f32 = true ->
  (F32.abs (f - F32.of_Z 1) <? F32.lit 1 1000)%f32 = false ->
  match timeStretch x f with
  | Ok out => F32.to_size (F32.of_Z (vsize x) * f)%f32 = Ok (vsize out)
  | Err e => e = PreconditionViolated
  end.
Proof.
  intros Hn Hv Hlo Hhi Hne.
  destruct (timeStretch_is_stretch x f ltac:(lia) Hv Hlo Hhi Hne) as [E Hf].
  rewrite E.
  assert (Hn' : 1 <= vsize x <= 2 ^ 61).
  { split; [lia|]. transitivity (2 ^ 39); [lia | apply Z.pow_le_mono_r; lia]. }
  exact (stretch_outcome x f Hn' Hf).
Qed.

(** Under the same conditions, whenever [timeStretch] returns, every
    sample of the result lies in [-0.95, 0.95]; in particular none is a
    NaN, whatever the samples of the input. *)
Theorem timeStretch_output_clipped (x : list F32.t) (f : F32.t) :
  1 <= vsize x <= 2 ^ 39 ->
  valid_binary 24 128 f = true ->
  (F32.lit 25 100 <=? f)%f32 = true -> (f <=? F32.of_Z 4)%f32 = true ->
  (F32.abs (f - F32.of_Z 1) <? F32.lit 1 1000)%f32 = false ->
  match timeStretch x f with
  | Ok out => Forall clipped out
  | Err e => e = PreconditionViolated
  end.
Proof.
  intros Hn Hv Hlo Hhi Hne.
  destruct (timeStretch_is_stretch x f ltac:(lia) Hv Hlo Hhi Hne) as [E Hf].
  rewrite E.
  assert (Hn' : 1 <= vsize x <= 2 ^ 61).
  { split; [lia|]. transitivity (2 ^ 39); [lia | apply Z.pow_le_mono_r; lia]. }
  pose proof (stretch_outcome x f Hn' Hf) as H.
  destruct (stretch x f) as [out|e] eqn:Es; [|exact H].
  apply (stretch_clipped x f out Es).
Qed.

(** A NaN factor passes the three guard clauses, all of which are
    comparisons, and reaches the conversion of [analysisHop * stretchFactor]
    to [unsigned int], which is undefined for a NaN. *)
Theorem timeStretch_nan_factor (x : list F32.t) :
  vsize x <> 0 -> timeStretch x F32.nan = Err CastOutOfRange.
Proof.
  intros Hn. unfold timeStretch.
  replace (vsize x =? 0) with false by (symmetry; apply Z.eqb_neq; exact Hn).
  change ((F32.nan <=? F32.zero)%f32) with false. cbn [orb].
  change ((F32.abs (F32.nan - F32.of_Z 1) <? F32.lit 1 1000)%f32) with false.
  change ((F32.nan <? F32.lit 25 100)%f32) with false.
  change ((F32.nan >? F32.of_Z 4)%f32) with false. cbn [orb].
  unfold stretch. cbv zeta.
  assert (E : F32.to_u32 (F32.of_Z analysisHop * F32.nan)%f32 = Err CastOutOfRange)
    by reflexivity.
  rewrite E. reflexivity.
Qed.

End StretchResult.

Lemma timeStretch_output_length_witness :
  match @timeStretch libm_unit [F32.zero; F32.zero; F32.zero] (F32.lit 3 2) with
  | Ok out => vsize out = 4
  | Err e => e = PreconditionViolated
  end.
Proof.
  pose proof (@timeStretch_output_length libm_unit [F32.zero; F32.zero; F32.zero]
                (F32.lit 3 2)) as H.
  destruct (@timeStretch libm_unit [F32.zero; F32.zero; F32.zero] (F32.lit 3 2))
    as [out|e].
  - assert (S : F32.to_size (F32.of_Z (vsize [F32.zero; F32.zero; F32.zero])
                             * F32.lit 3 2)%f32 = Ok (vsize out)).
    { apply H; try reflexivity. vm_compute. split; discriminate. }
    vm_compute in S. injection S as S. unfold vsize. symmetry. exact S.
  - apply H; try reflexivity. vm_compute. split; discriminate.
Defined.

Lemma timeStretch_output_clipped_witness :
  match @timeStretch libm_unit [F32.zero; F32.zero; F32.zero] (F32.lit 3 2) with
  | Ok out => Forall clipped out
  | Err e => e = PreconditionViolated
  end.
Proof.
  apply (@timeStretch_output_clipped libm_unit [F32.zero; F32.zero; F32.zero]
           (F32.lit 3 2)); try reflexivity.
  vm_compute. split; discriminate.
Defined.

Lemma timeStretch_nan_factor_witness :
  @timeStretch libm_at_zero [F32.zero] F32.nan = Err CastOutOfRange.
Proof.
  apply (@timeStretch_nan_factor libm_at_zero [F32.zero]). discriminate.
Defined.

(** ** findBeats: the frames it returns *)

Lemma for_range_empty {St : Type} (lo hi : Z) (body : Z -> St -> result St) (s : St) :
  hi <= lo -> for_range lo hi body s = Ok s.
Proof.
  intros H. rewrite for_range_for_loop.
  replace (Z.to_nat (hi - lo)) with 0%nat by lia. reflexivity.
Qed.

Lemma StronglySorted_snoc (l : list Z) (k : Z) :
  StronglySorted Z.lt l -> (forall p, In p l -> p < k) ->
  StronglySorted Z.lt (l ++ [k]).
Proof.
  intros Hs. induction Hs as [|a l Hs IH Ha]; intros Hk; cbn [app].
  - constructor; constructor.
  - constructor.
    + apply IH. intros p Hp. apply Hk. now right.
    + apply Forall_app. split; [exact Ha|]. constructor; [|constructor].
      apply Hk. now left.
Qed.

(** The value of frame [i], for an index inside the vector. *)
Definition sample_at (v : list F32.t) (i : Z) : F32.t := nth (Z.to_nat i) v F32.zero.

(** The two tests of the peak loop at frame [p]: the frame is not discarded
    by [onsetFunction[p] <= threshold[p]], and no frame at distance 1..9
    is greater. *)
Definition beat_candidate (env thr : list F32.t) (p : Z) : Prop :=
  (sample_at env p <=? sample_at thr p)%f32 = false
  /\ forall j, -9 <= j <= 9 -> j <> 0 ->
       (sample_at env (p + j) >? sample_at env p)%f32 = false.

Lemma vget_sample (v : list F32.t) (i : Z) :
  0 <= i < vsize v -> vget v i = Ok (sample_at v i).
Proof.
  intros Hi. destruct (vget_ok v i Hi) as [a [Ha Hn]]. rewrite Ha. f_equal.
  unfold sample_at. symmetry. apply nth_error_nth. exact Hn.
Qed.

Lemma is_local_max_spec (env : list F32.t) (i : Z) (js : list Z) :
  0 <= i < vsize env -> vsize env <= int_max ->
  Forall (fun j => 0 <= i + j < vsize env) js ->
  exists b, is_local_max env (vsize env) i js = Ok b
    /\ (b = true <->
        forall j, In j js -> j <> 0 -> (sample_at env (i + j) >? sample_at env i)%f32 = false).
Proof.
  intros Hi Hlen Hjs. induction Hjs as [|j js Hj _ IH]; cbn [is_local_max].
  - exists true. split; [reflexivity|]. split; [intros _ j []|reflexivity].
  - destruct IH as [b [Eb Hb]].
    destruct (j =? 0) eqn:Ej.
    + apply Z.eqb_eq in Ej. exists b. split; [exact Eb|]. rewrite Hb. split.
      * intros H j' [<-|Hin] Hne; [contradiction | now apply H].
      * intros H j' Hin Hne. apply H; [now right | exact Hne].
    + apply Z.eqb_neq in Ej.
      rewrite (to_int_small i) by lia. rewrite (to_int_small (vsize env)) by lia.
      unfold int_add. cbv zeta.
      replace ((int_min <=? i + j) && (i + j <=? int_max)) with true
        by (symmetry; apply andb_true_iff; unfold int_min, int_max in *; lia).
      cbn [bind].
      replace ((0 <=? i + j) && (i + j <? vsize env)) with true
        by (symmetry; apply andb_true_iff; lia).
      rewrite (vget_sample env (i + j)) by lia. cbn [bind].
      rewrite (vget_sample env i) by lia. cbn [bind].
      destruct (sample_at env (i + j) >? sample_at env i)%f32 eqn:G.
      * exists false. split; [reflexivity|]. split; [discriminate|].
        intros H. specialize (H j (or_introl eq_refl) Ej). congruence.
      * exists b. split; [exact Eb|]. rewrite Hb. split.
        -- intros H j' [<-|Hin] Hne; [exact G | now apply H].
        -- intros H j' Hin Hne. apply H; [now right | exact Hne].
Qed.

Lemma peak_step_spec (env thr : list F32.t) (i : Z) (peaks : list Z) :
  windowSize <= i < vsize env - windowSize -> vsize env <= int_max ->
  vsize thr = vsize env ->
  (beat_candidate env thr i /\ peak_step env thr (vsize env) i peaks = Ok (peaks ++ [i]))
  \/ (~ beat_candidate env thr i /\ peak_step env thr (vsize env) i peaks = Ok peaks).
Proof.
  intros Hi Hlen Hthr. unfold windowSize in Hi. unfold peak_step, beat_candidate.
  rewrite (vget_sample env i) by lia. cbn [bind].
  rewrite (vget_sample thr i) by lia. cbn [bind].
  destruct (sample_at env i <=? sample_at thr i)%f32.
  { right. split; [|reflexivity]. intros [H _]. discriminate. }
  destruct (is_local_max_spec env i (zrange (- windowSize) (windowSize + 1)))
    as [b [Eb Hb]]; [lia | exact Hlen | |].
  { apply Forall_forall. intros j Hj. apply zrange_bounds in Hj.
    unfold windowSize in Hj. lia. }
  rewrite Eb. cbn [bind]. destruct b.
  - left. split; [|reflexivity]. split; [reflexivity|].
    intros j Hj Hne. apply (proj1 Hb eq_refl); [|exact Hne].
    apply zrange_bounds. unfold windowSize. lia.
  - right. split; [|reflexivity]. intros [_ H].
    assert (false = true); [|discriminate]. apply Hb. intros j Hj Hne. apply H; [|exact Hne].
    apply zrange_bounds in Hj. unfold windowSize in Hj. lia.
Qed.

Lemma findBeats_spec (env : list F32.t) (f : F32.t) :
  9 <= vsize env <= int_max ->
  exists thr peaks,
    adaptive_threshold env f = Ok thr /\ vsize thr = vsize env
    /\ findBeats env f = Ok peaks
    /\ StronglySorted Z.lt peaks
    /\ forall p, In p peaks <-> 9 <= p < vsize env - 9 /\ beat_candidate env thr p.
Proof.
  intros Hlen. unfold findBeats. cbv zeta.
  destruct (adaptive_threshold_total env f) as [thr [Hthr Hsz]].
  exists thr. rewrite Hthr. cbn [bind].
  rewrite (szsub_small (vsize env) windowSize)
    by (unfold windowSize, size_max, int_max in *; lia).
  unfold windowSize at 1 2.
  destruct (Z.le_gt_cases 9 (vsize env - 9)) as [Hge|Hlt].
  - destruct (for_range_total_idx
                (fun k peaks =>
                   StronglySorted Z.lt peaks
                   /\ forall p, In p peaks <-> 9 <= p < k /\ beat_candidate env thr p)
                9 (vsize env - 9) (peak_step env thr (vsize env)) [])
      as [peaks [E [Hs Hp]]].
    + exact Hge.
    + split; [constructor|]. intros p. split; [intros [] | lia].
    + intros k peaks Hk [Hs Hp].
      destruct (peak_step_spec env thr k peaks ltac:(unfold windowSize; lia) ltac:(lia) Hsz)
        as [[Hc E]|[Hc E]]; rewrite E; eexists; (split; [reflexivity|]).
      * split.
        -- apply StronglySorted_snoc; [exact Hs|]. intros p Hin. apply Hp in Hin. lia.
        -- intros p. rewrite in_app_iff, Hp. cbn [In]. split.
           ++ intros [[H1 H2]|[<-|[]]]; split; auto; lia.
           ++ intros [H1 H2]. destruct (Z.eq_dec p k) as [->|Hne]; [right; now left|].
              left. split; [lia | exact H2].
      * split; [exact Hs|]. intros p. rewrite Hp. split.
        -- intros [H1 H2]. split; [lia | exact H2].
        -- intros [H1 H2]. destruct (Z.eq_dec p k) as [->|Hne]; [contradiction|].
           split; [lia | exact H2].
    + exists peaks. auto.
  - rewrite for_range_empty by lia. exists [].
    split; [reflexivity|]. split; [exact Hsz|]. split; [reflexivity|].
    split; [constructor|]. intros p. split; [intros [] | intros [H _]; lia].
Qed.

(** [findBeats] returns, in strictly ascending order, exactly the frames
    [p] with 9 <= p < length - 9 that pass both tests of the peak loop: the
    frame is not discarded by the comparison with its adaptive threshold,
    and none of the 18 frames around it is strictly greater. *)
Theorem findBeats_characterisation (onsetFunction : list F32.t) (thresholdFactor : F32.t) :
  9 <= vsize onsetFunction <= int_max ->
  exists threshold peaks,
    adaptive_threshold onsetFunction thresholdFactor = Ok threshold
    /\ findBeats onsetFunction thresholdFactor = Ok peaks
    /\ StronglySorted Z.lt peaks
    /\ forall p, In p peaks <->
         9 <= p < vsize onsetFunction - 9 /\ beat_candidate onsetFunction threshold p.
Proof.
  intros Hlen.
  destruct (findBeats_spec onsetFunction thresholdFactor Hlen)
    as [thr [peaks [E1 [_ [E2 [Hs Hp]]]]]].
  exists thr, peaks. auto.
Qed.

Lemma findBeats_characterisation_witness :
  exists threshold peaks,
    adaptive_threshold flat_envelope (F32.lit 13 10) = Ok threshold
    /\ findBeats flat_envelope (F32.lit 13 10) = Ok peaks
    /\ StronglySorted Z.lt peaks
    /\ forall p, In p peaks <->
         9 <= p < vsize flat_envelope - 9 /\ beat_candidate flat_envelope threshold p.
Proof.
  apply (findBeats_characterisation flat_envelope (F32.lit 13 10)).
  vm_compute. split; discriminate.
Defined.

Lemma findBeats_no_interior (env : list F32.t) (f : F32.t) :
  9 <= vsize env <= 18 -> findBeats env f = Ok [].
Proof.
  intros Hlen.
  destruct (findBeats_spec env f ltac:(unfold int_max; lia))
    as [thr [peaks [_ [_ [E [_ Hp]]]]]].
  rewrite E. f_equal. destruct peaks as [|p peaks]; [reflexivity|].
  destruct (proj1 (Hp p) (or_introl eq_refl)) as [H _]. lia.
Qed.

(** An envelope of 9 to 18 frames has no frame with 9 neighbours on each
    side: [findBeats] returns no beat, whatever the values. *)
Theorem findBeats_few_frames (onsetFunction : list F32.t) (thresholdFactor : F32.t) :
  9 <= vsize onsetFunction <= 18 ->
  findBeats onsetFunction thresholdFactor = Ok [].
Proof.
  intros Hlen. apply findBeats_no_interior. exact Hlen.
Qed.

Lemma findBeats_few_frames_witness :
  findBeats (repeat (F32.of_Z 1) 18) (F32.lit 13 10) = Ok [].
Proof.
  apply (findBeats_few_frames (repeat (F32.of_Z 1) 18) (F32.lit 13 10)).
  vm_compute. split; discriminate.
Defined.

(** ** detectOnsets: the values of the envelope *)

Lemma list_update_Forall {A : Type} (P : A -> Prop) (v : list A) (n : nat) (a : A) :
  Forall P v -> P a -> Forall P (list_update v n a).
Proof.
  intros Hv Ha. revert n. induction Hv as [|h t Hh Ht IH]; intros n.
  - destruct n; constructor.
  - destruct n as [|n]; cbn [list_update]; constructor; auto.
Qed.

Lemma vset_Forall {A : Type} (P : A -> Prop) (v v' : list A) (i : Z) (a : A) :
  Forall P v -> P a -> vset v i a = Ok v' -> Forall P v'.
Proof.
  unfold vset. intros Hv Ha. destruct ((0 <=? i) && (i <? vsize v)); [|discriminate].
  intros H. injection H as <-. apply list_update_Forall; assumption.
Qed.

(** A value that compares greater than or equal to zero: a zero, a positive
    number or plus infinity, never a NaN. *)
Definition nonnegative (x : F32.t) : Prop := (F32.zero <=? x)%f32 = true.

Section OnsetValues.
Context {L : Libm}.

Lemma median_filter_nonnegative (onsetStrength mf : list F32.t) :
  median_filter onsetStrength = Ok mf -> Forall nonnegative mf.
Proof.
  unfold median_filter. intros H.
  match type of H with (' _ <- for_range 0 ?m ?body ?s ;; _) = _ =>
    pose proof (for_range_inv
      (fun st : list F32.t * list F32.t => Forall nonnegative (fst st))
      (fun _ => True) 0 m body s) as Hinv;
    destruct (for_range 0 m body s) as [[mf' w]|e]; [|discriminate] end.
  cbn [bind] in H. injection H as <-. apply Hinv.
  - cbn [fst]. unfold vmake. apply Forall_forall. intros x Hx.
    apply repeat_spec in Hx. subst x. reflexivity.
  - intros k [mf0 w0] Hk Hst. cbn [fst] in Hst.
    destruct (median_window onsetStrength k w0) as [w1|]; cbn [bind]; [|exact I].
    destruct (vget (sort_floats w1) (medianSize / 2)) as [m|]; cbn [bind]; [|exact I].
    destruct (vget onsetStrength k) as [o|]; cbn [bind]; [|exact I].
    destruct (vset mf0 k _) as [mf1|] eqn:E; cbn [bind fst]; [|exact I].
    apply (vset_Forall _ _ _ _ _ Hst) in E; [exact E|].
    unfold nonnegative. destruct (o - m >? F32.zero)%f32 eqn:G; [|reflexivity].
    unfold F32.gtb in G. unfold F32.leb. apply SFltb_leb. exact G.
Qed.

Lemma detectOnsets_values (samples env : list F32.t) (sampleRate : Z) :
  detectOnsets samples sampleRate = Ok env -> Forall nonnegative env.
Proof.
  unfold detectOnsets. cbv zeta. intros H.
  do 4 (apply bind_ok in H; destruct H as [? [_ H]]; cbv beta in H).
  apply median_filter_nonnegative in H. exact H.
Qed.

(** For an input of at least 1024 samples [detectOnsets] returns one value
    per analysis frame, and every value compares greater than or equal to
    zero: the envelope holds no negative number and no NaN, whatever the
    samples are (NaN and infinite samples included). *)
Theorem detectOnsets_nonnegative (samples : list F32.t) (sampleRate : Z) :
  1024 <= vsize samples <= 2 ^ 39 ->
  exists env,
    detectOnsets samples sampleRate = Ok env
    /\ vsize env = (vsize samples - 1024) / 512 + 1
    /\ Forall nonnegative env.
Proof.
  intros Hn. destruct (detectOnsets_total samples sampleRate Hn) as [env [E S]].
  exists env. split; [exact E|]. split; [exact S|].
  apply (detectOnsets_values samples env sampleRate E).
Qed.

End OnsetValues.

Lemma detectOnsets_nonnegative_witness :
  exists env,
    @detectOnsets libm_at_zero (repeat F32.nan 1536) 44100 = Ok env
    /\ vsize env = 2
    /\ Forall nonnegative env.
Proof.
  apply (@detectOnsets_nonnegative libm_at_zero (repeat F32.nan 1536) 44100).
  vm_compute. split; discriminate.
Defined.

(** ** estimateTempo: the iteration order of the histogram *)

Lemma SFcompare_antisym (x y : spec_float) :
  SFcompare y x = option_map CompOpp (SFcompare x y).
Proof.
  destruct x as [sx|sx| |sx mx ex], y as [sy|sy| |sy my ey]; try reflexivity;
    try (destruct sx; reflexivity); try (destruct sy; reflexivity);
    try (destruct sx, sy; reflexivity).
  unfold SFcompare.
  change (Pos.compare_cont Eq mx my) with (Pos.compare mx my).
  change (Pos.compare_cont Eq my mx) with (Pos.compare my mx).
  rewrite (Z.compare_antisym ex ey), (Pos.compare_antisym mx my).
  destruct sx, sy; cbn [option_map CompOpp]; try reflexivity;
    destruct (ex ?= ey); cbn [CompOpp]; try reflexivity;
    destruct (mx ?= my)%positive; reflexivity.
Qed.

Lemma SFltb_asym (x y : spec_float) : SFltb x y = true -> SFltb y x = false.
Proof.
  unfold SFltb. rewrite (SFcompare_antisym x y).
  destruct (SFcompare x y) as [[| |]|]; cbn; congruence.
Qed.

Lemma SFltb_irrefl (x : spec_float) : SFltb x x = false.
Proof.
  destruct (SFltb x x) eqn:E; [|reflexivity].
  pose proof (SFltb_asym x x E). congruence.
Qed.

(** The histogram [estimateTempo] builds from the beats. *)
Definition tempo_histogram (beats : list Z) (sampleRate hopSize : Z)
  : result (list (Z * F32.t)) :=
  intervals <- collect_intervals (map (beat_time sampleRate hopSize) beats) ;;
  build_histogram intervals.

(** Bucket [ks] holds a positive score that is strictly greater than the
    score of every other bucket. *)
Definition dominant (h : list (Z * F32.t)) (ks : Z) (vs : F32.t) : Prop :=
  In (ks, vs) h
  /\ (vs >? F32.zero)%f32 = true
  /\ forall k v, In (k, v) h -> (k, v) = (ks, vs) \/ (vs >? v)%f32 = true.

Lemma strongest_of_dominant (h l : list (Z * F32.t)) (ks : Z) (vs : F32.t) :
  dominant h ks vs -> Permutation h l -> strongest l 0 F32.zero = (ks, vs).
Proof.
  intros [Hin [Hpos Hall]] Hp.
  apply strongest_dominant.
  - apply (Permutation_in _ Hp). exact Hin.
  - intros k v Hkv. apply (Permutation_in _ (Permutation_sym Hp)) in Hkv.
    destruct (Hall k v Hkv) as [Heq|Hlt].
    + injection Heq as -> ->. split; [apply SFltb_irrefl | now left].
    + split; [|now right]. unfold F32.gtb in *. apply SFltb_asym. exact Hlt.
  - exact Hpos.
Qed.

(** When one bucket of the tempo histogram holds a score strictly greater
    than every other, the result of [estimateTempo] is the same for every
    order in which the hash map may be iterated. *)
Theorem estimateTempo_order_independent
  (order1 order2 : list (Z * F32.t) -> list (Z * F32.t))
  (beats : list Z) (sampleRate hopSize : Z) (h : list (Z * F32.t)) (ks : Z) (vs : F32.t) :
  (forall l, Permutation l (order1 l)) -> (forall l, Permutation l (order2 l)) ->
  tempo_histogram beats sampleRate hopSize = Ok h ->
  dominant h ks vs ->
  estimateTempo order1 beats sampleRate hopSize
  = estimateTempo order2 beats sampleRate hopSize.
Proof.
  intros H1 H2 Hh Hd. unfold estimateTempo. cbv zeta.
  destruct (vsize beats <? 4); [reflexivity|].
  unfold tempo_histogram in Hh.
  destruct (collect_intervals (map (beat_time sampleRate hopSize) beats)) as [ivs|e];
    [|reflexivity].
  cbn [bind] in Hh |- *.
  destruct (vsize ivs =? 0); [reflexivity|].
  rewrite Hh. cbn [bind].
  rewrite (strongest_of_dominant h (order1 h) ks vs Hd (H1 h)).
  rewrite (strongest_of_dominant h (order2 h) ks vs Hd (H2 h)).
  reflexivity.
Qed.

Lemma estimateTempo_order_independent_witness :
  estimateTempo (fun l => l) tempo_beats 1000 1
  = estimateTempo (@rev (Z * F32.t)) tempo_beats 1000 1.
Proof.
  assert (Hh : exists h, tempo_histogram tempo_beats 1000 1 = Ok h
                 /\ exists vs, dominant h 240 vs).
  { eexists. split; [vm_compute; reflexivity|].
    eexists. split; [|split].
    - left. reflexivity.
    - vm_compute. reflexivity.
    - intros k v Hin.
      repeat (destruct Hin as [Hin|Hin];
              [injection Hin as <- <-; first [left; reflexivity | right; vm_compute; reflexivity]|]).
      destruct Hin. }
  destruct Hh as [h [Hh [vs Hd]]].
  apply (estimateTempo_order_independent (fun l => l) (@rev (Z * F32.t))
           tempo_beats 1000 1 h 240 vs).
  - intros l. apply Permutation_refl.
  - intros l. apply Permutation_rev.
  - exact Hh.
  - exact Hd.
Defined.

(** ** FFT and IFFT on [std::complex<float>] *)

(** On a sequence whose length is a power of two (below 2^63) [FFT]
    returns: the bit-reversal loop terminates, no element is read or
    written out of bounds and no exception is thrown; the length is
    unchanged.  The same holds for [IFFT] applied to the result. *)
Theorem FFT_IFFT_power_of_two {L : Libm} (x : list complex) (n : nat) :
  (n < 63)%nat -> vsize x = 2 ^ Z.of_nat n ->
  exists y z, FFT x = Ok y /\ vsize y = vsize x /\ IFFT y = Ok z /\ vsize z = vsize x.
Proof.
  intros Hn Hx.
  destruct (FFT_total x n Hn Hx) as [y [Ey Sy]].
  destruct (IFFT_total y n Hn ltac:(congruence)) as [z [Ez Sz]].
  exists y, z. repeat split; congruence.
Qed.

Lemma FFT_IFFT_power_of_two_witness :
  exists y z,
    @FFT _ (@c32_arith libm_at_zero) [mkC (F32.of_Z 1) F32.zero; mkC (F32.of_Z 2) F32.zero] = Ok y
    /\ vsize y = 2
    /\ @IFFT _ (@c32_arith libm_at_zero) y = Ok z /\ vsize z = 2.
Proof.
  apply (@FFT_IFFT_power_of_two libm_at_zero
           [mkC (F32.of_Z 1) F32.zero; mkC (F32.of_Z 2) F32.zero] 1); [lia | reflexivity].
Defined.

(** ** applyPhaseVocoder: the spectrum it returns *)

(** Bin [i] of a spectrum, for an index inside the vector. *)
Definition bin (v : list complex) (i : Z) : complex := nth (Z.to_nat i) v C32.zero.

Lemma vget_bin (v : list complex) (i : Z) (c : complex) :
  0 <= i -> nth_error v (Z.to_nat i) = Some c -> bin v i = c.
Proof. intros _ H. unfold bin. apply nth_error_nth. exact H. Qed.

Section VocoderSpectrum.
Context {L : Libm}.

(** The loop that mirrors bins 1 .. N/2 - 1 into the upper half. *)
Lemma mirror_loop (N : Z) (ms1 : list complex) :
  2 <= N -> vsize ms1 = N ->
  exists ms,
    for_range 1 (N / 2)
      (fun i ms => c <- vget ms i ;; vset ms (N - i) (C32.conj c)) ms1 = Ok ms
    /\ vsize ms = N
    /\ (forall j, 0 <= j <= N / 2 -> nth_error ms (Z.to_nat j) = nth_error ms1 (Z.to_nat j))
    /\ (forall i, 1 <= i < N / 2 ->
          nth_error ms (Z.to_nat (N - i))
          = option_map C32.conj (nth_error ms1 (Z.to_nat i))).
Proof.
  intros HN Hs.
  assert (Hhalf : 1 <= N / 2) by (apply Z.div_le_lower_bound; lia).
  assert (Hle : N / 2 + N / 2 <= N).
  { pose proof (Z.mul_div_le N 2 ltac:(lia)). lia. }
  apply (for_range_total_idx
           (fun k ms =>
              vsize ms = N
              /\ (forall j, 0 <= j <= N / 2 ->
                    nth_error ms (Z.to_nat j) = nth_error ms1 (Z.to_nat j))
              /\ (forall i, 1 <= i < k ->
                    nth_error ms (Z.to_nat (N - i))
                    = option_map C32.conj (nth_error ms1 (Z.to_nat i))))).
  - exact Hhalf.
  - split; [exact Hs|]. split; [reflexivity | intros i Hi; lia].
  - intros k ms Hk [Sz [Hlow Hup]].
    destruct (vget_ok ms k ltac:(lia)) as [c [Hc Hn]]. rewrite Hc. cbn [bind].
    destruct (vset_get ms (N - k) (C32.conj c) ltac:(lia)) as [ms' [E [Sz' Hget]]].
    exists ms'. split; [exact E|]. split; [lia|]. split.
    + intros j Hj. rewrite (Hget j) by lia.
      replace (j =? N - k) with false by (symmetry; apply Z.eqb_neq; lia).
      apply Hlow. exact Hj.
    + intros i Hi. rewrite (Hget (N - i)) by lia.
      destruct (Z.eq_dec i k) as [->|Hne].
      * rewrite Z.eqb_refl. rewrite <- (Hlow k) by lia. rewrite Hn. reflexivity.
      * replace (N - i =? N - k) with false by (symmetry; apply Z.eqb_neq; lia).
        apply Hup. lia.
Qed.

(** For a spectrum of even length N >= 2 and phase and magnitude buffers
    of at least N/2 + 1 elements each, the only fault [applyPhaseVocoder]
    can run into is a call of [std::polar] outside its precondition (the
    magnitude of a bin is negative or a NaN, or its new phase is not
    finite); no index is out of bounds.  When it returns, the two buffers
    keep their lengths and the spectrum is conjugate-symmetric: bin N - i
    is the conjugate of bin i for 0 < i < N/2, and the DC and Nyquist bins
    have a zero imaginary part. *)
Theorem applyPhaseVocoder_conjugate_symmetric (spectrum : list complex) (stretchFactor : F32.t)
  (previousPhase previousMagnitude : list F32.t) (frameDelta : F32.t) :
  2 <= vsize spectrum < 2 ^ 60 -> vsize spectrum mod 2 = 0 ->
  vsize spectrum / 2 + 1 <= vsize previousPhase ->
  vsize spectrum / 2 + 1 <= vsize previousMagnitude ->
  match
    applyPhaseVocoder spectrum stretchFactor previousPhase previousMagnitude frameDelta
  with
  | Ok (out, pp, pm) =>
      vsize out = vsize spectrum
      /\ vsize pp = vsize previousPhase /\ vsize pm = vsize previousMagnitude
      /\ im (bin out 0) = F32.zero
      /\ im (bin out (vsize spectrum / 2)) = F32.zero
      /\ forall i, 1 <= i < vsize spectrum / 2 ->
           bin out (vsize spectrum - i) = C32.conj (bin out i)
  | Err e => e = PreconditionViolated
  end.
Proof.
  intros HN Heven Hpp Hpm. unfold applyPhaseVocoder. cbv zeta.
  set (N := vsize spectrum) in *. set (M := vsize previousPhase) in *.
  set (M' := vsize previousMagnitude) in *.
  assert (Hhalf : 1 <= N / 2) by (apply Z.div_le_lower_bound; lia).
  assert (Hle : N / 2 + N / 2 <= N).
  { pose proof (Z.mul_div_le N 2 ltac:(lia)). lia. }
  assert (H63 : 2 ^ 60 = 1152921504606846976) by reflexivity.
  assert (Hmax : size_max = 18446744073709551616) by reflexivity.
  rewrite (szadd_small (N / 2) 1) by lia.
  rewrite (szsub_small (N / 2 + 1) 1) by lia.
  replace (N / 2 + 1 - 1) with (N / 2) by lia.
  replace (N mod 2 =? 0) with true by (symmetry; apply Z.eqb_eq; exact Heven).
  destruct (transient_scan_total spectrum previousMagnitude (zrange 1 (N / 2)) F32.zero)
    as [b Hb].
  { intros i Hi. apply zrange_bounds in Hi. fold N. fold M'. lia. }
  rewrite Hb. cbn [bind].
  match goal with |- context [for_range 0 (N / 2 + 1) ?body ?s] =>
    pose proof (for_range_outcome (vocoder_sizes N M M') polar_fault
                  0 (N / 2 + 1) body s) as Hloop;
    destruct (for_range 0 (N / 2 + 1) body s) as [[[ms1 pp] pm]|e]; cbn [bind] end.
  2: { apply Hloop.
       - unfold vocoder_sizes. rewrite vmake_size by lia. auto.
       - intros k st Hk Hst.
         apply (vocoder_bin_outcome _ _ _ _ _ _ _ N M M'); auto; lia. }
  destruct Hloop as [S1 [S2 S3]].
  { unfold vocoder_sizes. rewrite vmake_size by lia. auto. }
  { intros k st Hk Hst.
    apply (vocoder_bin_outcome _ _ _ _ _ _ _ N M M'); auto; lia. }
  destruct (mirror_loop N ms1 ltac:(lia) S1) as [ms2 [E2 [Sz2 [Hlow Hup]]]].
  rewrite E2. cbn [bind].
  destruct (vget_ok ms2 0 ltac:(lia)) as [c0 [Hc0 Hn0]]. rewrite Hc0. cbn [bind].
  destruct (vset_get ms2 0 (mkC (re c0) F32.zero) ltac:(lia)) as [ms3 [E3 [Sz3 Hg3]]].
  rewrite E3. cbn [bind].
  destruct (vget_ok ms3 (N / 2) ltac:(lia)) as [c1 [Hc1 Hn1]]. rewrite Hc1. cbn [bind].
  destruct (vset_get ms3 (N / 2) (mkC (re c1) F32.zero) ltac:(lia)) as [ms4 [E4 [Sz4 Hg4]]].
  rewrite E4. cbn [bind].
  split; [lia|]. split; [exact S2|]. split; [exact S3|].
  split; [|split].
  - rewrite (vget_bin ms4 0 (mkC (re c0) F32.zero)); [reflexivity | lia |].
    rewrite (Hg4 0) by lia.
    replace (0 =? N / 2) with false by (symmetry; apply Z.eqb_neq; lia).
    rewrite (Hg3 0) by lia. reflexivity.
  - rewrite (vget_bin ms4 (N / 2) (mkC (re c1) F32.zero)); [reflexivity | lia |].
    rewrite (Hg4 (N / 2)) by lia. rewrite Z.eqb_refl. reflexivity.
  - intros i Hi.
    destruct (vget_ok ms1 i ltac:(lia)) as [c [_ Hc]].
    assert (Hlo_i : nth_error ms4 (Z.to_nat i) = Some c).
    { rewrite (Hg4 i) by lia.
      replace (i =? N / 2) with false by (symmetry; apply Z.eqb_neq; lia).
      rewrite (Hg3 i) by lia.
      replace (i =? 0) with false by (symmetry; apply Z.eqb_neq; lia).
      rewrite (Hlow i) by lia. exact Hc. }
    assert (Hhi_i : nth_error ms4 (Z.to_nat (N - i)) = Some (C32.conj c)).
    { rewrite (Hg4 (N - i)) by lia.
      replace (N - i =? N / 2) with false by (symmetry; apply Z.eqb_neq; lia).
      rewrite (Hg3 (N - i)) by lia.
      replace (N - i =? 0) with false by (symmetry; apply Z.eqb_neq; lia).
      rewrite (Hup i) by lia. rewrite Hc. reflexivity. }
    rewrite (vget_bin ms4 (N - i) _ ltac:(lia) Hhi_i).
    rewrite (vget_bin ms4 i _ ltac:(lia) Hlo_i). reflexivity.
Qed.

End VocoderSpectrum.

Lemma applyPhaseVocoder_conjugate_symmetric_witness :
  exists out pp pm,
    @applyPhaseVocoder libm_unit
      [mkC (F32.of_Z 1) F32.zero; mkC (F32.of_Z 2) F32.zero;
       mkC (F32.of_Z 3) F32.zero; mkC (F32.of_Z 4) F32.zero]
      (F32.of_Z 2) [F32.zero; F32.zero; F32.zero]
      [F32.zero; F32.zero; F32.zero; F32.zero] (F32.lit 1 100)
    = Ok (out, pp, pm)
    /\ vsize out = 4
    /\ bin out 3 = C32.conj (bin out 1).
Proof.
  pose proof (@applyPhaseVocoder_conjugate_symmetric libm_unit
                [mkC (F32.of_Z 1) F32.zero; mkC (F32.of_Z 2) F32.zero;
                 mkC (F32.of_Z 3) F32.zero; mkC (F32.of_Z 4) F32.zero]
                (F32.of_Z 2) [F32.zero; F32.zero; F32.zero]
                [F32.zero; F32.zero; F32.zero; F32.zero] (F32.lit 1 100)) as H.
  destruct (@applyPhaseVocoder libm_unit _ _ _ _ _) as [[[out pp] pm]|e] eqn:E.
  - destruct H as [S [_ [_ [_ [_ H]]]]].
    + vm_compute. split; [discriminate | reflexivity].
    + reflexivity.
    + vm_compute. discriminate.
    + vm_compute. discriminate.
    + exists out, pp, pm. split; [reflexivity|]. split; [exact S|].
      apply (H 1). vm_compute. split; [discriminate | reflexivity].
  - vm_compute in E. discriminate.
Defined.

(** ** loadAudio: the rate, the number of samples and their values *)

Import LoadAudioFunction.

Lemma szmul_small (a b : Z) : 0 <= a * b < size_max -> szmul a b = a * b.
Proof. intros H. unfold szmul. apply Z.mod_small. exact H. Qed.

(** The mean of block [i] of [factor] samples as a reader would compute it:
    the samples [i * factor, ..., i * factor + factor - 1] summed from left
    to right in single precision, starting from 0, and the sum divided by
    [float(factor)]. *)
Definition block_average (audio : list F32.t) (factor i : Z) : F32.t :=
  (fold_left F32.add
     (firstn (Z.to_nat factor) (skipn (Z.to_nat (i * factor)) audio)) F32.zero
   / F32.of_Z factor)%f32.

Lemma firstn_snoc {A : Type} (l : list A) (k : nat) (a : A) :
  nth_error l k = Some a -> firstn (S k) l = firstn k l ++ [a].
Proof.
  revert l. induction k as [|k IH]; intros [|h t] H; try discriminate.
  - injection H as <-. reflexivity.
  - cbn [nth_error] in H. cbn [firstn app]. f_equal. apply IH. exact H.
Qed.

Lemma block_sum_loop (audio : list F32.t) (factor i : Z) :
  0 <= i -> 0 <= factor -> i * factor + factor <= vsize audio -> vsize audio < size_max ->
  for_range 0 factor
    (fun j sum => a <- vget audio (szadd (szmul i factor) j) ;; Ok (sum + a)%f32)
    F32.zero
  = Ok (fold_left F32.add
          (firstn (Z.to_nat factor) (skipn (Z.to_nat (i * factor)) audio)) F32.zero).
Proof.
  intros Hi Hf Hfit Hmax.
  destruct (for_range_total_idx
              (fun k sum =>
                 sum = fold_left F32.add
                         (firstn (Z.to_nat k) (skipn (Z.to_nat (i * factor)) audio))
                         F32.zero)
              0 factor
              (fun j sum => a <- vget audio (szadd (szmul i factor) j) ;; Ok (sum + a)%f32)
              F32.zero) as [sum [E ->]].
  - exact Hf.
  - reflexivity.
  - intros k sum Hk ->.
    rewrite szmul_small by nia. rewrite szadd_small by nia.
    destruct (vget_ok audio (i * factor + k) ltac:(nia)) as [a [Ha Hn]].
    rewrite Ha. cbn [bind]. eexists. split; [reflexivity|].
    replace (Z.to_nat (k + 1)) with (S (Z.to_nat k)) by lia.
    rewrite (firstn_snoc _ _ a).
    + rewrite fold_left_app. reflexivity.
    + rewrite nth_error_skipn.
      replace (Z.to_nat (i * factor) + Z.to_nat k)%nat with (Z.to_nat (i * factor + k))
        by nia.
      exact Hn.
  - exact E.
Qed.

Lemma nth_error_map_zrange {A : Type} (f : Z -> A) (n j : Z) :
  0 <= j < n -> nth_error (map f (zrange 0 n)) (Z.to_nat j) = Some (f j).
Proof.
  intros Hj. unfold zrange. rewrite !map_map.
  rewrite nth_error_map, nth_error_seq.
  replace (Z.to_nat j <? Z.to_nat (n - 0))%nat with true
    by (symmetry; apply Nat.ltb_lt; lia).
  cbn [option_map]. f_equal. f_equal. lia.
Qed.

Lemma vsize_map_zrange {A : Type} (f : Z -> A) (n : Z) :
  0 <= n -> vsize (map f (zrange 0 n)) = n.
Proof.
  intros Hn. unfold vsize, zrange. rewrite !length_map, length_seq. lia.
Qed.

Lemma list_eq_nth {A : Type} (l l' : list A) :
  vsize l = vsize l' ->
  (forall j, 0 <= j < vsize l -> nth_error l (Z.to_nat j) = nth_error l' (Z.to_nat j)) ->
  l = l'.
Proof.
  unfold vsize. intros Hlen H. apply nth_error_ext. intros n.
  destruct (Nat.lt_ge_cases n (length l)) as [Hlt|Hge].
  - specialize (H (Z.of_nat n) ltac:(lia)). rewrite Nat2Z.id in H. exact H.
  - rewrite (proj2 (nth_error_None l n)) by lia.
    rewrite (proj2 (nth_error_None l' n)) by lia. reflexivity.
Qed.

Lemma downsample_values (audio : list F32.t) (factor : Z) :
  2 <= factor -> vsize audio < size_max ->
  for_range 0 (vsize audio / factor)
    (fun i downsampled =>
       sum <- for_range 0 factor
                (fun j sum =>
                   a <- vget audio (szadd (szmul i factor) j) ;;
                   Ok (sum + a)%f32)
                F32.zero ;;
       vset downsampled i (sum / F32.of_Z factor)%f32)
    (vmake (vsize audio / factor) F32.zero)
  = Ok (map (block_average audio factor) (zrange 0 (vsize audio / factor))).
Proof.
  intros Hf Hmax.
  pose proof (vsize_nonneg audio) as H0.
  set (n := vsize audio / factor).
  assert (Hn : 0 <= n) by (apply Z.div_pos; lia).
  pose proof (Z.mul_div_le (vsize audio) factor ltac:(lia)) as Hmul. fold n in Hmul.
  match goal with |- for_range 0 n ?body ?s = _ =>
    destruct (for_range_total_idx
                (fun i (d : list F32.t) =>
                   vsize d = n
                   /\ forall j, 0 <= j < i ->
                        nth_error d (Z.to_nat j) = Some (block_average audio factor j))
                0 n body s) as [d [E [Sd Hd]]] end.
  - exact Hn.
  - split; [apply vmake_size; exact Hn | intros j Hj; lia].
  - intros i d Hi [Sd Hd].
    rewrite (block_sum_loop audio factor i) by nia. cbn [bind].
    match goal with |- context [vset d i ?x] =>
      destruct (vset_get d i x ltac:(lia)) as [d' [Ed [Sd' Hget]]] end.
    exists d'. split; [exact Ed|]. split; [lia|].
    intros j Hj. rewrite (Hget j) by lia.
    destruct (Z.eqb_spec j i) as [->|Hne]; [reflexivity|].
    apply Hd. lia.
  - rewrite E. f_equal. apply list_eq_nth.
    + rewrite vsize_map_zrange by exact Hn. exact Sd.
    + intros j Hj. rewrite Sd in Hj. rewrite (Hd j Hj).
      symmetry. apply nth_error_map_zrange. exact Hj.
Qed.

(** [loadAudio] replaces each block of [factor] samples by its mean, where
    [factor] is the integer quotient of the file's rate by 22050 (at least
    1), and reports the file's rate divided by [factor].  For a file rate
    of at least 44100 sample [i] of the result is [block_average] of block
    [i], for every [i] below the integer quotient of the length by
    [factor]; a last incomplete block is dropped.  Below 44100 the samples
    and the rate are passed through unchanged.  For a file rate of at
    least 22050 the reported rate lies in 22050..44099. *)
Theorem loadAudio_rate_and_length (audio : list F32.t) (originalRate : Z) :
  1 <= originalRate < 2 ^ 32 -> vsize audio < size_max ->
  exists samples sampleRate,
    loadAudio audio originalRate = Ok (samples, sampleRate)
    /\ sampleRate = originalRate / Z.max 1 (originalRate / 22050)
    /\ vsize samples = vsize audio / Z.max 1 (originalRate / 22050)
    /\ (22050 <= originalRate -> 22050 <= sampleRate < 44100)
    /\ (originalRate < 44100 -> samples = audio /\ sampleRate = originalRate)
    /\ (44100 <= originalRate ->
        samples = map (block_average audio (originalRate / 22050))
                    (zrange 0 (vsize audio / (originalRate / 22050)))).
Proof.
  intros Hr Hmax. unfold loadAudio, TARGET_RATE. cbv zeta.
  assert (H32 : 2 ^ 32 = 4294967296) by reflexivity.
  assert (Hq0 : 0 <= originalRate / 22050) by (apply Z.div_pos; lia).
  assert (Hq1 : originalRate / 22050 < 194784).
  { apply Z.div_lt_upper_bound; lia. }
  pose proof (Z.mul_div_le originalRate 22050 ltac:(lia)) as Hlo.
  pose proof (Z.mul_succ_div_gt originalRate 22050 ltac:(lia)) as Hhi.
  rewrite (to_int_small (originalRate / 22050)) by (unfold int_max; lia).
  destruct (22050 <? originalRate) eqn:E1.
  - apply Z.ltb_lt in E1.
    destruct (1 <? originalRate / 22050) eqn:E2.
    + apply Z.ltb_lt in E2.
      rewrite Z.max_r by lia.
      rewrite (downsample_values audio (originalRate / 22050) ltac:(lia) Hmax).
      cbn [bind]. eexists. exists (originalRate / (originalRate / 22050)).
      split; [reflexivity|]. split; [reflexivity|].
      split; [apply vsize_map_zrange; apply Z.div_pos; [apply vsize_nonneg | lia]|].
      split; [|split].
      * intros _. split.
        -- apply Z.div_le_lower_bound; lia.
        -- apply Z.div_lt_upper_bound; nia.
      * intros Hlt. exfalso. nia.
      * intros _. reflexivity.
    + apply Z.ltb_ge in E2. assert (Hq : originalRate / 22050 = 1) by nia.
      rewrite Hq. change (Z.max 1 1) with 1. rewrite !Z.div_1_r.
      exists audio, originalRate.
      split; [reflexivity|]. split; [reflexivity|]. split; [reflexivity|].
      split; [lia|]. split; [auto|]. intros Hge. exfalso. nia.
  - apply Z.ltb_ge in E1.
    assert (Hq : Z.max 1 (originalRate / 22050) = 1) by nia.
    rewrite Hq, !Z.div_1_r.
    exists audio, originalRate.
    split; [reflexivity|]. split; [reflexivity|]. split; [reflexivity|].
    split; [lia|]. split; [auto|]. intros Hge. exfalso. lia.
Qed.

Lemma loadAudio_rate_and_length_witness :
  loadAudio [F32.of_Z 1; F32.of_Z 2; F32.of_Z 3; F32.of_Z 5; F32.of_Z 7] 48000
  = Ok ([F32.lit 3 2; F32.of_Z 4], 24000).
Proof.
  destruct (loadAudio_rate_and_length
              [F32.of_Z 1; F32.of_Z 2; F32.of_Z 3; F32.of_Z 5; F32.of_Z 7] 48000)
    as [samples [sampleRate [E [Hr [_ [_ [_ Hv]]]]]]].
  - lia.
  - reflexivity.
  - rewrite E, Hr, Hv by lia. reflexivity.
Defined.

(** ** PerformFFTWithMagnitudes *)

Import AudioAnalyzerBridge.

Lemma land_pred_zero_pow2 (n : Z) : 1 <= n -> Z.land n (n - 1) = 0 -> is_pow2 n.
Proof.
  intros Hn Hl.
  destruct (Z.eq_dec n (2 ^ Z.log2 n)) as [E|Hne].
  - exists (Z.log2 n). split; [apply Z.log2_nonneg | exact E].
  - exfalso. destruct (Z.eq_dec n 1) as [->|H1]; [apply Hne; reflexivity|].
    apply (land_pred_not_pow2 n ltac:(lia)); [|exact Hl].
    intros [k [Hk E]]. apply Hne. rewrite E at 2. rewrite Z.log2_pow2 by lia. exact E.
Qed.

Lemma pow2_land_pred (n : Z) : is_pow2 n -> Z.land n (n - 1) = 0.
Proof. intros [k [Hk ->]]. apply land_pred_pow2. exact Hk. Qed.

Section BridgeFFT.
Context {L : Libm}.

(** With the processor initialised, non-null pointers, at least [length]
    input samples and room for [length / 2 + 1] magnitudes,
    [PerformFFTWithMagnitudes] returns without a fault; it returns [true]
    exactly when [length] is a power of two (1 included), and when it
    returns [false] the output buffer is untouched. *)
Theorem PerformFFTWithMagnitudes_result (st : bridge_state) (audio mags : list F32.t)
  (length : Z) :
  g_fftProcessor st = true ->
  0 <= length < 2 ^ 32 -> length <= vsize audio -> length / 2 + 1 <= vsize mags ->
  exists ok out,
    PerformFFTWithMagnitudes st (Some audio) length (Some mags) = Ok (ok, Some out)
    /\ vsize out = vsize mags
    /\ (ok = true <-> is_pow2 length)
    /\ (ok = false -> out = mags).
Proof.
  intros Hg Hlen Ha Hm. unfold PerformFFTWithMagnitudes. rewrite Hg. cbn [negb orb].
  destruct (length =? 0) eqn:E0.
  { apply Z.eqb_eq in E0. subst length. exists false, mags.
    split; [reflexivity|]. split; [reflexivity|]. split; [|auto].
    split; [discriminate|]. intros [k [Hk E]].
    pose proof (Z.pow_pos_nonneg 2 k ltac:(lia) Hk). lia. }
  apply Z.eqb_neq in E0.
  destruct (Z.land length (length - 1) =? 0) eqn:E1; cbn [negb].
  2:{ apply Z.eqb_neq in E1. exists false, mags.
      split; [reflexivity|]. split; [reflexivity|]. split; [|auto].
      split; [discriminate|]. intros Hp. exfalso. apply E1. apply pow2_land_pred. exact Hp. }
  apply Z.eqb_eq in E1.
  pose proof (land_pred_zero_pow2 length ltac:(lia) E1) as Hp.
  destruct Hp as [k [Hk Ek]].
  assert (Hk32 : k < 32).
  { destruct (Z.lt_ge_cases k 32) as [|Hge]; [assumption|]. exfalso.
    pose proof (Z.pow_le_mono_r 2 32 k ltac:(lia) Hge). lia. }
  match goal with |- context [for_range 0 length ?body ?s] =>
    destruct (for_range_total (fun v : list complex => vsize v = length) 0 length body s)
      as [cd [Ecd Scd]] end.
  { apply vmake_size. lia. }
  { intros i v Hi Hv.
    destruct (vget_ok audio i ltac:(lia)) as [a [Hav _]]. rewrite Hav. cbn [bind].
    match goal with |- context [vset v i ?x] =>
      destruct (vset_ok v i x ltac:(lia)) as [v' [Ev Sv]] end.
    exists v'. split; [exact Ev | lia]. }
  rewrite Ecd. cbn [bind].
  destruct (FFT_total cd (Z.to_nat k) ltac:(lia)) as [X [EX SX]].
  { rewrite Scd, Ek. f_equal. lia. }
  rewrite EX. cbn [bind].
  assert (Hhalf : length / 2 + 1 <= length).
  { destruct (Z.eq_dec length 1) as [->|]; [reflexivity|].
    pose proof (Z.mul_div_le length 2 ltac:(lia)). lia. }
  assert (Hh0 : 0 <= length / 2) by (apply Z.div_pos; lia).
  match goal with |- context [for_range 0 (length / 2 + 1) ?body ?s] =>
    destruct (for_range_total (fun v : list F32.t => vsize v = vsize mags)
                0 (length / 2 + 1) body s) as [out [Eout Sout]] end.
  { reflexivity. }
  { intros i v Hi Hv.
    destruct (vget_ok X i ltac:(lia)) as [c [Hc _]]. rewrite Hc. cbn [bind].
    match goal with |- context [vset v i ?x] =>
      destruct (vset_ok v i x ltac:(lia)) as [v' [Ev Sv]] end.
    exists v'. split; [exact Ev | lia]. }
  rewrite Eout. cbn [bind try_catch].
  exists true, out. split; [reflexivity|]. split; [exact Sout|]. split.
  - split; [intros _; exists k; auto | reflexivity].
  - discriminate.
Qed.

End BridgeFFT.

Lemma PerformFFTWithMagnitudes_result_witness :
  (exists out,
     @PerformFFTWithMagnitudes libm_at_zero (mkBridge true true true [] 0)
       (Some [F32.of_Z 1; F32.of_Z 2; F32.of_Z 3; F32.of_Z 4]) 4
       (Some [F32.zero; F32.zero; F32.zero]) = Ok (true, Some out))
  /\ @PerformFFTWithMagnitudes libm_at_zero (mkBridge true true true [] 0)
       (Some [F32.of_Z 1; F32.of_Z 2; F32.of_Z 3]) 3
       (Some [F32.zero; F32.zero; F32.zero])
     = Ok (false, Some [F32.zero; F32.zero; F32.zero]).
Proof.
  split.
  - destruct (@PerformFFTWithMagnitudes_result libm_at_zero (mkBridge true true true [] 0)
                [F32.of_Z 1; F32.of_Z 2; F32.of_Z 3; F32.of_Z 4]
                [F32.zero; F32.zero; F32.zero] 4)
      as [ok [out [E [_ [Hok _]]]]];
      [reflexivity | lia | vm_compute; discriminate | vm_compute; discriminate |].
    assert (Ht : ok = true) by (apply Hok; exists 2; split; [lia | reflexivity]).
    subst ok. exists out. exact E.
  - destruct (@PerformFFTWithMagnitudes_result libm_at_zero (mkBridge true true true [] 0)
                [F32.of_Z 1; F32.of_Z 2; F32.of_Z 3]
                [F32.zero; F32.zero; F32.zero] 3)
      as [ok [out [E [_ [Hok Hout]]]]];
      [reflexivity | lia | vm_compute; discriminate | vm_compute; discriminate |].
    destruct ok.
    + exfalso. destruct (proj1 Hok eq_refl) as [k [Hk Ek]].
      assert (k < 2) by (destruct (Z.lt_ge_cases k 2) as [|Hge]; [assumption|];
                         pose proof (Z.pow_le_mono_r 2 2 k ltac:(lia) Hge); lia).
      assert (k = 0 \/ k = 1) as [->| ->] by lia; discriminate.
    + rewrite (Hout eq_refl) in E. exact E.
Defined.

(** ** AnalyzeFileBPM: short recordings *)

Section BridgeBPM.
Context {L : Libm}.
Variable bucket_order : list (Z * F32.t) -> list (Z * F32.t).

(** A recording that [loadAudio] turns into 1024 to 5119 samples gives an
    onset envelope of fewer than 9 frames, and [findBeats] reads past its
    end: [AnalyzeFileBPM] has undefined behaviour, which its [catch (...)]
    does not intercept. *)
Theorem AnalyzeFileBPM_out_of_bounds (st : bridge_state) (audio samples : list F32.t)
  (originalRate sampleRate : Z) :
  g_bpmDetector st = true -> g_loadAudio st = true ->
  loadAudio audio originalRate = Ok (samples, sampleRate) ->
  1024 <= vsize samples < 5120 ->
  AnalyzeFileBPM bucket_order st (Some (audio, originalRate)) = Err OutOfBounds.
Proof.
  intros H1 H2 Hl Hn. unfold AnalyzeFileBPM. rewrite H1, H2. cbn [negb orb].
  rewrite Hl. cbn [bind]. cbv zeta.
  destruct (detectOnsets_total samples sampleRate ltac:(lia)) as [env [E S]].
  rewrite E. cbn [bind].
  assert (Hs : vsize env < 9).
  { rewrite S. pose proof (Z.div_lt_upper_bound (vsize samples - 1024) 512 8
                             ltac:(lia) ltac:(lia)). lia. }
  rewrite (findBeats_short env (F32.lit 13 10)) by (unfold windowSize; lia).
  reflexivity.
Qed.

(** A recording that [loadAudio] turns into 5120 to 10239 samples gives an
    envelope of 9 to 18 frames, in which no frame has 9 neighbours on each
    side: [AnalyzeFileBPM] returns 0, with an empty beat list stored. *)
Theorem AnalyzeFileBPM_no_beats (st : bridge_state) (audio samples : list F32.t)
  (originalRate sampleRate : Z) :
  g_bpmDetector st = true -> g_loadAudio st = true ->
  loadAudio audio originalRate = Ok (samples, sampleRate) ->
  5120 <= vsize samples < 10240 ->
  AnalyzeFileBPM bucket_order st (Some (audio, originalRate))
  = Ok (0, mkBridge true true (g_fftProcessor st) [] (g_lastBPM st)).
Proof.
  intros H1 H2 Hl Hn. unfold AnalyzeFileBPM. rewrite H1, H2. cbn [negb orb].
  rewrite Hl. cbn [bind]. cbv zeta.
  destruct (detectOnsets_total samples sampleRate ltac:(lia)) as [env [E S]].
  rewrite E. cbn [bind].
  assert (Hs : 9 <= vsize env <= 18).
  { rewrite S.
    pose proof (Z.div_lt_upper_bound (vsize samples - 1024) 512 18 ltac:(lia) ltac:(lia)).
    pose proof (Z.div_le_lower_bound (vsize samples - 1024) 512 8 ltac:(lia) ltac:(lia)).
    lia. }
  rewrite (findBeats_no_interior env (F32.lit 13 10) Hs). reflexivity.
Qed.

End BridgeBPM.

Lemma AnalyzeFileBPM_out_of_bounds_witness :
  @AnalyzeFileBPM libm_at_zero (fun h => h) (mkBridge true true true [] 0)
    (Some (repeat F32.zero (Z.to_nat 1024), 22050)) = Err OutOfBounds.
Proof.
  apply (@AnalyzeFileBPM_out_of_bounds libm_at_zero (fun h => h)
           (mkBridge true true true [] 0) (repeat F32.zero (Z.to_nat 1024)) (repeat F32.zero (Z.to_nat 1024))
           22050 22050); try reflexivity.
  vm_compute. split; [discriminate | reflexivity].
Defined.

Lemma AnalyzeFileBPM_no_beats_witness :
  @AnalyzeFileBPM libm_at_zero (fun h => h) (mkBridge true true true [] 0)
    (Some (repeat F32.zero (Z.to_nat 5120), 22050))
  = Ok (0, mkBridge true true true [] 0).
Proof.
  apply (@AnalyzeFileBPM_no_beats libm_at_zero (fun h => h)
           (mkBridge true true true [] 0) (repeat F32.zero (Z.to_nat 5120)) (repeat F32.zero (Z.to_nat 5120))
           22050 22050); try reflexivity.
  vm_compute. split; [discriminate | reflexivity].
Defined.

(** ** ProcessSpectrogram: the percentile indices *)

(** The float below a normal float [(m, e)]: it is within a relative
    distance 2^-23. *)
Lemma float_pred (m : positive) (e : Z) :
  bounded 24 128 m e = true -> 2 ^ 23 <= Zpos m -> -148 <= e ->
  exists mp ep,
    bounded 24 128 mp ep = true
    /\ (V (Zpos mp) ep < V (Zpos m) e)%R
    /\ (V (Zpos m) e * (1 - bpow (-23)) <= V (Zpos mp) ep)%R.
Proof.
  intros B Hn He.
  pose proof (bounded_range m e B) as [Her [Hm _]].
  apply bounded_spec in B. destruct B as [Hc Hmax].
  assert (Hd : Zpos (digits2_pos m) = 24).
  { apply Z.le_antisymm; [apply digits2_le; exact Hm | apply digits2_ge; exact Hn]. }
  rewrite Hd in Hc.
  pose proof (bpow_pos e) as Hpe.
  assert (H23 : (bpow (-23) * IZR (2 ^ 23) = 1)%R).
  { rewrite <- (bpow_IZR 23) by lia. rewrite <- bpow_add. reflexivity. }
  assert (Hmr : (IZR (2 ^ 23) <= IZR (Zpos m))%R) by (apply IZR_le; exact Hn).
  destruct (Z.eq_dec (Zpos m) (2 ^ 23)) as [E|Hne].
  - (* a power of two: the float below has one more bit *)
    exists (2 ^ 24 - 1)%positive, (e - 1).
    assert (Hb : bpow e = (2 * bpow (e - 1))%R).
    { replace e with (1 + (e - 1)) at 1 by lia. rewrite bpow_add.
      rewrite (bpow_IZR 1) by lia. reflexivity. }
    split; [|split].
    + apply bounded_spec. change (Zpos (digits2_pos (2 ^ 24 - 1))) with 24.
      unfold fexp32 in *. lia.
    + unfold V. rewrite E, Hb. pose proof (bpow_pos (e - 1)) as Hp1.
      change (IZR (2 ^ 23)) with 8388608%R. change (IZR (Zpos (2 ^ 24 - 1))) with 16777215%R.
      lra.
    + unfold V. rewrite E, Hb. pose proof (bpow_pos (e - 1)) as Hp1.
      change (IZR (2 ^ 23)) with 8388608%R in *.
      change (IZR (Zpos (2 ^ 24 - 1))) with 16777215%R.
      assert (H23' : (bpow (-23) = / 8388608)%R).
      { apply Rmult_eq_reg_r with 8388608%R; [|lra]. rewrite H23. field. }
      rewrite H23'. lra.
  - exists (Pos.pred m), e.
    assert (Hp : Zpos (Pos.pred m) = Zpos m - 1) by (rewrite Pos2Z.inj_pred; lia).
    split; [|split].
    + apply bounded_spec.
      assert (Hd' : Zpos (digits2_pos (Pos.pred m)) = 24).
      { apply Z.le_antisymm; [apply digits2_le; lia | apply digits2_ge; lia]. }
      rewrite Hd'. auto.
    + unfold V. rewrite Hp, minus_IZR. lra.
    + unfold V. rewrite Hp, minus_IZR.
      assert (H23' : (bpow (-23) = / IZR (2 ^ 23))%R).
      { apply Rmult_eq_reg_r with (IZR (2 ^ 23)); [|change (IZR (2 ^ 23)) with 8388608%R; lra].
        rewrite H23. field. change (IZR (2 ^ 23)) with 8388608%R; lra. }
      rewrite H23'.
      assert (Hq : (IZR (Zpos m) * / IZR (2 ^ 23) >= 1)%R).
      { change (IZR (2 ^ 23)) with 8388608%R in *. lra. }
      nra.
Qed.

(** Both percentile factors, 0.01f and 0.99f, are floats between 2^-7 and
    1 - 2^-23. *)
Definition percentile_factor (c : F32.t) : Prop :=
  exists mc ec, c = S754_finite false mc ec /\ 2 ^ 23 <= Zpos mc
    /\ (bpow (-7) <= V (Zpos mc) ec <= 1 - bpow (-23))%R.

Lemma percentile_factor_literal (mc : positive) (ec : Z) :
  2 ^ 23 <= Zpos mc < 2 ^ 24 -> -30 <= ec <= -24 ->
  2 ^ (-7 - ec) <= Zpos mc -> Zpos mc * 2 ^ (ec + 30) <= (2 ^ 23 - 1) * 2 ^ 7 ->
  percentile_factor (S754_finite false mc ec).
Proof.
  intros Hm He Hlo Hhi. exists mc, ec. split; [reflexivity|]. split; [lia|]. split.
  - rewrite <- V_bpow. apply (V_le_Z 1 (-7) (Zpos mc) ec ec); [lia | lia |].
    rewrite Z.sub_diag, Z.pow_0_r. lia.
  - replace (1 - bpow (-23))%R with (V (2 ^ 23 - 1) (-23)).
    + apply (V_le_Z (Zpos mc) ec (2 ^ 23 - 1) (-23) (-30)); [lia | lia |].
      replace (ec - -30) with (ec + 30) by lia. exact Hhi.
    + unfold V. rewrite minus_IZR, Rmult_minus_distr_r.
      rewrite <- (bpow_IZR 23) by lia. rewrite <- bpow_add. change (bpow (23 + -23)) with 1%R.
      lra.
Qed.

Lemma percentile_index (n : Z) (c : F32.t) :
  1 <= n < 2 ^ 32 -> percentile_factor c ->
  exists idx, F32.to_u32 (F32.of_Z n * c)%f32 = Ok idx /\ 0 <= idx < n.
Proof.
  intros Hn [mc [ec [-> [Hmc [Hc1 Hc2]]]]].
  destruct (of_Z_in n 32 ltac:(lia) ltac:(lia)) as [m [e [E [B [Hv1 Hv2]]]]].
  assert (Hnorm : 2 ^ 23 <= Zpos m).
  { apply (finite_in_normal m e 0 B ltac:(lia)). change (bpow 0) with 1%R. exact Hv1. }
  pose proof (bounded_range m e B) as [Her [Hm [_ [Hlt _]]]].
  assert (He : -148 <= e).
  { destruct (Z.lt_ge_cases e (-148)) as [Hl|]; [|assumption]. exfalso.
    pose proof (bpow_le (24 + e) 0 ltac:(lia)) as Hb. change (bpow 0) with 1%R in Hb. lra. }
  destruct (float_pred m e B Hnorm He) as [mp [ep [Bp [Hp1 Hp2]]]].
  (* the float below [float(n)] is below [n] *)
  assert (Hpn : (V (Zpos mp) ep < IZR n)%R).
  { destruct (Rlt_le_dec (V (Zpos mp) ep) (IZR n)) as [|Hge]; [assumption|]. exfalso.
    destruct (of_Z_between n (2 ^ 23) (0 - 23) mp ep ltac:(lia)
                (bounded_pow2 0 ltac:(lia)) Bp) as [m' [e' [E' [_ [_ Hv']]]]].
    { rewrite V_pow2. change (bpow 0) with 1%R. split; [apply IZR_le; lia | exact Hge]. }
    unfold F32.of_Z, F32.prec, F32.emax in E. rewrite E in E'. injection E' as <- <-. lra. }
  pose proof (bpow_pos (-23)) as Hb23. pose proof (bpow_pos (-7)) as Hb7.
  destruct (SFmul_between m e mc ec (2 ^ 23) (-7 - 23) mp ep Hnorm Hmc
              (bounded_pow2 (-7) ltac:(lia)) Bp) as [m3 [e3 [E3 [B3 [Hl3 Hh3]]]]].
  { rewrite V_pow2. split; [nra|].
    apply Rle_trans with (V (Zpos m) e * (1 - bpow (-23)))%R; [|exact Hp2].
    apply Rmult_le_compat_l; lra. }
  unfold F32.mul, F32.prec, F32.emax. rewrite E, E3.
  pose proof (shiftl_floor m3 e3) as [H0 [H1 H2]].
  assert (Hidx : Z.shiftl (Zpos m3) e3 < n) by (apply lt_IZR; lra).
  exists (Z.shiftl (Zpos m3) e3). split; [|lia].
  unfold F32.to_u32, F32.trunc. cbn [cond_Zopp].
  replace ((0 <=? Z.shiftl (Zpos m3) e3) && (Z.shiftl (Zpos m3) e3 <? 2 ^ 32)) with true;
    [reflexivity|]. symmetry. apply andb_true_iff. lia.
Qed.

Lemma percentile_factor_1 : percentile_factor (F32.lit 1 100).
Proof.
  apply (percentile_factor_literal 10737418 (-30)); vm_compute; intuition discriminate.
Qed.

Lemma percentile_factor_99 : percentile_factor (F32.lit 99 100).
Proof.
  apply (percentile_factor_literal 16609444 (-24)); vm_compute; intuition discriminate.
Qed.

(** ** ProcessSpectrogram *)

Import AudioAnalyzerBridge.

(** A loop that rewrites the elements 0 .. n-1 of a buffer in turn. *)
Lemma prefix_loop (P : F32.t -> Prop) (n : Z)
  (body : Z -> list F32.t -> result (list F32.t)) (dst : list F32.t) :
  0 <= n <= vsize dst ->
  (forall i v, 0 <= i < n -> vsize v = vsize dst ->
     exists a, body i v = vset v i a /\ P a) ->
  exists out,
    for_range 0 n body dst = Ok out /\ vsize out = vsize dst
    /\ (forall i, 0 <= i < n -> exists a, nth_error out (Z.to_nat i) = Some a /\ P a)
    /\ (forall i, n <= i -> nth_error out (Z.to_nat i) = nth_error dst (Z.to_nat i)).
Proof.
  intros Hn Hbody.
  destruct (for_range_total_idx
              (fun k v =>
                 vsize v = vsize dst
                 /\ (forall i, 0 <= i < k ->
                       exists a, nth_error v (Z.to_nat i) = Some a /\ P a)
                 /\ (forall i, k <= i ->
                       nth_error v (Z.to_nat i) = nth_error dst (Z.to_nat i)))
              0 n body dst) as [out [E [S [H1 H2]]]].
  - lia.
  - split; [reflexivity|]. split; [intros i Hi; lia | reflexivity].
  - intros k v Hk [Sv [Hlo Hhi]].
    destruct (Hbody k v Hk Sv) as [a [Eb Pa]]. rewrite Eb.
    destruct (vset_get v k a ltac:(lia)) as [v' [Ev [Sv' Hg]]].
    exists v'. split; [exact Ev|]. split; [lia|]. split.
    + intros i Hi. rewrite (Hg i) by lia.
      destruct (Z.eqb_spec i k) as [->|Hne]; [exists a; auto|]. apply Hlo. lia.
    + intros i Hi. rewrite (Hg i) by lia.
      replace (i =? k) with false by (symmetry; apply Z.eqb_neq; lia). apply Hhi. lia.
  - exists out. auto.
Qed.

(** A value between 0 and 255: in particular not a NaN. *)
Definition byte_range (x : F32.t) : Prop :=
  (F32.zero <=? x)%f32 = true /\ (x <=? F32.of_Z 255)%f32 = true.

Lemma scale_range (y : F32.t) :
  byte_range (F32.max F32.zero (F32.min (F32.of_Z 255) y)).
Proof.
  unfold byte_range, F32.max, F32.min, F32.ltb, F32.leb.
  destruct (SFltb y (F32.of_Z 255)) eqn:E1.
  - destruct (SFltb F32.zero y) eqn:E2.
    + split; apply SFltb_leb; assumption.
    + split; reflexivity.
  - change (SFltb F32.zero (F32.of_Z 255)) with true. cbv iota. split; reflexivity.
Qed.

Section SpectrogramResult.
Context {M : LibmSpectrogram}.
Variable std_sort : list F32.t -> list F32.t.

(** When the 32-bit product [width * height] wraps to 0 (65536 x 65536,
    for instance) no element is processed, the sorted copy is empty and the
    percentile lookup [sortedData[0]] reads out of bounds. *)
Theorem ProcessSpectrogram_dimension_overflow (src dst : list F32.t) (width height : Z)
  (dynamicRangeDb gamma : F32.t) :
  std_sort [] = [] ->
  width <> 0 -> height <> 0 -> (width * height) mod 2 ^ 32 = 0 ->
  ProcessSpectrogram std_sort (Some src) width height (Some dst) dynamicRangeDb gamma
  = Err OutOfBounds.
Proof.
  intros Hs Hw Hh H0. unfold ProcessSpectrogram.
  replace (width =? 0) with false by (symmetry; apply Z.eqb_neq; exact Hw).
  replace (height =? 0) with false by (symmetry; apply Z.eqb_neq; exact Hh).
  cbn [orb]. cbv zeta. rewrite H0.
  rewrite for_range_empty by lia. cbn [bind].
  change (Z.to_nat 0) with 0%nat. cbn [firstn]. rewrite Hs.
  change (F32.to_u32 (F32.of_Z 0 * F32.lit 1 100)%f32) with (@Ok Z 0).
  change (F32.to_u32 (F32.of_Z 0 * F32.lit 99 100)%f32) with (@Ok Z 0).
  reflexivity.
Qed.

(** With a number of elements [width * height] (modulo 2^32) of at least 1
    and buffers that hold that many, [ProcessSpectrogram] returns [true]
    without a fault: both percentile indices fall inside the sorted copy.
    Every processed element of the result lies between 0 and 255, whatever
    the input, the math library and the order produced by the sort; the
    rest of the buffer is untouched. *)
Theorem ProcessSpectrogram_output_range (src dst : list F32.t) (width height : Z)
  (dynamicRangeDb gamma : F32.t) :
  (forall l, length (std_sort l) = length l) ->
  width <> 0 -> height <> 0 ->
  1 <= (width * height) mod 2 ^ 32 ->
  (width * height) mod 2 ^ 32 <= vsize src -> (width * height) mod 2 ^ 32 <= vsize dst ->
  exists out,
    ProcessSpectrogram std_sort (Some src) width height (Some dst) dynamicRangeDb gamma
    = Ok (true, Some out)
    /\ vsize out = vsize dst
    /\ (forall i, 0 <= i < (width * height) mod 2 ^ 32 -> byte_range (sample_at out i))
    /\ (forall i, (width * height) mod 2 ^ 32 <= i -> sample_at out i = sample_at dst i).
Proof.
  intros Hsort Hw Hh H1 Hsrc Hdst. unfold ProcessSpectrogram.
  replace (width =? 0) with false by (symmetry; apply Z.eqb_neq; exact Hw).
  replace (height =? 0) with false by (symmetry; apply Z.eqb_neq; exact Hh).
  cbn [orb]. cbv zeta.
  pose proof (Z.mod_pos_bound (width * height) (2 ^ 32) ltac:(lia)) as Hlt.
  set (total := (width * height) mod 2 ^ 32) in *.
  (* step 1 *)
  match goal with |- exists out, bind (for_range 0 total ?body dst) _ = _ /\ _ =>
    destruct (prefix_loop (fun _ => True) total body dst ltac:(lia)) as [d1 [E1 [S1 [_ U1]]]] end.
  { intros i v Hi Hv. destruct (vget_ok src i ltac:(lia)) as [s [Es _]].
    rewrite Es. cbn [bind]. eexists. split; [reflexivity | exact I]. }
  rewrite E1. cbn [bind].
  (* step 2 *)
  destruct (percentile_index total (F32.lit 1 100) ltac:(lia) percentile_factor_1)
    as [i1 [Ei1 Hi1]].
  destruct (percentile_index total (F32.lit 99 100) ltac:(lia) percentile_factor_99)
    as [i99 [Ei99 Hi99]].
  rewrite Ei1. cbn [bind]. rewrite Ei99. cbn [bind].
  assert (Hsz : vsize (std_sort (firstn (Z.to_nat total) d1)) = total).
  { unfold vsize in *. rewrite Hsort, length_firstn. lia. }
  destruct (vget_ok (std_sort (firstn (Z.to_nat total) d1)) i1 ltac:(lia)) as [p1 [Ep1 _]].
  destruct (vget_ok (std_sort (firstn (Z.to_nat total) d1)) i99 ltac:(lia)) as [p99 [Ep99 _]].
  rewrite Ep1. cbn [bind]. rewrite Ep99. cbn [bind].
  (* step 3 *)
  match goal with |- exists out, bind (for_range 0 total ?body d1) _ = _ /\ _ =>
    destruct (prefix_loop (fun _ => True) total body d1 ltac:(lia)) as [d2 [E2 [S2 [_ U2]]]] end.
  { intros i v Hi Hv. destruct (vget_ok v i ltac:(lia)) as [x [Ex _]].
    rewrite Ex. cbn [bind]. eexists. split; [reflexivity | exact I]. }
  rewrite E2. cbn [bind].
  (* step 4 *)
  match goal with |- exists out, bind (for_range 0 total ?body d2) _ = _ /\ _ =>
    destruct (prefix_loop (fun _ => True) total body d2 ltac:(lia)) as [d3 [E3 [S3 [_ U3]]]] end.
  { intros i v Hi Hv. destruct (vget_ok v i ltac:(lia)) as [x [Ex _]].
    rewrite Ex. cbn [bind]. eexists. split; [reflexivity | exact I]. }
  rewrite E3. cbn [bind].
  (* step 5 *)
  match goal with |- exists out, bind (for_range 0 total ?body d3) _ = _ /\ _ =>
    destruct (prefix_loop byte_range total body d3 ltac:(lia)) as [d4 [E4 [S4 [P4 U4]]]] end.
  { intros i v Hi Hv. destruct (vget_ok v i ltac:(lia)) as [x [Ex _]].
    rewrite Ex. cbn [bind]. eexists. split; [reflexivity | apply scale_range]. }
  rewrite E4. cbn [bind].
  exists d4. split; [reflexivity|]. split; [lia|]. split.
  - intros i Hi. destruct (P4 i Hi) as [a [Ha Pa]].
    unfold sample_at. rewrite (nth_error_nth _ _ _ Ha). exact Pa.
  - intros i Hi. unfold sample_at.
    assert (Hn : nth_error d4 (Z.to_nat i) = nth_error dst (Z.to_nat i)).
    { rewrite U4, U3, U2, U1 by lia. reflexivity. }
    destruct (nth_error dst (Z.to_nat i)) as [a|] eqn:Ea.
    + rewrite (nth_error_nth _ _ _ Hn), (nth_error_nth _ _ _ Ea). reflexivity.
    + rewrite !nth_overflow; [reflexivity | |].
      * apply nth_error_None. exact Ea.
      * apply nth_error_None. exact Hn.
Qed.

End SpectrogramResult.

Lemma sort_floats_length (l : list F32.t) : length (sort_floats l) = length l.
Proof. pose proof (sort_floats_size l) as H. unfold vsize in H. lia. Qed.

Lemma ProcessSpectrogram_dimension_overflow_witness :
  @ProcessSpectrogram libm_spectrogram_example sort_floats
    (Some []) 65536 65536 (Some []) (F32.of_Z 60) (F32.of_Z 1)
  = Err OutOfBounds.
Proof.
  apply (@ProcessSpectrogram_dimension_overflow libm_spectrogram_example sort_floats
           [] [] 65536 65536 (F32.of_Z 60) (F32.of_Z 1));
    [reflexivity | discriminate | discriminate | reflexivity].
Defined.

Lemma ProcessSpectrogram_output_range_witness :
  exists out,
    @ProcessSpectrogram libm_spectrogram_example sort_floats
      (Some [F32.of_Z 1; F32.of_Z 2; F32.of_Z 3; F32.of_Z 4]) 2 2
      (Some [F32.nan; F32.nan; F32.nan; F32.nan; F32.nan]) (F32.of_Z 60) (F32.of_Z 1)
    = Ok (true, Some out)
    /\ vsize out = 5
    /\ (forall i, 0 <= i < 4 -> byte_range (sample_at out i))
    /\ (forall i, 4 <= i -> sample_at out i = sample_at [F32.nan; F32.nan; F32.nan; F32.nan; F32.nan] i).
Proof.
  apply (@ProcessSpectrogram_output_range libm_spectrogram_example sort_floats
           [F32.of_Z 1; F32.of_Z 2; F32.of_Z 3; F32.of_Z 4]
           [F32.nan; F32.nan; F32.nan; F32.nan; F32.nan] 2 2 (F32.of_Z 60) (F32.of_Z 1)).
  - apply sort_floats_length.
  - discriminate.
  - discriminate.
  - vm_compute. discriminate.
  - vm_compute. discriminate.
  - vm_compute. discriminate.
Defined.

(** ** saveAudioToFile: the 16-bit samples *)

(** The sign of a product is carried through the rounding unchanged. *)
Lemma binary_round_aux_opp (m e : Z) :
  binary_round_aux 24 128 true m e loc_Exact
  = SFopp (binary_round_aux 24 128 false m e loc_Exact).
Proof.
  unfold binary_round_aux.
  destruct (shr_fexp 24 128 m e loc_Exact) as [mrs e1].
  destruct (shr_fexp 24 128 _ e1 loc_Exact) as [mrs2 e2].
  destruct (shr_m mrs2); try reflexivity.
  destruct (e2 <=? 128 - 24); reflexivity.
Qed.

Lemma SFmul_between_r (m1 : positive) (e1 : Z) (m2 : positive) (e2 : Z)
  (ma : positive) (ea : Z) (mb : positive) (eb : Z) :
  2 ^ 23 <= Zpos m2 ->
  bounded 24 128 ma ea = true -> bounded 24 128 mb eb = true ->
  (V (Zpos ma) ea <= V (Zpos m1) e1 * V (Zpos m2) e2 <= V (Zpos mb) eb)%R ->
  exists m3 e3,
    SFmul 24 128 (S754_finite false m1 e1) (S754_finite false m2 e2)
      = S754_finite false m3 e3
    /\ bounded 24 128 m3 e3 = true
    /\ (V (Zpos ma) ea <= V (Zpos m3) e3 <= V (Zpos mb) eb)%R.
Proof.
  intros H2 Ha Hb Hx. cbn [SFmul xorb].
  assert (Hv : V (Zpos (m1 * m2)) (e1 + e2) = (V (Zpos m1) e1 * V (Zpos m2) e2)%R).
  { unfold V. rewrite Pos2Z.inj_mul, mult_IZR, bpow_add. ring. }
  destruct (bra_between (m1 * m2) (e1 + e2) ma ea mb eb) as [m3 [e3 [E [B [Hv3 _]]]]]; auto.
  - pose proof (digits2_ge (m1 * m2) 24) as Hd.
    assert (2 ^ (24 - 1) <= Zpos (m1 * m2)).
    { rewrite Pos2Z.inj_mul. change (2 ^ (24 - 1)) with (2 ^ 23). nia. }
    specialize (Hd H). unfold fexp32. lia.
  - now rewrite Hv.
  - exists m3, e3. auto.
Qed.

(** A float of magnitude at most 1, times 32767, truncates to 0..32767. *)
Lemma scale_to_pcm (m : positive) (e : Z) :
  bounded 24 128 m e = true -> (V (Zpos m) e <= 1)%R ->
  exists m3 e3,
    (S754_finite false m e * F32.of_Z 32767)%f32 = S754_finite false m3 e3
    /\ 0 <= Z.shiftl (Zpos m3) e3 <= 32767.
Proof.
  intros B Hv.
  change (F32.of_Z 32767) with (S754_finite false 16776704 (-9)).
  pose proof (bounded_range m e B) as [_ [_ [_ [_ Hlo]]]].
  assert (Hz : V (Zpos 16776704) (-9) = 32767%R).
  { unfold V. replace (bpow (-9)) with (/ 512)%R.
    - change (IZR (Zpos 16776704)) with 16776704%R. lra.
    - apply Rmult_eq_reg_r with (bpow 9).
      + rewrite <- bpow_add. change (bpow (-9 + 9)) with 1%R.
        rewrite (bpow_IZR 9) by lia. change (IZR (2 ^ 9)) with 512%R. lra.
      + pose proof (bpow_pos 9). lra. }
  destruct (SFmul_between_r m e 16776704 (-9) 1 (-149) 16776704 (-9))
    as [m3 [e3 [E [B3 [Hl Hh]]]]].
  - vm_compute. discriminate.
  - reflexivity.
  - reflexivity.
  - rewrite Hz, V_bpow. pose proof (bpow_pos (-149)). split; nra.
  - exists m3, e3. split; [exact E|].
    pose proof (shiftl_floor m3 e3) as [H0 [H1 _]]. split; [exact H0|].
    apply le_IZR. rewrite Hz in Hh. lra.
Qed.

Lemma SFcompare_neg (m1 : positive) (e1 : Z) (m2 : positive) (e2 : Z) :
  SFcompare (S754_finite true m1 e1) (S754_finite true m2 e2)
  = SFcompare (S754_finite false m2 e2) (S754_finite false m1 e1).
Proof.
  unfold SFcompare.
  change (Pos.compare_cont Eq m1 m2) with (Pos.compare m1 m2).
  change (Pos.compare_cont Eq m2 m1) with (Pos.compare m2 m1).
  rewrite (Z.compare_antisym e1 e2), (Pos.compare_antisym m1 m2).
  destruct (e1 ?= e2); cbn [CompOpp]; reflexivity.
Qed.

(** A positive float that is not greater than 1 has a value of at most 1. *)
Lemma not_gt_one (m : positive) (e : Z) :
  bounded 24 128 m e = true ->
  SFltb (F32.of_Z 1) (S754_finite false m e) = false -> (V (Zpos m) e <= 1)%R.
Proof.
  intros B H.
  change (F32.of_Z 1) with (S754_finite false (2 ^ 23) (0 - 23)) in H.
  rewrite <- (V_pow2 0 : V (Zpos (2 ^ 23)) (0 - 23) = 1%R).
  apply SFleb_V; [exact B | apply bounded_pow2; lia |].
  unfold SFltb in H. unfold SFleb.
  rewrite (SFcompare_antisym (S754_finite false (2 ^ 23) (0 - 23)) (S754_finite false m e)).
  destruct (SFcompare (S754_finite false (2 ^ 23) (0 - 23)) (S754_finite false m e))
    as [[| |]|] eqn:Ec; cbn; try reflexivity; discriminate.
Qed.

Lemma to_int16_small (v : Z) : -32768 <= v <= 32767 -> to_int16 v = v.
Proof. intros H. unfold to_int16. rewrite Z.mod_small; lia. Qed.

Lemma pcm_sample_range (s : F32.t) :
  valid_binary 24 128 s = true -> F32.is_nan s = false ->
  exists v, pcm_sample s = Ok v /\ -32767 <= v <= 32767.
Proof.
  intros Hv Hn. destruct s as [b|b| |b m e]; try discriminate.
  - destruct b; (exists 0; split; [reflexivity | lia]).
  - destruct b; [exists (-32767) | exists 32767]; (split; [reflexivity | lia]).
  - cbn [valid_binary] in Hv. unfold pcm_sample. cbv zeta.
    destruct b.
    + (* a negative sample *)
      change ((S754_finite true m e >? F32.of_Z 1)%f32) with false. cbv iota.
      destruct (S754_finite true m e <? F32.opp (F32.of_Z 1))%f32 eqn:E.
      { exists (-32767). split; [reflexivity | lia]. }
      assert (Hle : (V (Zpos m) e <= 1)%R).
      { apply not_gt_one; [exact Hv|].
        change (F32.opp (F32.of_Z 1)) with (S754_finite true (2 ^ 23) (0 - 23)) in E.
        unfold F32.ltb, SFltb in E. rewrite SFcompare_neg in E. exact E. }
      destruct (scale_to_pcm m e Hv Hle) as [m3 [e3 [E3 Hr]]].
      change (F32.of_Z 32767) with (S754_finite false 16776704 (-9)) in E3 |- *.
      unfold F32.mul, F32.prec, F32.emax in E3 |- *. cbn [SFmul xorb] in E3 |- *.
      rewrite binary_round_aux_opp, E3. cbn [SFopp negb].
      unfold F32.to_int, F32.trunc. cbn [cond_Zopp].
      replace ((int_min <=? - Z.shiftl (Zpos m3) e3) && (- Z.shiftl (Zpos m3) e3 <=? int_max))
        with true by (symmetry; apply andb_true_iff; unfold int_min, int_max; lia).
      cbn [bind]. rewrite to_int16_small by lia.
      eexists. split; [reflexivity | lia].
    + (* a positive sample *)
      destruct (S754_finite false m e >? F32.of_Z 1)%f32 eqn:E.
      { exists 32767. split; [reflexivity | lia]. }
      change ((S754_finite false m e <? F32.opp (F32.of_Z 1))%f32) with false. cbv iota.
      assert (Hle : (V (Zpos m) e <= 1)%R) by (apply not_gt_one; assumption).
      destruct (scale_to_pcm m e Hv Hle) as [m3 [e3 [E3 Hr]]].
      rewrite E3. unfold F32.to_int, F32.trunc. cbn [cond_Zopp].
      replace ((int_min <=? Z.shiftl (Zpos m3) e3) && (Z.shiftl (Zpos m3) e3 <=? int_max))
        with true by (symmetry; apply andb_true_iff; unfold int_min, int_max; lia).
      cbn [bind]. rewrite to_int16_small by lia.
      eexists. split; [reflexivity | lia].
Qed.

(** Every sample that is not a NaN (infinities included) is converted to an
    integer between -32767 and 32767: the conversion to [int] is defined
    and the cast to [int16_t] never wraps.  A buffer without NaN is
    converted in full. *)
Theorem saveAudioToFile_pcm_range (audio : list F32.t) :
  Forall (fun s => valid_binary 24 128 s = true /\ F32.is_nan s = false) audio ->
  exists pcm,
    saveAudioToFile_pcm audio = Ok pcm
    /\ vsize pcm = vsize audio
    /\ Forall (fun v => -32767 <= v <= 32767) pcm.
Proof.
  intros Ha. unfold saveAudioToFile_pcm. cbv zeta.
  pose proof (vsize_nonneg audio) as H0.
  apply (for_range_total
           (fun pcm : list Z => vsize pcm = vsize audio
                                /\ Forall (fun v => -32767 <= v <= 32767) pcm)).
  - split; [apply vmake_size; lia|]. unfold vmake. apply Forall_forall.
    intros v Hv. apply repeat_spec in Hv. lia.
  - intros i pcm Hi [Sz Hf].
    destruct (vget_ok audio i ltac:(lia)) as [s [Es Hn]]. rewrite Es. cbn [bind].
    apply nth_error_In in Hn. rewrite Forall_forall in Ha. destruct (Ha s Hn) as [Hv Hnan].
    destruct (pcm_sample_range s Hv Hnan) as [v [Ev Hr]]. rewrite Ev. cbn [bind].
    destruct (vset_ok pcm i v ltac:(lia)) as [pcm' [E Sz']].
    exists pcm'. split; [exact E|]. split; [lia|].
    apply (vset_Forall _ pcm pcm' i v Hf Hr E).
Qed.

Lemma saveAudioToFile_pcm_range_witness :
  exists pcm,
    saveAudioToFile_pcm
      [F32.lit 1 2; F32.opp (F32.of_Z 3); S754_infinity false; F32.zero] = Ok pcm
    /\ vsize pcm = 4
    /\ Forall (fun v => -32767 <= v <= 32767) pcm.
Proof.
  apply (saveAudioToFile_pcm_range
           [F32.lit 1 2; F32.opp (F32.of_Z 3); S754_infinity false; F32.zero]).
  repeat constructor.
Defined.

(** A NaN sample is clamped by neither comparison, and its conversion to
    [int] is undefined: a buffer that holds a NaN cannot be converted. *)
Theorem saveAudioToFile_pcm_nan (audio : list F32.t) :
  In F32.nan audio -> saveAudioToFile_pcm audio = Err CastOutOfRange.
Proof.
  intros Hin. unfold saveAudioToFile_pcm. cbv zeta.
  pose proof (vsize_nonneg audio) as H0.
  pose proof (for_range_rule
                (fun k (pcm : list Z) =>
                   vsize pcm = vsize audio
                   /\ forall j, 0 <= j < k -> nth_error audio (Z.to_nat j) <> Some F32.nan)
                (fun e => e = CastOutOfRange)
                0 (vsize audio)
                (fun i pcm => s <- vget audio i ;; v <- pcm_sample s ;; vset pcm i v)
                (vmake (vsize audio) 0) H0) as H.
  match type of H with ?A -> ?B -> _ => assert (Ha : A); [|assert (Hb : B)] end.
  - split; [apply vmake_size; lia | intros j Hj; lia].
  - intros k pcm Hk [Sz Hnn].
    destruct (vget_ok audio k ltac:(lia)) as [s [Es Hn]]. rewrite Es. cbn [bind].
    destruct s as [b|b| |b m e].
    + destruct (pcm_sample (S754_zero b)) as [v|e] eqn:Ev;
        [|destruct b; vm_compute in Ev; discriminate].
      cbn [bind]. destruct (vset_ok pcm k v ltac:(lia)) as [pcm' [E Sz']]. rewrite E.
      split; [lia|]. intros j Hj. destruct (Z.eq_dec j k) as [->|]; [rewrite Hn; discriminate|].
      apply Hnn. lia.
    + destruct (pcm_sample (S754_infinity b)) as [v|e] eqn:Ev;
        [|destruct b; vm_compute in Ev; discriminate].
      cbn [bind]. destruct (vset_ok pcm k v ltac:(lia)) as [pcm' [E Sz']]. rewrite E.
      split; [lia|]. intros j Hj. destruct (Z.eq_dec j k) as [->|]; [rewrite Hn; discriminate|].
      apply Hnn. lia.
    + reflexivity.
    + destruct (pcm_sample (S754_finite b m e)) as [v|er] eqn:Ev.
      * cbn [bind]. destruct (vset_ok pcm k v ltac:(lia)) as [pcm' [E Sz']]. rewrite E.
        split; [lia|]. intros j Hj. destruct (Z.eq_dec j k) as [->|]; [rewrite Hn; discriminate|].
        apply Hnn. lia.
      * cbn [bind]. unfold pcm_sample in Ev. cbv zeta in Ev.
        match type of Ev with bind ?x _ = _ => destruct x as [z|er'] eqn:Ez end;
          [discriminate|]. cbn [bind] in Ev. injection Ev as <-.
        unfold F32.to_int in Ez.
        destruct (F32.trunc _) as [z|]; [|congruence].
        destruct (_ && _); congruence.
  - specialize (H Ha Hb).
    destruct (for_range 0 (vsize audio) _ (vmake (vsize audio) 0)) as [pcm|e].
    + exfalso. destruct H as [_ Hnn].
      apply In_nth_error in Hin. destruct Hin as [n Hn].
      apply (Hnn (Z.of_nat n)).
      * split; [lia|]. assert (n < length audio)%nat by (apply nth_error_Some; congruence).
        unfold vsize. lia.
      * rewrite Nat2Z.id. exact Hn.
    + congruence.
Qed.

Lemma saveAudioToFile_pcm_nan_witness :
  saveAudioToFile_pcm [F32.zero; F32.nan; F32.of_Z 1] = Err CastOutOfRange.
Proof.
  apply (saveAudioToFile_pcm_nan [F32.zero; F32.nan; F32.of_Z 1]).
  right. left. reflexivity.
Defined.

(** ** Silence: arithmetic on zeros *)

(** A zero of either sign. *)
Definition is_zero (x : F32.t) : Prop := exists s, x = S754_zero s.

(** A zero or a finite number: neither a NaN nor an infinity. *)
Definition is_finite (x : F32.t) : bool :=
  match x with S754_zero _ | S754_finite _ _ _ => true | _ => false end.

(** A value between -1 and 1, as the cosine and the sine are. *)
Definition in_unit_range (x : F32.t) : Prop :=
  valid_binary 24 128 x = true
  /\ (F32.opp (F32.of_Z 1) <=? x)%f32 = true /\ (x <=? F32.of_Z 1)%f32 = true.

Lemma is_zero_zero : is_zero F32.zero.
Proof. exists false. reflexivity. Qed.

Lemma mul_zero_l (x y : F32.t) : is_zero x -> is_finite y = true -> is_zero (x * y)%f32.
Proof.
  intros [s ->] Hy. destruct y as [sy|sy| |sy my ey]; try discriminate;
    eexists; reflexivity.
Qed.

Lemma mul_zero_r (x y : F32.t) : is_finite x = true -> is_zero y -> is_zero (x * y)%f32.
Proof.
  intros Hx [s ->]. destruct x as [sx|sx| |sx mx ex]; try discriminate;
    eexists; reflexivity.
Qed.

Lemma add_zero (x y : F32.t) : is_zero x -> is_zero y -> is_zero (x + y)%f32.
Proof. intros [s ->] [t ->]. destruct s, t; eexists; reflexivity. Qed.

Lemma sub_zero (x y : F32.t) : is_zero x -> is_zero y -> is_zero (x - y)%f32.
Proof. intros [s ->] [t ->]. destruct s, t; eexists; reflexivity. Qed.

Lemma zero_not_positive (x : F32.t) : is_zero x -> (x >? F32.zero)%f32 = false.
Proof. intros [s ->]. reflexivity. Qed.

Lemma in_unit_range_finite (x : F32.t) : in_unit_range x -> is_finite x = true.
Proof.
  intros [_ [H1 H2]]. destruct x as [s|s| |s m e]; try reflexivity.
  - destruct s; discriminate.
  - discriminate.
Qed.

Lemma SFmul_between_l (m1 : positive) (e1 : Z) (m2 : positive) (e2 : Z)
  (ma : positive) (ea : Z) (mb : positive) (eb : Z) :
  2 ^ 23 <= Zpos m1 ->
  bounded 24 128 ma ea = true -> bounded 24 128 mb eb = true ->
  (V (Zpos ma) ea <= V (Zpos m1) e1 * V (Zpos m2) e2 <= V (Zpos mb) eb)%R ->
  exists m3 e3,
    SFmul 24 128 (S754_finite false m1 e1) (S754_finite false m2 e2)
      = S754_finite false m3 e3
    /\ bounded 24 128 m3 e3 = true
    /\ (V (Zpos ma) ea <= V (Zpos m3) e3 <= V (Zpos mb) eb)%R.
Proof.
  intros H1 Ha Hb Hx. cbn [SFmul xorb].
  assert (Hv : V (Zpos (m1 * m2)) (e1 + e2) = (V (Zpos m1) e1 * V (Zpos m2) e2)%R).
  { unfold V. rewrite Pos2Z.inj_mul, mult_IZR, bpow_add. ring. }
  destruct (bra_between (m1 * m2) (e1 + e2) ma ea mb eb) as [m3 [e3 [E [B [Hv3 _]]]]]; auto.
  - pose proof (digits2_ge (m1 * m2) 24) as Hd.
    assert (2 ^ (24 - 1) <= Zpos (m1 * m2)).
    { rewrite Pos2Z.inj_mul. change (2 ^ (24 - 1)) with (2 ^ 23). nia. }
    specialize (Hd H). unfold fexp32. lia.
  - now rewrite Hv.
  - exists m3, e3. auto.
Qed.

(** [1.0f - c] for a finite [c] of magnitude at most 1: a zero, or a
    positive float between 2^-24 and 2. *)
Lemma one_minus (s : bool) (m : positive) (e : Z) :
  bounded 24 128 m e = true -> (V (Zpos m) e <= 1)%R ->
  let d := (F32.of_Z 1 - S754_finite s m e)%f32 in
  is_zero d \/ finite_in d (bpow (-24)) (bpow 1).
Proof.
  intros B Hv d. subst d.
  change (F32.of_Z 1) with (S754_finite false (2 ^ 23) (0 - 23)).
  unfold F32.sub, F32.prec, F32.emax. cbn [SFsub cond_Zopp].
  pose proof (bounded_range m e B) as [He [Hm [Hn [Hlt Hge]]]].
  set (ez := Z.min (0 - 23) e).
  assert (Hez1 : ez <= 0 - 23) by (subst ez; lia).
  assert (Hez2 : ez <= e) by (subst ez; lia).
  rewrite !shl_align_fst by assumption.
  set (M1 := Zpos (2 ^ 23) * 2 ^ (0 - 23 - ez)).
  set (M2 := Zpos m * 2 ^ (e - ez)).
  assert (HV1 : V M1 ez = 1%R).
  { subst M1. rewrite V_shift by lia. replace (ez + (0 - 23 - ez)) with (0 - 23) by lia.
    apply (V_pow2 0). }
  assert (HV2 : V M2 ez = V (Zpos m) e).
  { subst M2. rewrite V_shift by lia. f_equal. lia. }
  assert (HM2 : 0 < M2).
  { subst M2. pose proof (Z.pow_pos_nonneg 2 (e - ez) ltac:(lia) ltac:(lia)). lia. }
  assert (HM1 : 0 < M1).
  { subst M1. pose proof (Z.pow_pos_nonneg 2 (0 - 23 - ez) ltac:(lia) ltac:(lia)). lia. }
  assert (Hsub : forall a b, V (a - b) ez = (V a ez - V b ez)%R).
  { intros a b. unfold V. rewrite minus_IZR. ring. }
  assert (Hadd : forall a b, V (a + b) ez = (V a ez + V b ez)%R).
  { intros a b. unfold V. rewrite plus_IZR. ring. }
  pose proof (bpow_pos ez) as Hpez.
  assert (Hb24 : (bpow (-24) <= bpow ez)%R \/ (V (Zpos m) e <= / 2)%R).
  { destruct (Z.le_gt_cases (-24) ez) as [Hc|Hc]; [left; apply bpow_le; exact Hc|].
    right. assert (Hel : e < -24) by (subst ez; lia).
    apply Rle_trans with (bpow (24 + e)); [lra|].
    apply Rle_trans with (bpow (-1)); [apply bpow_le; lia|].
    right. apply Rmult_eq_reg_r with (bpow 1).
    - rewrite <- bpow_add. change (bpow (-1 + 1)) with 1%R.
      rewrite (bpow_IZR 1) by lia. change (IZR (2 ^ 1)) with 2%R. lra.
    - pose proof (bpow_pos 1). lra. }
  assert (H24 : (bpow (-24) <= / 2)%R).
  { apply Rle_trans with (bpow (-1)); [apply bpow_le; lia|].
    right. apply Rmult_eq_reg_r with (bpow 1).
    - rewrite <- bpow_add. change (bpow (-1 + 1)) with 1%R.
      rewrite (bpow_IZR 1) by lia. change (IZR (2 ^ 1)) with 2%R. lra.
    - pose proof (bpow_pos 1). lra. }
  assert (H2 : bpow 1 = 2%R) by (rewrite (bpow_IZR 1) by lia; reflexivity).
  destruct s; cbn [cond_Zopp].
  - (* 1 - (-|c|) = 1 + |c| *)
    right. replace (M1 - - M2) with (M1 + M2) by lia.
    destruct (M1 + M2) as [|p|p] eqn:Ep; try lia.
    cbn [binary_normalize].
    destruct (binary_round_between p ez (2 ^ 23) (-24 - 23) (2 ^ 23) (1 - 23))
      as [m3 [e3 [E3 [B3 Hv3]]]].
    + apply bounded_pow2. lia.
    + apply bounded_pow2. lia.
    + rewrite !V_pow2, <- Ep, Hadd, HV1, HV2, H2.
      pose proof (bpow_pos (-149)). split; lra.
    + rewrite !V_pow2 in Hv3. exists m3, e3. auto.
  - (* 1 - |c| *)
    destruct (M1 - M2) as [|p|p] eqn:Ep.
    + left. exists false. reflexivity.
    + right. cbn [binary_normalize].
      destruct (binary_round_between p ez (2 ^ 23) (-24 - 23) (2 ^ 23) (1 - 23))
        as [m3 [e3 [E3 [B3 Hv3]]]].
      * apply bounded_pow2. lia.
      * apply bounded_pow2. lia.
      * pose proof (bpow_pos (-149)).
        rewrite !V_pow2, <- Ep, Hsub, HV1, HV2, H2. split; [|lra].
        destruct Hb24 as [Hc|Hc]; [|lra].
        (* the difference is a positive multiple of 2^ez *)
        assert (Hp1 : (1 <= IZR (M1 - M2))%R) by (apply IZR_le; lia).
        rewrite <- HV1, <- HV2, <- Hsub. unfold V.
        apply Rle_trans with (1 * bpow ez)%R; [lra|].
        apply Rmult_le_compat_r; lra.
      * rewrite !V_pow2 in Hv3. exists m3, e3. auto.
    + exfalso.
      assert (Hneg : (V (M1 - M2) ez < 0)%R).
      { rewrite Ep. unfold V. change (Zneg p) with (- Zpos p). rewrite opp_IZR.
        assert (1 <= IZR (Zpos p))%R by (apply IZR_le; lia). nra. }
      rewrite Hsub, HV1, HV2 in Hneg. lra.
Qed.

(** The window coefficient [0.5f * (1.0f - c)] is finite. *)
Lemma hann_coefficient_finite (c : F32.t) :
  in_unit_range c -> is_finite (F32.lit 5 10 * (F32.of_Z 1 - c))%f32 = true.
Proof.
  intros Hc. pose proof (in_unit_range_finite c Hc) as Hf.
  destruct Hc as [Hv [Hlo Hhi]].
  destruct c as [s|s| |s m e]; try discriminate.
  - destruct s; reflexivity.
  - cbn [valid_binary] in Hv.
    assert (Hle : (V (Zpos m) e <= 1)%R).
    { destruct s.
      - apply not_gt_one; [exact Hv|].
        change (F32.opp (F32.of_Z 1)) with (S754_finite true (2 ^ 23) (0 - 23)) in Hlo.
        unfold F32.leb, SFleb in Hlo. rewrite SFcompare_neg in Hlo.
        unfold SFltb.
        change (F32.of_Z 1) with (S754_finite false (2 ^ 23) (0 - 23)).
        rewrite (SFcompare_antisym (S754_finite false m e) (S754_finite false (2 ^ 23) (0 - 23))).
        destruct (SFcompare (S754_finite false m e) (S754_finite false (2 ^ 23) (0 - 23)))
          as [[| |]|]; cbn in *; congruence.
      - apply not_gt_one; [exact Hv|].
        unfold F32.leb, SFleb in Hhi. unfold SFltb.
        rewrite (SFcompare_antisym (S754_finite false m e) (F32.of_Z 1)).
        destruct (SFcompare (S754_finite false m e) (F32.of_Z 1))
          as [[| |]|]; cbn in *; congruence. }
    destruct (one_minus s m e Hv Hle) as [[z Ez]|[m3 [e3 [E3 [B3 [Hl3 Hh3]]]]]].
    + rewrite Ez. reflexivity.
    + rewrite E3. change (F32.lit 5 10) with (S754_finite false (2 ^ 23) (-1 - 23)).
      destruct (SFmul_between_l (2 ^ 23) (-1 - 23) m3 e3 (2 ^ 23) (-25 - 23) (2 ^ 23) (0 - 23))
        as [m4 [e4 [E4 _]]].
      * reflexivity.
      * apply bounded_pow2. lia.
      * apply bounded_pow2. lia.
      * rewrite !V_pow2. replace (-25) with (-1 + -24) by lia.
        replace (bpow 0) with (bpow (-1 + 1)) by reflexivity.
        rewrite !bpow_add. pose proof (bpow_pos (-1)). split; nra.
      * unfold F32.mul, F32.prec, F32.emax. rewrite E4. reflexivity.
Qed.

(** ** Silence: the window and the transform *)

(** What the theorems on silent input assume of the math library: the
    cosine and the sine of a finite argument are binary32 values between
    -1 and 1, and [hypot] of two zeros is +0 (C standard, Annex F). *)
Definition libm_ranges (L : Libm) : Prop :=
  (forall x, is_finite x = true -> in_unit_range (cosf x))
  /\ (forall x, is_finite x = true -> in_unit_range (sinf x))
  /\ (forall x y, is_zero x -> is_zero y -> hypotf x y = F32.zero).

Lemma vget_Forall {A : Type} (P : A -> Prop) (v : list A) (i : Z) (a : A) :
  Forall P v -> vget v i = Ok a -> P a.
Proof.
  intros Hf. unfold vget. destruct ((0 <=? i) && (i <? vsize v)); [|discriminate].
  destruct (nth_error v (Z.to_nat i)) as [b|] eqn:E; [|discriminate].
  intros H. injection H as <-. apply nth_error_In in E.
  rewrite Forall_forall in Hf. apply Hf. exact E.
Qed.

Lemma Forall_vmake {A : Type} (P : A -> Prop) (n : Z) (a : A) : P a -> Forall P (vmake n a).
Proof.
  intros Ha. unfold vmake. apply Forall_forall. intros x Hx.
  apply repeat_spec in Hx. subst x. exact Ha.
Qed.

(** The argument of the cosine in [applyHannWindow]. *)
Definition hann_argument (N i : Z) : F32.t :=
  (F32.of_Z i * F64.to_f32 (F64.of_Z 2 * F64.pi / F64.of_Z (szsub N 1))%f64)%f32.

(** The angle of the [i]-th twiddle factor of a transform of size [N]. *)
Definition twiddle_angle (N i : Z) : F32.t :=
  F64.to_f32 (F64.of_f32 (F32.opp (F32.of_Z 2)) * F64.pi * F64.of_Z i / F64.of_Z N)%f64.

Definition arguments_finite (N : Z) : bool :=
  forallb (fun i => is_finite (hann_argument N i)) (zrange 0 N)
  && forallb (fun i => is_finite (twiddle_angle N i)) (zrange 0 (N / 2)).

Lemma arguments_finite_1024 : arguments_finite 1024 = true.
Proof. vm_compute. reflexivity. Qed.

Lemma arguments_finite_2048 : arguments_finite 2048 = true.
Proof. vm_compute. reflexivity. Qed.

Lemma arguments_finite_spec (N : Z) :
  arguments_finite N = true ->
  (forall i, 0 <= i < N -> is_finite (hann_argument N i) = true)
  /\ (forall i, 0 <= i < N / 2 -> is_finite (twiddle_angle N i) = true).
Proof.
  unfold arguments_finite. intros H. apply andb_true_iff in H. destruct H as [H1 H2].
  rewrite forallb_forall in H1, H2. split; intros i Hi.
  - apply H1. apply zrange_bounds. exact Hi.
  - apply H2. apply zrange_bounds. exact Hi.
Qed.

(** A complex zero, and a finite complex number. *)
Definition czero (c : complex) : Prop := is_zero (re c) /\ is_zero (im c).
Definition cfinite (c : complex) : Prop := is_finite (re c) = true /\ is_finite (im c) = true.

Lemma is_zero_finite (x : F32.t) : is_zero x -> is_finite x = true.
Proof. intros [s ->]. reflexivity. Qed.

(** When the real part of the product formula is not a NaN, the product
    is the formula's value. *)
Lemma mul_formula (z w : complex) :
  F32.is_nan (re z * re w - im z * im w)%f32 = false ->
  C32.mul z w
  = mkC (re z * re w - im z * im w)%f32 (re z * im w + im z * re w)%f32.
Proof. intros H. unfold C32.mul. cbv zeta. rewrite H. reflexivity. Qed.

Lemma czero_mul (a w : complex) : czero a -> cfinite w -> czero (C32.mul a w).
Proof.
  intros [Ha1 Ha2] [Hw1 Hw2].
  assert (Hre : is_zero (re a * re w - im a * im w)%f32)
    by (apply sub_zero; apply mul_zero_l; assumption).
  rewrite mul_formula by (destruct Hre as [s ->]; reflexivity).
  split; cbn [re im]; [exact Hre|].
  apply add_zero; apply mul_zero_l; assumption.
Qed.

Lemma czero_add (a b : complex) : czero a -> czero b -> czero (C32.add a b).
Proof. intros [Ha1 Ha2] [Hb1 Hb2]. split; cbn [C32.add re im]; apply add_zero; assumption. Qed.

Lemma czero_sub (a b : complex) : czero a -> czero b -> czero (C32.sub a b).
Proof. intros [Ha1 Ha2] [Hb1 Hb2]. split; cbn [C32.sub re im]; apply sub_zero; assumption. Qed.

Section SilentTransform.
Context {L : Libm}.
Hypothesis HL : libm_ranges L.

Lemma applyHannWindow_zero (buffer b : list F32.t) :
  vsize buffer <= int_max ->
  (forall i, 0 <= i < vsize buffer -> is_finite (hann_argument (vsize buffer) i) = true) ->
  Forall is_zero buffer ->
  applyHannWindow buffer = Ok b -> Forall is_zero b.
Proof.
  intros Hmax Harg Hz. unfold applyHannWindow. cbv zeta.
  rewrite (to_int_small (vsize buffer)) by (pose proof (vsize_nonneg buffer); lia).
  intros H.
  pose proof (for_range_inv (fun v : list F32.t => Forall is_zero v) (fun _ => True)
                0 (vsize buffer)
                (fun i buffer0 =>
                   b0 <- vget buffer0 i ;;
                   vset buffer0 i
                     (b0 * (F32.lit 5 10 *
                            (F32.of_Z 1 -
                             cosf (F32.of_Z i *
                                   F64.to_f32 (F64.of_Z 2 * F64.pi
                                               / F64.of_Z (szsub (vsize buffer) 1))%f64))))%f32)
                buffer Hz) as Hinv.
  rewrite H in Hinv. apply Hinv.
  intros k v Hk Hv.
  destruct (vget v k) as [a|] eqn:Ea; cbn [bind]; [|exact I].
  match goal with |- match vset v k ?x with _ => _ end =>
    destruct (vset v k x) as [v'|] eqn:Ev; [|exact I] end.
  apply (vset_Forall _ _ _ _ _ Hv) in Ev; [exact Ev|].
  apply mul_zero_l; [apply (vget_Forall _ _ _ _ Hv Ea)|].
  apply hann_coefficient_finite. apply (proj1 HL). apply (Harg k Hk).
Qed.

Lemma twiddle_finite (N i : Z) :
  is_finite (twiddle_angle N i) = true -> cfinite (fa_twiddle N i).
Proof.
  intros H. destruct HL as [Hc [Hs _]]. split; cbn [fa_twiddle c32_arith re im].
  - apply in_unit_range_finite. apply Hc. exact H.
  - apply in_unit_range_finite. apply Hs. exact H.
Qed.

Lemma vswap_zero (x x' : list complex) (i j : Z) :
  Forall czero x -> vswap x i j = Ok x' -> Forall czero x'.
Proof.
  intros Hx. unfold vswap.
  destruct (vget x i) as [a|] eqn:Ea; cbn [bind]; [|discriminate].
  destruct (vget x j) as [b|] eqn:Eb; cbn [bind]; [|discriminate].
  destruct (vset x i b) as [x1|] eqn:E1; cbn [bind]; [|discriminate].
  intros E2.
  apply (vset_Forall _ _ _ _ _ Hx (vget_Forall _ _ _ _ Hx Eb)) in E1.
  apply (vset_Forall _ _ _ _ _ E1 (vget_Forall _ _ _ _ Hx Ea)) in E2. exact E2.
Qed.

Lemma bit_reverse_zero (N : Z) (x x' : list complex) :
  Forall czero x -> bit_reverse N x = Ok x' -> Forall czero x'.
Proof.
  intros Hx. unfold bit_reverse. intros H.
  match type of H with (' _ <- for_range 1 N ?body ?s ;; _) = _ =>
    pose proof (for_range_inv (fun st : Z * list complex => Forall czero (snd st))
                  (fun _ => True) 1 N body s Hx) as Hinv;
    destruct (for_range 1 N body s) as [[j0 x0]|e]; [|discriminate] end.
  cbn [bind] in H. injection H as <-. apply Hinv.
  intros k [j v] Hk Hv. cbn [snd] in Hv.
  destruct (bitrev_while 65 j (Z.shiftr N 1)) as [[j1 bit]|]; cbn [bind]; [|exact I].
  destruct (k <? j1 + bit); [|exact Hv].
  destruct (vswap v k (j1 + bit)) as [v'|] eqn:Ev; cbn [bind snd]; [|exact I].
  apply (vswap_zero v v' k (j1 + bit) Hv Ev).
Qed.

Lemma make_twiddles_finite (N : Z) (tw : list complex) :
  (forall i, 0 <= i < N / 2 -> cfinite (fa_twiddle N i)) ->
  make_twiddles N = Ok tw -> Forall cfinite tw.
Proof.
  intros Hf. unfold make_twiddles. intros H.
  pose proof (for_range_inv (fun v : list complex => Forall cfinite v) (fun _ => True)
                0 (N / 2) (fun i twiddles => vset twiddles i (fa_twiddle N i))
                (vmake (N / 2) fa_zero)) as Hinv.
  rewrite H in Hinv. apply Hinv.
  - apply Forall_vmake. split; reflexivity.
  - intros k v Hk Hv. destruct (vset v k (fa_twiddle N k)) as [v'|] eqn:Ev; [|exact I].
    apply (vset_Forall _ _ _ _ _ Hv (Hf k Hk) Ev).
Qed.

Lemma butterfly_zero (tw : list complex) (step half_len i j : Z) (x x' : list complex) :
  Forall cfinite tw -> Forall czero x ->
  butterfly tw step half_len i j x = Ok x' -> Forall czero x'.
Proof.
  intros Htw Hx. unfold butterfly. cbv zeta.
  destruct (vget tw (szmul j step)) as [w|] eqn:Ew; cbn [bind]; [|discriminate].
  destruct (vget x (i + j + half_len)) as [a|] eqn:Ea; cbn [bind]; [|discriminate].
  destruct (vget x (i + j)) as [b|] eqn:Eb; cbn [bind]; [|discriminate].
  pose proof (czero_mul a w (vget_Forall _ _ _ _ Hx Ea) (vget_Forall _ _ _ _ Htw Ew)) as Ht.
  pose proof (vget_Forall _ _ _ _ Hx Eb) as Hb.
  destruct (vset x (i + j + half_len) _) as [x1|] eqn:E1; cbn [bind]; [|discriminate].
  apply (vset_Forall _ _ _ _ _ Hx (czero_sub _ _ Hb Ht)) in E1.
  destruct (vget x1 (i + j)) as [b1|] eqn:Eb1; cbn [bind]; [|discriminate].
  intros E2.
  apply (vset_Forall _ _ _ _ _ E1 (czero_add _ _ (vget_Forall _ _ _ _ E1 Eb1) Ht)) in E2.
  exact E2.
Qed.

Lemma stage_zero (N : Z) (tw : list complex) (len : Z) (x x' : list complex) :
  Forall cfinite tw -> Forall czero x ->
  stage N tw len x = Ok x' -> Forall czero x'.
Proof.
  intros Htw Hx. unfold stage. destruct (len =? 0); [discriminate|]. cbv zeta.
  unfold for_step. intros H.
  match type of H with for_range 0 ?n ?body x = _ =>
    pose proof (for_range_inv (fun v : list complex => Forall czero v) (fun _ => True)
                  0 n body x Hx) as Hinv end.
  rewrite H in Hinv. apply Hinv.
  intros k v Hk Hv.
  match goal with |- match for_range 0 ?n ?body v with _ => _ end =>
    pose proof (for_range_inv (fun v : list complex => Forall czero v) (fun _ => True)
                  0 n body v Hv) as Hin;
    destruct (for_range 0 n body v) as [v'|]; [|exact I] end.
  apply Hin. intros j u Hj Hu.
  destruct (butterfly tw (N / len) (len / 2) (0 + k * len) j u) as [u'|] eqn:Eu; [|exact I].
  apply (butterfly_zero _ _ _ _ _ _ _ Htw Hu Eu).
Qed.

Lemma stages_zero (fuel : nat) (N : Z) (tw : list complex) (len : Z) (x x' : list complex) :
  Forall cfinite tw -> Forall czero x ->
  stages fuel N tw len x = Ok x' -> Forall czero x'.
Proof.
  intros Htw. revert len x. induction fuel as [|fuel IH]; intros len x Hx; cbn [stages].
  - discriminate.
  - destruct (len <=? N).
    + destruct (stage N tw len x) as [x1|] eqn:E1; cbn [bind]; [|discriminate].
      apply IH. apply (stage_zero _ _ _ _ _ Htw Hx E1).
    + intros H. injection H as <-. exact Hx.
Qed.

Lemma FFT_zero (x y : list complex) :
  (forall i, 0 <= i < vsize x / 2 -> is_finite (twiddle_angle (vsize x) i) = true) ->
  Forall czero x -> FFT x = Ok y -> Forall czero y.
Proof.
  intros Hang Hx. unfold FFT. cbv zeta.
  destruct (vsize x <=? 1); [intros H; injection H as <-; exact Hx|].
  destruct (negb (Z.land (vsize x) (vsize x - 1) =? 0)); [discriminate|].
  destruct (bit_reverse (vsize x) x) as [x1|] eqn:E1; cbn [bind]; [|discriminate].
  destruct (make_twiddles (vsize x)) as [tw|] eqn:E2; cbn [bind]; [|discriminate].
  apply stages_zero.
  - apply (make_twiddles_finite (vsize x) tw); [|exact E2].
    intros i Hi. apply twiddle_finite. apply Hang. exact Hi.
  - apply (bit_reverse_zero _ _ _ Hx E1).
Qed.

End SilentTransform.

(** ** Silence: the onset envelope *)

Section SilentOnsets.
Context {L : Libm}.
Hypothesis HL : libm_ranges L.

Lemma fill_buffer_zero (samples buffer b : list F32.t) (frame windowSize : Z) :
  Forall is_zero samples -> Forall is_zero buffer ->
  fill_buffer samples frame windowSize buffer = Ok b -> Forall is_zero b.
Proof.
  intros Hs Hb. unfold fill_buffer. intros H.
  match type of H with for_range 0 ?n ?body ?s = _ =>
    pose proof (for_range_inv (fun v : list F32.t => Forall is_zero v) (fun _ => True)
                  0 n body s Hb) as Hinv end.
  rewrite H in Hinv. apply Hinv.
  intros k v Hk Hv. cbv zeta.
  destruct (szadd (szmul frame hopSize) k <? vsize samples).
  - destruct (vget samples _) as [a|] eqn:Ea; cbn [bind]; [|exact I].
    destruct (vset v k a) as [v'|] eqn:Ev; [|exact I].
    apply (vset_Forall _ _ _ _ _ Hv (vget_Forall _ _ _ _ Hs Ea) Ev).
  - cbn [bind]. destruct (vset v k F32.zero) as [v'|] eqn:Ev; [|exact I].
    apply (vset_Forall _ _ _ _ _ Hv is_zero_zero Ev).
Qed.

Lemma copy_zero (buffer : list F32.t) (windowSize : Z) (fb fb' : list complex) :
  Forall is_zero buffer -> Forall czero fb ->
  for_range 0 windowSize
    (fun i fftBuffer => b <- vget buffer i ;; vset fftBuffer i (mkC b F32.zero)) fb = Ok fb' ->
  Forall czero fb'.
Proof.
  intros Hb Hfb H.
  pose proof (for_range_inv (fun v : list complex => Forall czero v) (fun _ => True)
                0 windowSize
                (fun i fftBuffer => b <- vget buffer i ;; vset fftBuffer i (mkC b F32.zero))
                fb Hfb) as Hinv.
  rewrite H in Hinv. apply Hinv.
  intros k v Hk Hv.
  destruct (vget buffer k) as [a|] eqn:Ea; cbn [bind]; [|exact I].
  destruct (vset v k (mkC a F32.zero)) as [v'|] eqn:Ev; [|exact I].
  apply (vset_Forall _ _ _ _ _ Hv) in Ev; [exact Ev|].
  split; cbn [re im]; [apply (vget_Forall _ _ _ _ Hb Ea) | apply is_zero_zero].
Qed.

Lemma frame_flux_zero (sampleRate windowSize : Z) (fb : list complex)
  (pm pm' : list F32.t) (flux : F32.t) :
  Forall czero fb -> Forall (eq F32.zero) pm ->
  frame_flux sampleRate windowSize fb pm = Ok (flux, pm') ->
  flux = F32.zero /\ Forall (eq F32.zero) pm'.
Proof.
  intros Hfb Hpm. unfold frame_flux. intros H.
  match type of H with for_range 1 ?n ?body ?s = _ =>
    pose proof (for_range_inv
                  (fun st : F32.t * list F32.t =>
                     fst st = F32.zero /\ Forall (eq F32.zero) (snd st))
                  (fun _ => True) 1 n body s) as Hinv end.
  rewrite H in Hinv. cbn [fst snd] in Hinv. apply Hinv; [auto|].
  intros k [fl prev] Hk [Hfl Hprev]. cbn [fst snd] in Hfl, Hprev. subst fl. cbv zeta.
  destruct (vget fb k) as [c|] eqn:Ec; cbn [bind]; [|exact I].
  destruct (vget prev k) as [p|] eqn:Ep; cbn [bind]; [|exact I].
  destruct (vget_Forall _ _ _ _ Hfb Ec) as [Hre Him].
  assert (Hmag : C32.abs c = F32.zero).
  { unfold C32.abs. apply (proj2 (proj2 HL)); assumption. }
  rewrite Hmag. rewrite <- (vget_Forall _ _ _ _ Hprev Ep).
  change ((F32.zero - F32.zero >? F32.zero)%f32) with false. cbv iota.
  destruct (vset prev k F32.zero) as [prev'|] eqn:Ev; cbn [bind fst snd]; [|exact I].
  split; [reflexivity|]. apply (vset_Forall _ _ _ _ _ Hprev eq_refl Ev).
Qed.

(** The state of the frame loop on silent input. *)
Definition silent_state (windowSize numFrames : Z)
  (st : list F32.t * list F32.t * list complex * list F32.t) : Prop :=
  let '(sf, b, fb, pm) := st in
  (vsize sf = numFrames /\ vsize b = windowSize /\ vsize fb = windowSize
   /\ vsize pm = windowSize / 2 + 1)
  /\ Forall (eq F32.zero) sf /\ Forall is_zero b /\ Forall czero fb
  /\ Forall (eq F32.zero) pm.

Lemma flux_step_silent (samples : list F32.t) (sampleRate windowSize numFrames : Z) (n : nat)
  (frame : Z) (st : list F32.t * list F32.t * list complex * list F32.t) :
  (1 <= n < 31)%nat -> windowSize = 2 ^ Z.of_nat n ->
  arguments_finite windowSize = true ->
  Forall is_zero samples ->
  0 <= frame < numFrames ->
  silent_state windowSize numFrames st ->
  exists st', flux_step samples sampleRate windowSize frame st = Ok st'
              /\ silent_state windowSize numFrames st'.
Proof.
  intros Hn Hw Hargs Hs Hframe Hst.
  destruct (arguments_finite_spec windowSize Hargs) as [Hhann Hang].
  assert (Hwmax : windowSize <= int_max).
  { rewrite Hw. unfold int_max.
    pose proof (Z.pow_le_mono_r 2 (Z.of_nat n) 30 ltac:(lia) ltac:(lia)). lia. }
  destruct st as [[[sf b] fb] pm]. destruct Hst as [Hsz [Zsf [Zb [Zfb Zpm]]]].
  destruct (flux_step_total samples sampleRate windowSize numFrames n frame
              (sf, b, fb, pm) ltac:(lia) Hw Hframe Hsz) as [[[[sf' b'] fb'] pm'] [E Hsz']].
  exists (sf', b', fb', pm'). split; [exact E|]. split; [exact Hsz'|].
  destruct Hsz as [Ssf [Sb [Sfb Spm]]].
  unfold flux_step in E.
  destruct (fill_buffer samples frame windowSize b) as [b1|] eqn:E1; cbn [bind] in E;
    [|discriminate].
  pose proof (fill_buffer_zero _ _ _ _ _ Hs Zb E1) as Zb1.
  destruct (fill_buffer_total samples b frame windowSize Sb) as [b1' [E1' S1]].
  rewrite E1 in E1'. injection E1' as <-.
  destruct (applyHannWindow b1) as [b2|] eqn:E2; cbn [bind] in E; [|discriminate].
  assert (Zb2 : Forall is_zero b2).
  { apply (applyHannWindow_zero HL b1 b2); [lia | | exact Zb1 | exact E2].
    rewrite S1. exact Hhann. }
  match type of E with (x <- for_range 0 windowSize ?body fb ;; _) = _ =>
    destruct (for_range 0 windowSize body fb) as [fb1|] eqn:E3; cbn [bind] in E;
      [|discriminate] end.
  pose proof (copy_zero b2 windowSize fb fb1 Zb2 Zfb E3) as Zfb1.
  assert (S3 : vsize fb1 = windowSize).
  { pose proof (for_range_inv (fun v : list complex => vsize v = windowSize)
                  (fun _ => True) 0 windowSize
                  (fun i fftBuffer => b <- vget b2 i ;; vset fftBuffer i (mkC b F32.zero))
                  fb Sfb) as Hinv.
    rewrite E3 in Hinv. apply Hinv. intros k v Hk Hv.
    destruct (vget b2 k) as [a|]; cbn [bind]; [|exact I].
    destruct (vset v k (mkC a F32.zero)) as [v'|] eqn:Ev; [|exact I].
    apply vset_size in Ev. lia. }
  destruct (FFT fb1) as [fb2|] eqn:E4; cbn [bind] in E; [|discriminate].
  assert (Zfb2 : Forall czero fb2).
  { apply (FFT_zero HL fb1 fb2); [| exact Zfb1 | exact E4]. rewrite S3. exact Hang. }
  destruct (frame_flux sampleRate windowSize fb2 pm) as [[flux pm1]|] eqn:E5;
    cbn [bind] in E; [|discriminate].
  destruct (frame_flux_zero _ _ _ _ _ _ Zfb2 Zpm E5) as [Hflux Zpm1]. subst flux.
  destruct (vset sf frame F32.zero) as [sf1|] eqn:E6; cbn [bind] in E; [|discriminate].
  injection E as <- <- <- <-.
  split; [apply (vset_Forall _ _ _ _ _ Zsf eq_refl E6)|].
  split; [exact Zb2|]. split; [exact Zfb2 | exact Zpm1].
Qed.

Lemma spectral_flux_silent (samples : list F32.t) (sampleRate numFrames windowSize : Z)
  (n : nat) :
  (1 <= n < 31)%nat -> windowSize = 2 ^ Z.of_nat n ->
  arguments_finite windowSize = true ->
  Forall is_zero samples -> 0 <= numFrames ->
  exists flux, spectral_flux samples sampleRate numFrames windowSize = Ok flux
               /\ vsize flux = numFrames /\ Forall (eq F32.zero) flux.
Proof.
  intros Hn Hw Hargs Hs Hnf. unfold spectral_flux.
  assert (Hw2 : 2 <= windowSize).
  { rewrite Hw. destruct n as [|n]; [lia|]. rewrite pow2_S.
    pose proof (pow2_pos (Z.of_nat n) ltac:(lia)). lia. }
  assert (Hh : 0 <= windowSize / 2) by (apply Z.div_pos; lia).
  match goal with |- exists flux, (' _ <- for_range 0 numFrames ?body ?s ;; _) = _ /\ _ =>
    destruct (for_range_total (silent_state windowSize numFrames) 0 numFrames body s)
      as [[[[sf b] fb] pm] [E [Hsz [Zsf _]]]] end.
  - unfold silent_state. rewrite !vmake_size by lia.
    split; [auto|]. split; [apply Forall_vmake; reflexivity|].
    split; [apply Forall_vmake; apply is_zero_zero|].
    split; [apply Forall_vmake; split; apply is_zero_zero
           | apply Forall_vmake; reflexivity].
  - intros k st Hk Hst.
    apply (flux_step_silent samples sampleRate windowSize numFrames n k st); auto.
  - rewrite E. cbn [bind]. exists sf. split; [reflexivity|]. split; [apply Hsz | exact Zsf].
Qed.

Lemma max_element_zero (v : list F32.t) :
  v <> [] -> Forall (eq F32.zero) v -> max_element v = Ok F32.zero.
Proof.
  intros Hne Hv. destruct v as [|x rest]; [contradiction|]. cbn [max_element].
  inversion Hv as [|? ? Hx Hrest]; subst. f_equal.
  clear Hv Hne. induction Hrest as [|y rest Hy Hrest IH]; [reflexivity|].
  subst y. cbn [fold_left]. change ((F32.zero <? F32.zero)%f32) with false. cbv iota.
  exact IH.
Qed.

Lemma add_normalized_silent (numFrames : Z) (spectralFlux onsetStrength : list F32.t) :
  1 <= numFrames -> vsize spectralFlux = numFrames ->
  Forall (eq F32.zero) spectralFlux ->
  add_normalized numFrames spectralFlux onsetStrength = Ok onsetStrength.
Proof.
  intros Hn Hs Hz. unfold add_normalized.
  rewrite max_element_zero; [reflexivity | | exact Hz].
  intros ->. unfold vsize in Hs. cbn in Hs. lia.
Qed.

Lemma insert_sorted_zero (x : F32.t) (l : list F32.t) :
  x = F32.zero -> Forall (eq F32.zero) l -> Forall (eq F32.zero) (insert_sorted x l).
Proof.
  intros -> Hl. induction Hl as [|h t Hh Ht IH]; cbn [insert_sorted].
  - constructor; [reflexivity | constructor].
  - subst h. change ((F32.zero <? F32.zero)%f32) with false. cbv iota.
    constructor; [reflexivity | exact IH].
Qed.

Lemma sort_floats_zero (l : list F32.t) :
  Forall (eq F32.zero) l -> Forall (eq F32.zero) (sort_floats l).
Proof.
  intros Hl. unfold sort_floats. induction Hl as [|h t Hh Ht IH]; cbn [fold_right].
  - constructor.
  - apply insert_sorted_zero; [symmetry; exact Hh | exact IH].
Qed.

Lemma median_window_zero (onsetStrength window w : list F32.t) (i : Z) :
  Forall (eq F32.zero) onsetStrength -> Forall (eq F32.zero) window ->
  median_window onsetStrength i window = Ok w -> Forall (eq F32.zero) w.
Proof.
  intros Hos Hw. unfold median_window. intros H.
  match type of H with for_range 0 ?n ?body ?s = _ =>
    pose proof (for_range_inv (fun v : list F32.t => Forall (eq F32.zero) v) (fun _ => True)
                  0 n body s Hw) as Hinv end.
  rewrite H in Hinv. apply Hinv.
  intros k v Hk Hv.
  destruct (int_add (to_int i) k) as [idx|]; cbn [bind]; [|exact I].
  destruct (int_add idx (- (medianSize / 2))) as [idx'|]; cbn [bind]; [|exact I].
  destruct ((idx' <? 0) || (idx' >=? to_int (vsize onsetStrength))).
  - destruct (vset v k F32.zero) as [v'|] eqn:Ev; [|exact I].
    apply (vset_Forall _ _ _ _ _ Hv eq_refl Ev).
  - destruct (vget onsetStrength idx') as [a|] eqn:Ea; cbn [bind]; [|exact I].
    destruct (vset v k a) as [v'|] eqn:Ev; [|exact I].
    apply (vset_Forall _ _ _ _ _ Hv (vget_Forall _ _ _ _ Hos Ea) Ev).
Qed.

Lemma median_filter_silent (onsetStrength mf : list F32.t) :
  Forall (eq F32.zero) onsetStrength ->
  median_filter onsetStrength = Ok mf -> Forall (eq F32.zero) mf.
Proof.
  intros Hos. unfold median_filter. intros H.
  match type of H with (' _ <- for_range 0 ?m ?body ?s ;; _) = _ =>
    pose proof (for_range_inv
      (fun st : list F32.t * list F32.t =>
         Forall (eq F32.zero) (fst st) /\ Forall (eq F32.zero) (snd st))
      (fun _ => True) 0 m body s) as Hinv;
    destruct (for_range 0 m body s) as [[mf' w]|e]; [|discriminate] end.
  cbn [bind] in H. injection H as <-. cbn [fst snd] in Hinv. apply Hinv.
  - split; apply Forall_vmake; reflexivity.
  - intros k [mf0 w0] Hk [Hmf Hw]. cbn [fst snd] in Hmf, Hw.
    destruct (median_window onsetStrength k w0) as [w1|] eqn:E1; cbn [bind]; [|exact I].
    pose proof (sort_floats_zero w1 (median_window_zero _ _ _ _ Hos Hw E1)) as Hw1.
    destruct (vget (sort_floats w1) (medianSize / 2)) as [m|] eqn:Em; cbn [bind]; [|exact I].
    destruct (vget onsetStrength k) as [o|] eqn:Eo; cbn [bind]; [|exact I].
    rewrite <- (vget_Forall _ _ _ _ Hw1 Em), <- (vget_Forall _ _ _ _ Hos Eo).
    change ((F32.zero - F32.zero >? F32.zero)%f32) with false. cbv iota.
    destruct (vset mf0 k F32.zero) as [mf1|] eqn:E; cbn [bind fst snd]; [|exact I].
    split; [apply (vset_Forall _ _ _ _ _ Hmf eq_refl E) | exact Hw1].
Qed.

(** The onset envelope of silence is all +0. *)
Lemma detectOnsets_silent (samples : list F32.t) (sampleRate : Z) :
  1024 <= vsize samples <= 2 ^ 39 -> Forall is_zero samples ->
  exists env,
    detectOnsets samples sampleRate = Ok env
    /\ vsize env = (vsize samples - 1024) / 512 + 1
    /\ Forall (eq F32.zero) env.
Proof.
  intros Hn Hs.
  destruct (detectOnsets_total samples sampleRate Hn) as [env [E S]].
  exists env. split; [exact E|]. split; [exact S|].
  unfold detectOnsets in E. cbv zeta in E.
  rewrite numFrames_of_long in E by (unfold size_max; lia).
  set (nf := (vsize samples - 1024) / 512 + 1) in *.
  assert (Hnf : 1 <= nf).
  { subst nf. pose proof (Z.div_pos (vsize samples - 1024) 512 ltac:(lia) ltac:(lia)). lia. }
  destruct (spectral_flux_silent samples sampleRate nf 1024 10 ltac:(lia) eq_refl
              arguments_finite_1024 Hs ltac:(lia)) as [f1 [E1 [S1 Z1]]].
  rewrite E1 in E. cbn [bind] in E.
  rewrite (add_normalized_silent nf f1 _ Hnf S1 Z1) in E. cbn [bind] in E.
  destruct (spectral_flux_silent samples sampleRate nf 2048 11 ltac:(lia) eq_refl
              arguments_finite_2048 Hs ltac:(lia)) as [f2 [E2 [S2 Z2]]].
  rewrite E2 in E. cbn [bind] in E.
  rewrite (add_normalized_silent nf f2 _ Hnf S2 Z2) in E. cbn [bind] in E.
  apply (median_filter_silent _ env) in E; [exact E|].
  apply Forall_forall. intros x Hx. apply in_map_iff in Hx. destruct Hx as [y [<- Hy]].
  unfold vmake in Hy. apply repeat_spec in Hy. subst y. reflexivity.
Qed.

End SilentOnsets.

(** ** Silence: no beat *)

(** The sums of [findBeats] over a window of +0 values. *)
Lemma local_stats_zero (env : list F32.t) (i : Z) :
  Forall (eq F32.zero) env -> 0 <= i < vsize env -> vsize env <= int_max ->
  exists count, local_stats env (vsize env) i = Ok (F32.zero, F32.zero, count)
                /\ 1 <= count <= 30.
Proof.
  intros Henv Hi Hlen. unfold local_stats, statsWindow.
  change (30 / 2) with 15.
  rewrite (szadd_small i 15) by (unfold size_max, int_max in *; lia).
  set (lo := if 15 <? i then szsub i 15 else 0).
  set (hi := if i + 15 <? vsize env then i + 15 else vsize env).
  assert (Hlo : 0 <= lo <= i /\ i - 15 <= lo).
  { subst lo. destruct (Z.ltb_spec 15 i).
    - rewrite szsub_small by (unfold size_max, int_max in *; lia). lia.
    - lia. }
  assert (Hhi : i < hi <= vsize env /\ hi <= i + 15).
  { subst hi. destruct (Z.ltb_spec (i + 15) (vsize env)); lia. }
  match goal with |- exists c, for_range lo hi ?body ?s = _ /\ _ =>
    destruct (for_range_total_idx
                (fun k (st : F32.t * F32.t * Z) => st = (F32.zero, F32.zero, k - lo))
                lo hi body s) as [st [E Hst]] end.
  - lia.
  - f_equal. lia.
  - intros k st Hk ->.
    destruct (vget env k) as [x|] eqn:Ex.
    + rewrite <- (vget_Forall _ _ _ _ Henv Ex). cbn [bind].
      eexists. split; [reflexivity|]. f_equal. lia.
    + destruct (vget_ok env k ltac:(lia)) as [a [Ha _]]. congruence.
  - subst st. exists (hi - lo). split; [exact E | lia].
Qed.

Lemma threshold_of_zero (f : F32.t) (count : Z) :
  is_finite f = true -> 1 <= count <= 30 ->
  threshold_of f (F32.zero, F32.zero, count) = F32.zero.
Proof.
  intros Hf Hc. unfold threshold_of.
  destruct (of_Z_in count 5 ltac:(lia) ltac:(lia)) as [m [e [E _]]]. rewrite E.
  change (F32.zero / S754_finite false m e)%f32 with F32.zero.
  change (F32.zero - F32.zero * F32.zero)%f32 with F32.zero.
  change (F32.sqrt F32.zero) with F32.zero.
  destruct (mul_zero_r f F32.zero Hf is_zero_zero) as [s ->]. destruct s; reflexivity.
Qed.

Lemma adaptive_threshold_zero (env thr : list F32.t) (f : F32.t) :
  Forall (eq F32.zero) env -> vsize env <= int_max -> is_finite f = true ->
  adaptive_threshold env f = Ok thr -> Forall (eq F32.zero) thr.
Proof.
  intros Henv Hlen Hf. unfold adaptive_threshold. intros H.
  match type of H with for_range 0 ?n ?body ?s = _ =>
    pose proof (for_range_inv (fun v : list F32.t => Forall (eq F32.zero) v) (fun _ => True)
                  0 n body s) as Hinv end.
  rewrite H in Hinv. apply Hinv.
  - apply Forall_vmake. reflexivity.
  - intros k v Hk Hv.
    destruct (local_stats_zero env k Henv Hk Hlen) as [c [E Hc]]. rewrite E. cbn [bind].
    rewrite (threshold_of_zero f c Hf Hc).
    destruct (vset v k F32.zero) as [v'|] eqn:Ev; [|exact I].
    apply (vset_Forall _ _ _ _ _ Hv eq_refl Ev).
Qed.

Lemma sample_at_Forall (P : F32.t -> Prop) (v : list F32.t) (i : Z) :
  Forall P v -> 0 <= i < vsize v -> P (sample_at v i).
Proof.
  intros Hv Hi. pose proof (vget_sample v i Hi) as H.
  apply (vget_Forall P v i _ Hv H).
Qed.

(** In an envelope of +0 values no frame exceeds its threshold. *)
Lemma findBeats_zero (env : list F32.t) (f : F32.t) :
  9 <= vsize env <= int_max -> Forall (eq F32.zero) env -> is_finite f = true ->
  findBeats env f = Ok [].
Proof.
  intros Hlen Henv Hf.
  destruct (findBeats_spec env f Hlen) as [thr [peaks [Et [St [E [_ Hp]]]]]].
  rewrite E. f_equal. destruct peaks as [|p peaks]; [reflexivity|]. exfalso.
  destruct (proj1 (Hp p) (or_introl eq_refl)) as [Hr [Hc _]].
  pose proof (adaptive_threshold_zero env thr f Henv ltac:(lia) Hf Et) as Hthr.
  rewrite <- (sample_at_Forall _ env p Henv ltac:(lia)) in Hc.
  rewrite <- (sample_at_Forall _ thr p Hthr ltac:(lia)) in Hc.
  discriminate Hc.
Qed.

Section SilentTrack.
Context {L : Libm}.
Variable bucket_order : list (Z * F32.t) -> list (Z * F32.t).
Hypothesis HL : libm_ranges L.

Lemma AnalyzeFileBPM_silent_aux (st : bridge_state) (audio samples : list F32.t)
  (originalRate sampleRate : Z) :
  g_bpmDetector st = true -> g_loadAudio st = true ->
  LoadAudioFunction.loadAudio audio originalRate = Ok (samples, sampleRate) ->
  5120 <= vsize samples <= 2 ^ 39 -> Forall is_zero samples ->
  AnalyzeFileBPM bucket_order st (Some (audio, originalRate))
  = Ok (0, mkBridge true true (g_fftProcessor st) [] (g_lastBPM st)).
Proof.
  intros H1 H2 Hl Hn Hs. unfold AnalyzeFileBPM. rewrite H1, H2. cbn [negb orb].
  rewrite Hl. cbn [bind]. cbv zeta.
  destruct (detectOnsets_silent HL samples sampleRate ltac:(lia) Hs) as [env [E [S Z]]].
  rewrite E. cbn [bind].
  assert (Hsz : 9 <= vsize env <= int_max).
  { rewrite S. unfold int_max.
    pose proof (Z.div_le_lower_bound (vsize samples - 1024) 512 8 ltac:(lia) ltac:(lia)).
    pose proof (Z.div_lt_upper_bound (vsize samples - 1024) 512 (2 ^ 30)
                  ltac:(lia) ltac:(lia)).
    lia. }
  rewrite (findBeats_zero env (F32.lit 13 10) Hsz Z eq_refl). reflexivity.
Qed.

End SilentTrack.

(** ** Silence: what the callers get *)

Lemma libm_unit_ranges : libm_ranges libm_unit.
Proof.
  split; [|split].
  - intros x _. vm_compute. auto.
  - intros x _. vm_compute. auto.
  - intros x y [s ->] [t ->]. reflexivity.
Qed.

(** Averaging blocks of zeros gives zeros. *)
Lemma loadAudio_zero (audio samples : list F32.t) (originalRate sampleRate : Z) :
  Forall is_zero audio ->
  loadAudio audio originalRate = Ok (samples, sampleRate) -> Forall is_zero samples.
Proof.
  intros Ha. unfold loadAudio. cbv zeta.
  destruct (TARGET_RATE <? originalRate); [|intros H; injection H as <- _; exact Ha].
  set (factor := to_int (originalRate / TARGET_RATE)).
  destruct (Z.ltb_spec 1 factor) as [Hf|Hf]; [|intros H; injection H as <- _; exact Ha].
  assert (Hmax : factor <= 2 ^ 31).
  { subst factor. unfold to_int.
    pose proof (Z.mod_pos_bound (originalRate / TARGET_RATE + 2 ^ 31) (2 ^ 32)
                  ltac:(lia)). lia. }
  destruct (of_Z_in factor 31 ltac:(lia) ltac:(lia)) as [m [e [Ef _]]].
  intros H.
  match type of H with (d <- for_range 0 ?n ?body ?s ;; _) = _ =>
    pose proof (for_range_inv (fun v : list F32.t => Forall is_zero v) (fun _ => True)
                  0 n body s) as Hinv;
    destruct (for_range 0 n body s) as [d|]; [|discriminate] end.
  cbn [bind] in H. injection H as <- _. apply Hinv.
  - apply Forall_vmake, is_zero_zero.
  - intros i d Hi Hd.
    match goal with |- match (sum <- for_range 0 factor ?body ?s ;; _) with _ => _ end =>
      pose proof (for_range_inv is_zero (fun _ => True) 0 factor body s is_zero_zero)
        as Hsum;
      destruct (for_range 0 factor body s) as [sum|]; cbn [bind]; [|exact I] end.
    assert (Hz : is_zero sum).
    { apply Hsum. intros j acc Hj Hacc.
      destruct (vget audio (szadd (szmul i factor) j)) as [a|] eqn:Ea; cbn [bind];
        [|exact I].
      apply add_zero; [exact Hacc | apply (vget_Forall _ _ _ _ Ha Ea)]. }
    destruct Hz as [s ->]. rewrite Ef.
    match goal with |- match vset d i ?x with _ => _ end =>
      destruct (vset d i x) as [d'|] eqn:Ed; [|exact I] end.
    apply (vset_Forall _ _ _ _ _ Hd) in Ed; [exact Ed|].
    destruct s; eexists; reflexivity.
Qed.

Lemma Forall_eq_vmake {A : Type} (v : list A) (a : A) :
  Forall (eq a) v -> v = vmake (vsize v) a.
Proof.
  intros H. unfold vmake, vsize. rewrite Nat2Z.id.
  induction H as [|x v <- _ IH]; cbn [repeat length]; [reflexivity | now f_equal].
Qed.

Section Silence.
Context {L : Libm}.
Variable bucket_order : list (Z * F32.t) -> list (Z * F32.t).
Hypothesis HL : libm_ranges L.

(** Silence (samples that are all +0 or -0) has an onset envelope of +0 in
    every frame: neither the windows, nor the two transforms, nor the
    normalisation by the largest flux produce a NaN or a nonzero value. *)
Theorem detectOnsets_silence (samples : list F32.t) (sampleRate : Z) :
  1024 <= vsize samples <= 2 ^ 39 -> Forall is_zero samples ->
  detectOnsets samples sampleRate
  = Ok (vmake ((vsize samples - 1024) / 512 + 1) F32.zero).
Proof.
  intros Hn Hs.
  destruct (detectOnsets_silent HL samples sampleRate Hn Hs) as [env [E [S Z]]].
  rewrite E. f_equal. rewrite <- S. apply Forall_eq_vmake. exact Z.
Qed.

(** A silent recording of at least 5120 samples after [loadAudio]: no beat
    is found, [AnalyzeFileBPM] returns 0 and stores an empty beat list. *)
Theorem AnalyzeFileBPM_silence (st : bridge_state) (audio samples : list F32.t)
  (originalRate sampleRate : Z) :
  g_bpmDetector st = true -> g_loadAudio st = true ->
  Forall is_zero audio ->
  loadAudio audio originalRate = Ok (samples, sampleRate) ->
  5120 <= vsize samples <= 2 ^ 39 ->
  AnalyzeFileBPM bucket_order st (Some (audio, originalRate))
  = Ok (0, mkBridge true true (g_fftProcessor st) [] (g_lastBPM st)).
Proof.
  intros H1 H2 Ha Hl Hn.
  apply (AnalyzeFileBPM_silent_aux bucket_order HL st audio samples originalRate sampleRate);
    auto.
  apply (loadAudio_zero audio samples originalRate sampleRate Ha Hl).
Qed.

End Silence.

Lemma detectOnsets_silence_witness :
  @detectOnsets libm_unit (vmake 2048 F32.zero) 22050 = Ok (vmake 3 F32.zero).
Proof.
  apply (@detectOnsets_silence libm_unit libm_unit_ranges (vmake 2048 F32.zero) 22050).
  - vm_compute. split; discriminate.
  - apply Forall_vmake, is_zero_zero.
Defined.

Lemma AnalyzeFileBPM_silence_witness :
  @AnalyzeFileBPM libm_unit (fun h => h) (mkBridge true true true [7] 120)
    (Some (vmake 12288 F32.zero, 22050))
  = Ok (0, mkBridge true true true [] 120).
Proof.
  apply (@AnalyzeFileBPM_silence libm_unit (fun h => h) libm_unit_ranges
           (mkBridge true true true [7] 120) (vmake 12288 F32.zero)
           (vmake 12288 F32.zero) 22050 22050).
  - reflexivity.
  - reflexivity.
  - apply Forall_vmake, is_zero_zero.
  - reflexivity.
  - vm_compute. split; discriminate.
Defined.
